(** * iZ-lib: prime sieves and prime search over the residue classes 6x-1 and 6x+1

    A shallow embedding of the C sources (src/iZ.c, src/algorithms/sieve_iZ.c,
    src/algorithms/sieve.c, src/algorithms/prime_gen.c, src/modules/primes_obj.c,
    src/modules/vx_obj.c) and the properties the specification states about them.

    Conventions.
    - [uint64_t] and [size_t] values are integers of [Z]; where the C code
      computes in 64 bits the wrap-around is written with [wrap64].  [int]
      values are integers of [Z]; their overflow is undefined in C and is not
      modelled.
    - [mpz_t] values are plain integers of [Z].
    - a [BITMAP] is its size and the bit at every index.
    - a file is the list of its bytes.
    - a C loop is a structural recursion over the number of its iterations
      ([for_loop]) or over the list it walks; a loop whose exit depends on an
      outside answer takes fuel and reports [NoFuel] when it is still running.
    - memory allocation and [fopen] succeed.  The [assert]s of iZ and iZ_gmp
      are preconditions and are not modelled, except in search_iZprime, whose
      random draw can be 0: there the failed [assert] is the result [Fault].
    - the sieves create their prime list with primes_obj_init(pi_n(n) * 1.5);
      pi_n is declared in utils.h and its body is not among the sources.  The
      model takes the hint to be a positive [int] that the list does not
      outgrow, and [p_count] to stay an [int]; the theorems that say a sieve
      returns a list therefore take n < 2^32.
    - vx_init allocates vx / 2 cells for the gaps and vx_append_p_gap does not
      check them: [sieve_vx] is the gap list the code builds when the cells
      suffice, [sieve_vx_in_cells] says when they do not.
    - bitmap.c is not among the sources.  The spec states its operations; for
      bitmap_clear_mod_p it does not settle whether the index [limit] itself
      is cleared, and the properties proved of the code do not depend on the
      bit at that index. *)

From Stdlib Require Import ZArith Zdivisibility List Bool Lia Sorted.
From Stdlib Require Import Strings.Byte.
From Stdlib Require Strings.Ascii Strings.String.
Import ListNotations.
Local Open Scope Z_scope.

(** ** Machine integers and loops *)

Definition U64 : Z := 2 ^ 64.
Definition wrap64 (z : Z) : Z := z mod U64.

(** Conversion to [uint16_t]. *)
Definition wrap16 (z : Z) : Z := z mod 65536.

(** [for (x = lo; x < hi; x++) s = body x s] *)
Fixpoint for_range {S : Type} (k : nat) (x : Z) (body : Z -> S -> S) (s : S) : S :=
  match k with
  | O => s
  | Datatypes.S k' => for_range k' (x + 1) body (body x s)
  end.

Definition for_loop {S : Type} (lo hi : Z) (body : Z -> S -> S) (s : S) : S :=
  for_range (Z.to_nat (hi - lo)) lo body s.

(** What a call that may fault or run on gives. *)
Inductive outcome (A : Type) : Type :=
| Ret (a : A)   (* the call returns [a] *)
| Fault         (* division by zero, or a failed assert *)
| NoFuel.       (* the loop is still running when the fuel is spent *)
Arguments Ret {A} a.
Arguments Fault {A}.
Arguments NoFuel {A}.

(** ** Bytes *)

Definition byte_of_Z (z : Z) : byte :=
  match Byte.of_N (Z.to_N (z mod 256)) with Some b => b | None => x00 end.

Definition Z_of_byte (b : byte) : Z := Z.of_N (Byte.to_N b).

(** Little-endian bytes of a value, as fwrite leaves them on the host the
    library targets, and the value of little-endian bytes. *)
Fixpoint le_bytes (k : nat) (v : Z) : list byte :=
  match k with
  | O => []
  | S k' => byte_of_Z v :: le_bytes k' (v / 256)
  end.

Fixpoint le_value (bs : list byte) : Z :=
  match bs with
  | [] => 0
  | b :: bs' => Z_of_byte b + 256 * le_value bs'
  end.

(** ** SHA-256 (FIPS 180-4), the function of OpenSSL the library calls *)

Module SHA256.
Definition w32 (x : Z) : Z := x mod 2 ^ 32.
Definition rotr (n x : Z) : Z := Z.lor (Z.shiftr x n) (w32 (Z.shiftl x (32 - n))).
Definition Ch (x y z : Z) : Z := Z.lxor (Z.land x y) (Z.land (w32 (Z.lnot x)) z).
Definition Maj (x y z : Z) : Z := Z.lxor (Z.lxor (Z.land x y) (Z.land x z)) (Z.land y z).
Definition Sigma0 (x : Z) : Z := Z.lxor (Z.lxor (rotr 2 x) (rotr 13 x)) (rotr 22 x).
Definition Sigma1 (x : Z) : Z := Z.lxor (Z.lxor (rotr 6 x) (rotr 11 x)) (rotr 25 x).
Definition sigma0 (x : Z) : Z := Z.lxor (Z.lxor (rotr 7 x) (rotr 18 x)) (Z.shiftr x 3).
Definition sigma1 (x : Z) : Z := Z.lxor (Z.lxor (rotr 17 x) (rotr 19 x)) (Z.shiftr x 10).

Definition K : list Z :=
  [1116352408; 1899447441; 3049323471; 3921009573; 961987163; 1508970993; 2453635748; 2870763221; 3624381080; 310598401; 607225278; 1426881987; 1925078388; 2162078206; 2614888103; 3248222580; 3835390401; 4022224774; 264347078; 604807628; 770255983; 1249150122; 1555081692; 1996064986; 2554220882; 2821834349; 2952996808; 3210313671; 3336571891; 3584528711; 113926993; 338241895; 666307205; 773529912; 1294757372; 1396182291; 1695183700; 1986661051; 2177026350; 2456956037; 2730485921; 2820302411; 3259730800; 3345764771; 3516065817; 3600352804; 4094571909; 275423344; 430227734; 506948616; 659060556; 883997877; 958139571; 1322822218; 1537002063; 1747873779; 1955562222; 2024104815; 2227730452; 2361852424; 2428436474; 2756734187; 3204031479; 3329325298].

Record state := mk { ha : Z; hb : Z; hc : Z; hd : Z; he : Z; hf : Z; hg : Z; hh : Z }.

Definition H0 : state :=
  mk 1779033703 3144134277 1013904242 2773480762 1359893119 2600822924 528734635 1541459225.

(** One round with constant [k]; the window holds the sixteen schedule words
    W[t..t+15]. *)
Definition round (sw : state * list Z) (k : Z) : state * list Z :=
  let (s, w) := sw in
  let wt := nth 0 w 0 in
  let t1 := w32 (hh s + Sigma1 (he s) + Ch (he s) (hf s) (hg s) + k + wt) in
  let t2 := w32 (Sigma0 (ha s) + Maj (ha s) (hb s) (hc s)) in
  let wnew := w32 (sigma1 (nth 14 w 0) + nth 9 w 0 + sigma0 (nth 1 w 0) + wt) in
  (mk (w32 (t1 + t2)) (ha s) (hb s) (hc s) (w32 (hd s + t1)) (he s) (hf s) (hg s),
   tl w ++ [wnew]).

Definition compress (s : state) (block : list Z) : state :=
  let (r, _) := fold_left round K (s, block) in
  mk (w32 (ha s + ha r)) (w32 (hb s + hb r)) (w32 (hc s + hc r)) (w32 (hd s + hd r))
     (w32 (he s + he r)) (w32 (hf s + hf r)) (w32 (hg s + hg r)) (w32 (hh s + hh r)).

(** Big-endian bytes of a value. *)
Fixpoint be_bytes (k : nat) (v : Z) : list Z :=
  match k with
  | O => []
  | S k' => (v / 256 ^ Z.of_nat k') mod 256 :: be_bytes k' v
  end.

Definition pad (msg : list Z) : list Z :=
  let l := Z.of_nat (length msg) in
  msg ++ [128] ++ repeat 0 (Z.to_nat ((55 - l) mod 64)) ++ be_bytes 8 (8 * l).

(** Big-endian words of a byte string. *)
Fixpoint words (bs : list Z) : list Z :=
  match bs with
  | b0 :: b1 :: b2 :: b3 :: rest =>
      (((b0 * 256 + b1) * 256 + b2) * 256 + b3) :: words rest
  | _ => []
  end.

Fixpoint blocks (n : nat) (ws : list Z) (s : state) : state :=
  match n with
  | O => s
  | S n' => blocks n' (skipn 16 ws) (compress s (firstn 16 ws))
  end.

Definition digest_state (msg : list Z) : state :=
  let ws := words (pad msg) in
  blocks (length ws / 16) ws H0.

Definition be32 (x : Z) : list byte := map byte_of_Z (be_bytes 4 x).

Definition SHA256 (msg : list byte) : list byte :=
  let s := digest_state (map Z_of_byte msg) in
  be32 (ha s) ++ be32 (hb s) ++ be32 (hc s) ++ be32 (hd s) ++
  be32 (he s) ++ be32 (hf s) ++ be32 (hg s) ++ be32 (hh s).
End SHA256.

(** ** Bit array (include/vx_obj.h declares it; src/modules/bitmap.c is not
    part of the sources) *)

Module Bitmap.

Record BITMAP := mk { size : Z; data : Z -> bool }.

(** Modelled from the spec: bitmap_create of the missing bitmap.c, "create(size)";
    the fresh array has every bit clear, which construct_vx2 relies on (it only
    sets bits). *)
Definition bitmap_create (sz : Z) : BITMAP :=
  mk sz (fun _ => false).

(** Modelled from the spec: bitmap_set_all of the missing bitmap.c, "set_all". *)
Definition bitmap_set_all (b : BITMAP) : BITMAP :=
  mk (size b) (fun i => (0 <=? i) && (i <? size b)).

(** Modelled from the spec: bitmap_get_bit of the missing bitmap.c, "get(i)". *)
Definition bitmap_get_bit (b : BITMAP) (idx : Z) : bool := data b idx.

(** Modelled from the spec: bitmap_set_bit of the missing bitmap.c, "set(i)". *)
Definition bitmap_set_bit (b : BITMAP) (idx : Z) : BITMAP :=
  mk (size b) (fun i => if i =? idx then true else data b i).

(** Modelled from the spec: bitmap_clear_bit of the missing bitmap.c, "clear(i)". *)
Definition bitmap_clear_bit (b : BITMAP) (idx : Z) : BITMAP :=
  mk (size b) (fun i => if i =? idx then false else data b i).

(** Modelled from the spec: bitmap_clear_mod_p of the missing bitmap.c,
    "clear_stride(p, start, limit): clears indices start, start+p, start+2p, ...
    while < limit", "equivalent to the obvious loop".  Other sentences of the
    spec, and callers that mark up to [limit] and then read the index [limit],
    suggest that the index [limit] is cleared too; the sources do not settle
    it.  Below [limit] and above it the two readings agree. *)
Definition bitmap_clear_mod_p (b : BITMAP) (p start_idx limit : Z) : BITMAP :=
  mk (size b)
     (fun i => if (start_idx <=? i) && (i <? limit) && ((i - start_idx) mod p =? 0)
               then false else data b i).

(** Modelled from the spec: bitmap_clone of the missing bitmap.c, "clone". *)
Definition bitmap_clone (b : BITMAP) : BITMAP := mk (size b) (data b).

(** Modelled from the spec: bitmap_duplicate_segment of the missing bitmap.c,
    "duplicate_segment(start, seg_size, k): after the call, for each j in [1, k-1],
    the range [start + j*seg_size, start + (j+1)*seg_size) is a bitwise copy of
    [start, start + seg_size)". *)
Definition bitmap_duplicate_segment (b : BITMAP) (start_idx segment_size k : Z) : BITMAP :=
  mk (size b)
     (fun i => if (start_idx + segment_size <=? i) && (i <? start_idx + k * segment_size)
               then data b (start_idx + (i - start_idx) mod segment_size)
               else data b i).

End Bitmap.
Import Bitmap.

(** ** Prime list (include/primes_obj.h, src/modules/primes_obj.c) *)

Module PrimesObj.

(** [p_array] holds the [p_count] live cells of the C array, in order. *)
Record PRIMES_OBJ := mk { p_array : list Z; sha256 : list byte }.

(** [p_count] is an [int] in C: the model is the code as long as the list has
    fewer than 2^31 cells. *)
Definition p_count (o : PRIMES_OBJ) : Z := Z.of_nat (length (p_array o)).

(** The object primes_obj_init(initial_estimate) returns for a positive
    estimate: an empty list with a zeroed hash (allocation succeeds).  For an
    estimate <= 0 the C function returns NULL: primes_obj_read_file models
    that case on the count it reads, and the sieves meet it only when their
    hint pi_n(n) * 1.5 is not a positive [int]. *)
Definition primes_obj_init : PRIMES_OBJ := mk [] (repeat x00 32).

(** primes_obj_append: p_array[p_count++] = p *)
Definition primes_obj_append (o : PRIMES_OBJ) (p : Z) : PRIMES_OBJ :=
  mk (p_array o ++ [p]) (sha256 o).

(** p_array[p_count - 1] *)
Definition last_prime (o : PRIMES_OBJ) : Z := last (p_array o) 0.

(** p_count-- *)
Definition drop_last (o : PRIMES_OBJ) : PRIMES_OBJ :=
  mk (removelast (p_array o)) (sha256 o).

(** The bytes of the array: [p_count * sizeof(uint64_t)] bytes. *)
Definition body_bytes (ps : list Z) : list byte := flat_map (le_bytes 8) ps.

(** Modelled from the spec: hash_int_array of the missing utils.c, "32-byte
    SHA-256 of the body", over the [size] bytes it is given. *)
Definition hash_int_array (bs : list byte) : list byte := SHA256.SHA256 bs.

(** primes_obj_compute_hash: fails on an empty list and leaves the hash. *)
Definition primes_obj_compute_hash (o : PRIMES_OBJ) : PRIMES_OBJ :=
  if p_count o =? 0 then o
  else mk (p_array o) (hash_int_array (body_bytes (p_array o))).

(** primes_obj_verify_hash: [true] is the C result 0, a valid hash. *)
Definition primes_obj_verify_hash (o : PRIMES_OBJ) : bool :=
  if p_count o =? 0 then false
  else if list_eq_dec Byte.byte_eq_dec (SHA256.SHA256 (body_bytes (p_array o))) (sha256 o)
       then true else false.

(** primes_obj_write_file: the object with its hash computed and the bytes of
    the file, [p_count] as a 4-byte int, the array, the hash. *)
Definition primes_obj_write_file (o : PRIMES_OBJ) : PRIMES_OBJ * list byte :=
  let o := primes_obj_compute_hash o in
  (o, le_bytes 4 (p_count o) ++ body_bytes (p_array o) ++ sha256 o).

(** The [uint64_t] cells of a buffer of bytes. *)
Fixpoint cells (n : nat) (bs : list byte) : list Z :=
  match n with
  | O => []
  | S n' => le_value (firstn 8 bs) :: cells n' (skipn 8 bs)
  end.

(** The value of four bytes read into an [int]. *)
Definition int_of_bytes (bs : list byte) : Z :=
  let v := le_value bs in
  if v <? 2 ^ 31 then v else v - 2 ^ 32.

Inductive read_result : Type :=
| ReadOk (o : PRIMES_OBJ)
| ReadNull     (* NULL: no container for the count, or the hash check failed
                  and the container was freed *)
| ReadShort.   (* the file ends before what its header announces; the C code
                  goes on with what malloc left in the buffers *)

(** primes_obj_read_file *)
Definition primes_obj_read_file (file : list byte) : read_result :=
  if (length file <? 4)%nat then ReadShort
  else
    let p_count := int_of_bytes (firstn 4 file) in
    if p_count <=? 0 then ReadNull
    else
      let n := Z.to_nat p_count in
      let rest := skipn 4 file in
      if (length rest <? 8 * n + 32)%nat then ReadShort
      else
        let o := mk (cells n (firstn (8 * n) rest)) (firstn 32 (skipn (8 * n) rest)) in
        if primes_obj_verify_hash o then ReadOk o else ReadNull.

End PrimesObj.
Import PrimesObj.

(** ** Residue algebra (src/iZ.c) *)

(** iZ: [6 * x + i] in 64 bits. *)
Definition iZ (x i : Z) : Z := wrap64 (6 * x + i).

(** iZ_gmp: [6 * x + 1] or [6 * x - 1] on unbounded integers. *)
Definition iZ_gmp (x i : Z) : Z := if 0 <? i then 6 * x + 1 else 6 * x - 1.

(** compute_limited_vx: the loop reads [s_primes[i]] and multiplies while the
    product stays below [x_n / 2] and [i < vx_limit]. *)
Definition s_primes : list Z := [5; 7; 11; 13; 17; 19; 23; 29; 31; 37; 41; 43; 47].

Fixpoint compute_limited_vx_loop (ps : list Z) (i vx x_n vx_limit : Z) : Z :=
  match ps with
  | [] => vx
  | p :: ps' =>
      if (wrap64 (vx * p) <? x_n / 2) && (i <? vx_limit)
      then compute_limited_vx_loop ps' (i + 1) (wrap64 (vx * p)) x_n vx_limit
      else vx
  end.

Definition compute_limited_vx (x_n vx_limit : Z) : Z :=
  compute_limited_vx_loop (skipn 2 s_primes) 2 35 x_n vx_limit.

(** construct_vx2: the pattern of 5 and 7 on the indices 1..35. *)
Definition construct_vx2_body (i : Z) (s : BITMAP * BITMAP) : BITMAP * BITMAP :=
  let (x5, x7) := s in
  let x5 := if negb ((i - 1) mod 5 =? 0) && negb ((i + 1) mod 7 =? 0)
            then bitmap_set_bit x5 i else x5 in
  let x7 := if negb ((i + 1) mod 5 =? 0) && negb ((i - 1) mod 7 =? 0)
            then bitmap_set_bit x7 i else x7 in
  (x5, x7).

Definition construct_vx2 (x5 x7 : BITMAP) : BITMAP * BITMAP :=
  for_loop 1 36 construct_vx2_body (x5, x7).

(** One turn of the while loop of construct_iZm_segment for the prime [p]. *)
Definition construct_iZm_step (p current_size : Z) (s : BITMAP * BITMAP) : BITMAP * BITMAP :=
  let (x5, x7) := s in
  let x := (p + 1) / 6 in
  let x5 := bitmap_duplicate_segment x5 1 current_size p in
  let x7 := bitmap_duplicate_segment x7 1 current_size p in
  let current_size := wrap64 (current_size * p) in
  if 1 <? p mod 6 then
    let x5 := bitmap_clear_bit x5 x in
    (bitmap_clear_mod_p x5 p (wrap64 (p * x + x)) (current_size + 1),
     bitmap_clear_mod_p x7 p (wrap64 (p * x - x)) (current_size + 1))
  else
    let x7 := bitmap_clear_bit x7 x in
    (bitmap_clear_mod_p x5 p (wrap64 (p * x - x)) (current_size + 1),
     bitmap_clear_mod_p x7 p (wrap64 (p * x + x)) (current_size + 1)).

(** [while (vx % s_primes[idx] == 0)] over the primes from index 2 of the
    ten-element table of construct_iZm_segment. *)
Fixpoint construct_iZm_loop (ps : list Z) (vx current_size : Z) (s : BITMAP * BITMAP)
  : BITMAP * BITMAP :=
  match ps with
  | [] => s
  | p :: ps' =>
      if vx mod p =? 0
      then construct_iZm_loop ps' vx (wrap64 (current_size * p)) (construct_iZm_step p current_size s)
      else s
  end.

Definition construct_iZm_segment (vx : Z) (x5 x7 : BITMAP) : BITMAP * BITMAP :=
  construct_iZm_loop (firstn 8 (skipn 2 s_primes)) vx 35 (construct_vx2 x5 x7).

(** The normalized index of [p] in the matrix [matrix_id]. *)
Definition normalized_x_p (matrix_id p : Z) : Z :=
  let x_p := (p + 1) / 6 in
  let p_id := if p mod 6 =? 1 then 1 else -1 in
  if matrix_id =? p_id then x_p else wrap64 (p - x_p).

(** solve_for_x: all of it in uint64_t. *)
Definition solve_for_x (matrix_id p vx y : Z) : Z :=
  let x_p := normalized_x_p matrix_id p in
  let yvx := wrap64 (vx * y) in
  wrap64 (p - wrap64 (yvx - x_p) mod p).

(** solve_for_x_gmp: [y] is an mpz_t; mpz_mod_ui leaves the non-negative
    remainder. *)
Definition solve_for_x_gmp (matrix_id p vx y : Z) : Z :=
  let x_p := normalized_x_p matrix_id p in
  let tmp := (y * vx - x_p) mod p in
  wrap64 (p - tmp).

(** modular_inverse: the loop [while (a > 1)] on [int]s; [/] and [%] truncate.
    Dividing by [m = 0] is a fault. *)
Fixpoint modular_inverse_loop (fuel : nat) (a m x0 x1 : Z) : outcome Z :=
  if 1 <? a then
    match fuel with
    | O => NoFuel
    | S fuel' =>
        if m =? 0 then Fault
        else
          let q := Z.quot a m in
          modular_inverse_loop fuel' m (Z.rem a m) (x1 - q * x0) x0
    end
  else Ret x1.

Definition modular_inverse (a m : Z) : outcome Z :=
  if m =? 1 then Ret 0
  else
    match modular_inverse_loop (S (Z.to_nat (Z.abs m))) a m 0 1 with
    | Ret x1 => Ret (if x1 <? 0 then x1 + m else x1)
    | Fault => Fault
    | NoFuel => NoFuel
    end.

(** modular_inverse_gmp: mpz_fdiv_q rounds down, mpz_mod leaves the
    non-negative remainder.  The loop writes [q * x0] to [t] before it moves
    [t] to [x1]. *)
Fixpoint modular_inverse_gmp_loop (fuel : nat) (temp_a temp_m x0 x1 : Z) : outcome Z :=
  if 1 <? temp_a then
    match fuel with
    | O => NoFuel
    | S fuel' =>
        if temp_m =? 0 then Fault
        else
          let q := temp_a / temp_m in
          let t := q * x0 in
          modular_inverse_gmp_loop fuel' temp_m (temp_a mod Z.abs temp_m) (x1 - t) t
    end
  else Ret x1.

Definition modular_inverse_gmp (a m : Z) : outcome Z :=
  if m =? 1 then Ret 0
  else
    match modular_inverse_gmp_loop (S (Z.to_nat (Z.abs m))) a m 0 1 with
    | Ret x1 => Ret (if x1 <? 0 then x1 + m else x1)
    | Fault => Fault
    | NoFuel => NoFuel
    end.

(** ** Sieves (src/algorithms/sieve_iZ.c, src/algorithms/sieve.c) *)

Record sieve_state := mk_sieve { st_x5 : BITMAP; st_x7 : BITMAP; st_primes : PRIMES_OBJ }.

(** The x5 half of the loop body of sieve_iZ at index [x]. *)
Definition sieve_iZ_x5 (n_sqrt x_n x : Z) (s : sieve_state) : sieve_state :=
  if bitmap_get_bit (st_x5 s) x then
    let p := iZ x (-1) in
    let primes := primes_obj_append (st_primes s) p in
    if p <? n_sqrt then
      mk_sieve (bitmap_clear_mod_p (st_x5 s) p (wrap64 (p * x + x)) x_n)
               (bitmap_clear_mod_p (st_x7 s) p (wrap64 (p * x - x)) x_n)
               primes
    else mk_sieve (st_x5 s) (st_x7 s) primes
  else s.

(** The x7 half of the loop body of sieve_iZ at index [x]. *)
Definition sieve_iZ_x7 (n_sqrt x_n x : Z) (s : sieve_state) : sieve_state :=
  if bitmap_get_bit (st_x7 s) x then
    let p := iZ x 1 in
    let primes := primes_obj_append (st_primes s) p in
    if p <? n_sqrt then
      mk_sieve (bitmap_clear_mod_p (st_x5 s) p (wrap64 (p * x - x)) x_n)
               (bitmap_clear_mod_p (st_x7 s) p (wrap64 (p * x + x)) x_n)
               primes
    else mk_sieve (st_x5 s) (st_x7 s) primes
  else s.

Definition sieve_iZ_body (n_sqrt x_n x : Z) (s : sieve_state) : sieve_state :=
  sieve_iZ_x7 n_sqrt x_n x (sieve_iZ_x5 n_sqrt x_n x s).

(** "if last prime > n, remove it" *)
Definition drop_overshoot (n : Z) (primes : PRIMES_OBJ) : PRIMES_OBJ :=
  if n <? last_prime primes then drop_last primes else primes.

(** sieve_iZ: [None] is the NULL result for n < 10.  [sqrt(n)] is computed in
    double precision in C; it is the integer square root here. *)
Definition sieve_iZ (n : Z) : option PRIMES_OBJ :=
  if n <? 10 then None
  else
    let primes := primes_obj_append (primes_obj_append primes_obj_init 2) 3 in
    let x_n := wrap64 (n / 6 + 1) in
    let x5 := bitmap_set_all (bitmap_create (x_n + 1)) in
    let x7 := bitmap_set_all (bitmap_create (x_n + 1)) in
    let n_sqrt := Z.sqrt n + 1 in
    let s := for_loop 1 x_n (sieve_iZ_body n_sqrt x_n) (mk_sieve x5 x7 primes) in
    Some (drop_overshoot n (st_primes s)).

(** The loop body of classic_sieve_eratosthenes at [p]. *)
Definition classic_body (n n_sqrt p : Z) (s : BITMAP * PRIMES_OBJ) : BITMAP * PRIMES_OBJ :=
  let (n_bits, primes) := s in
  if bitmap_get_bit n_bits p then
    let primes := primes_obj_append primes p in
    if p <=? n_sqrt then (bitmap_clear_mod_p n_bits p (wrap64 (p * p)) (n + 1), primes)
    else (n_bits, primes)
  else s.

(** classic_sieve_eratosthenes *)
Definition classic_sieve_eratosthenes (n : Z) : option PRIMES_OBJ :=
  if n <? 10 then None
  else
    let n_bits := bitmap_set_all (bitmap_create (n + 1)) in
    let n_sqrt := Z.sqrt n in
    Some (snd (for_loop 2 (n + 1) (classic_body n n_sqrt) (n_bits, primes_obj_init))).


(** *** sieve_iZm *)

(** "Add pre-sieved primes to primes array": [for i < vx_limit] with break. *)
Fixpoint append_presieved (ps : list Z) (vx : Z) (primes : PRIMES_OBJ) (start_i : Z)
  : PRIMES_OBJ * Z :=
  match ps with
  | [] => (primes, start_i)
  | p :: ps' =>
      if vx mod p =? 0
      then append_presieved ps' vx (primes_obj_append primes p) (start_i + 1)
      else (primes, start_i)
  end.

(** The loop body of the first segment of sieve_iZm at index [x]. *)
Definition sieve_iZm_first_body (vx x : Z) (s : sieve_state) : sieve_state :=
  let s :=
    if bitmap_get_bit (st_x5 s) x then
      let p := iZ x (-1) in
      let primes := primes_obj_append (st_primes s) p in
      if wrap64 (p * p) / 6 <? vx then
        mk_sieve (bitmap_clear_mod_p (st_x5 s) p (wrap64 (p * x + x)) vx)
                 (bitmap_clear_mod_p (st_x7 s) p (wrap64 (p * x - x)) vx)
                 primes
      else mk_sieve (st_x5 s) (st_x7 s) primes
    else s in
  if bitmap_get_bit (st_x7 s) x then
    let p := iZ x 1 in
    let primes := primes_obj_append (st_primes s) p in
    if wrap64 (p * p) / 6 <? vx then
      mk_sieve (bitmap_clear_mod_p (st_x5 s) p (wrap64 (p * x - x)) vx)
               (bitmap_clear_mod_p (st_x7 s) p (wrap64 (p * x + x)) vx)
               primes
    else mk_sieve (st_x5 s) (st_x7 s) primes
  else s.

(** "Mark composites of the rest of root primes in current segment": the loop
    over [p_array] from [start_i], left at the first [p] with
    [(p * p) / 6 > yvx + limit]. *)
Fixpoint mark_root_primes (ps : list Z) (vx y yvx limit : Z) (s : BITMAP * BITMAP)
  : BITMAP * BITMAP :=
  match ps with
  | [] => s
  | p :: ps' =>
      if wrap64 (yvx + limit) <? wrap64 (p * p) / 6 then s
      else
        let (x5, x7) := s in
        mark_root_primes ps' vx y yvx limit
          (bitmap_clear_mod_p x5 p (solve_for_x (-1) p vx y) limit,
           bitmap_clear_mod_p x7 p (solve_for_x 1 p vx y) limit)
  end.

(** "Collect unmarked x values as primes" at index [x]. *)
Definition collect_body (x5 x7 : BITMAP) (yvx x : Z) (primes : PRIMES_OBJ) : PRIMES_OBJ :=
  let primes := if bitmap_get_bit x5 x
                then primes_obj_append primes (iZ (wrap64 (x + yvx)) (-1)) else primes in
  if bitmap_get_bit x7 x
  then primes_obj_append primes (iZ (wrap64 (x + yvx)) 1) else primes.

(** The state the segment loop carries: the list, [limit] and [yvx]. *)
Record segment_state := mk_seg { seg_primes : PRIMES_OBJ; seg_limit : Z; seg_yvx : Z }.

Definition sieve_iZm_segment (base_x5 base_x7 : BITMAP) (vx x_n max_y start_i y : Z)
  (s : segment_state) : segment_state :=
  let x5 := bitmap_clone base_x5 in
  let x7 := bitmap_clone base_x7 in
  let limit := if y =? max_y then x_n mod vx else seg_limit s in
  let yvx := seg_yvx s in
  let primes := seg_primes s in
  let (x5, x7) :=
    mark_root_primes (skipn (Z.to_nat start_i) (p_array primes)) vx y yvx limit (x5, x7) in
  let primes := for_loop 2 (limit + 1) (collect_body x5 x7 yvx) primes in
  mk_seg primes limit (wrap64 (yvx + vx)).

(** sieve_iZm *)
Definition sieve_iZm (n : Z) : option PRIMES_OBJ :=
  if n <? 1000 then sieve_iZ n
  else
    let x_n := wrap64 (n / 6 + 1) in
    let primes := primes_obj_append (primes_obj_append primes_obj_init 2) 3 in
    let vx_limit := 6 in
    let vx := compute_limited_vx x_n vx_limit in
    let (primes, start_i) := append_presieved (firstn 6 s_primes) vx primes 2 in
    let (base_x5, base_x7) :=
      construct_iZm_segment vx (bitmap_create (vx + 10)) (bitmap_create (vx + 10)) in
    let s := for_loop 2 (vx + 1) (sieve_iZm_first_body vx)
               (mk_sieve (bitmap_clone base_x5) (bitmap_clone base_x7) primes) in
    let max_y := x_n / vx in
    let seg := for_loop 1 (max_y + 1)
                 (sieve_iZm_segment base_x5 base_x7 vx x_n max_y start_i)
                 (mk_seg (st_primes s) vx vx) in
    Some (drop_overshoot n (seg_primes seg)).

(** ** Gap list and base-segment assets (include/vx_obj.h, src/modules/vx_obj.c) *)

Definition VX6 : Z := 5 * 7 * 11 * 13 * 17 * 19.
Definition TEST_ROUNDS : Z := 25.

(** The value of a decimal digit. *)
Definition digit_of_ascii (c : Ascii.ascii) : option Z :=
  let n := Z.of_N (Ascii.N_of_ascii c) in
  if (48 <=? n) && (n <=? 57) then Some (n - 48) else None.

Fixpoint parse_digits (s : String.string) (acc : Z) : option Z :=
  match s with
  | String.EmptyString => Some acc
  | String.String c s' =>
      match digit_of_ascii c with
      | Some d => parse_digits s' (10 * acc + d)
      | None => None
      end
  end.

(** Modelled from the spec: is_numeric_str of the missing utils.c, a "numeric
    string", the ASCII-decimal [y]. *)
Definition is_numeric_str (s : String.string) : bool :=
  match s with
  | String.EmptyString => false
  | _ => match parse_digits s 0 with Some _ => true | None => false end
  end.

(** mpz_set_str in base 10 on a string of digits; the mpz_t keeps the 0 of
    mpz_init otherwise. *)
Definition mpz_set_str (s : String.string) : Z :=
  match parse_digits s 0 with Some v => v | None => 0 end.

(** The strings the slabs 0 and 1 are named by. *)
Module SlabIndex.
Import String.
Local Open Scope string_scope.
Definition y_0 : string := "0".
Definition y_1 : string := "1".
End SlabIndex.

Module VxObj.

(** [p_gaps] holds the [p_count] live [uint16_t] cells, in order.  The two
    performance counters of the C struct are left out. *)
Record VX_OBJ := mk { vx : Z; y : String.string; p_gaps : list Z }.

Definition p_count (o : VX_OBJ) : Z := Z.of_nat (length (p_gaps o)).

(** vx_init: [None] is the NULL result for a [y] that is not numeric. *)
Definition vx_init (vx : Z) (y : String.string) : option VX_OBJ :=
  if is_numeric_str y then Some (mk vx y []) else None.

(** vx_append_p_gap: the [int] gap goes into a [uint16_t] cell. *)
Definition vx_append_p_gap (o : VX_OBJ) (gap : Z) : VX_OBJ :=
  mk (vx o) (y o) (p_gaps o ++ [wrap16 gap]).

(** The bytes vx_write_file writes for the gaps: [GAP_SIZE] bytes a cell. *)
Definition gap_bytes (o : VX_OBJ) : list byte := flat_map (le_bytes 2) (p_gaps o).

End VxObj.
Import VxObj.

(** [root_primes] is [None] when sieve_iZ returned NULL. *)
Record VX_ASSETS := mk_assets {
  assets_vx : Z;
  root_primes : option PRIMES_OBJ;
  base_x5 : BITMAP;
  base_x7 : BITMAP }.

(** vx_assets_init *)
Definition vx_assets_init (vx : Z) : VX_ASSETS :=
  let (x5, x7) := construct_iZm_segment vx (bitmap_create (vx + 10)) (bitmap_create (vx + 10)) in
  mk_assets vx (sieve_iZ vx) x5 x7.

(** ** Code that asks the probabilistic primality test of GMP

    [mpz_probab_prime_p n reps] is 0 when [n] is found composite, 1 or 2
    otherwise. *)

Section WithPrimalityTest.

Variable mpz_probab_prime_p : Z -> Z -> Z.

(** *** sieve_vx (src/algorithms/sieve_iZ.c) *)

(** "Deterministic Sieve": the loop over the root primes from index 2, with
    its [continue] and its [break]. *)
Fixpoint vx_mark_root_primes (ps : list Z) (vx y root_limit : Z) (is_large_limit : bool)
  (s : BITMAP * BITMAP) : BITMAP * BITMAP :=
  match ps with
  | [] => s
  | p :: ps' =>
      if Z.rem vx p =? 0 then vx_mark_root_primes ps' vx y root_limit is_large_limit s
      else if negb is_large_limit && (root_limit <? p) then s
      else
        let (x5, x7) := s in
        vx_mark_root_primes ps' vx y root_limit is_large_limit
          (bitmap_clear_mod_p x5 p (solve_for_x_gmp (-1) p vx y) vx,
           bitmap_clear_mod_p x7 p (solve_for_x_gmp 1 p vx y) vx)
  end.

(** What the emission loop does with the candidate of matrix [i] at [x]. *)
Definition vx_emit_one (bits : BITMAP) (yvx : Z) (is_large_limit : bool) (i x : Z)
  (s : Z * VX_OBJ) : Z * VX_OBJ :=
  let (gap, o) := s in
  if bitmap_get_bit bits x then
    let is_prime :=
      if is_large_limit
      then negb (mpz_probab_prime_p (iZ_gmp (yvx + x) i) 25 =? 0)
      else true in
    if is_prime then (0, vx_append_p_gap o gap) else (gap, o)
  else (gap, o).

(** The body of "Collect prime gaps in the segment" at [x]; the state is the
    gap counter and the gap list. *)
Definition vx_emit_body (x5 x7 : BITMAP) (yvx : Z) (is_large_limit : bool) (x : Z)
  (s : Z * VX_OBJ) : Z * VX_OBJ :=
  let s := (fst s + 4, snd s) in
  let s := vx_emit_one x5 yvx is_large_limit (-1) x s in
  let s := (fst s + 2, snd s) in
  vx_emit_one x7 yvx is_large_limit 1 x s.

(** The working bitmaps of sieve_vx after the deterministic sieve. *)
Definition vx_working_bitmaps (vx y : Z) (roots : list Z) (a : VX_ASSETS) : BITMAP * BITMAP :=
  let root_limit := Z.sqrt (iZ_gmp (y * vx + vx) 1) in
  let is_large_limit := vx <? root_limit in
  vx_mark_root_primes (skipn 2 roots) vx y root_limit is_large_limit
    (bitmap_clone (base_x5 a), bitmap_clone (base_x7 a)).

(** sieve_vx: the gap list the code builds, cells permitting; [None] stands
    for the fault of reading a NULL [root_primes]. *)
Definition sieve_vx (vx_obj : VX_OBJ) (vx_assets : VX_ASSETS) : option VX_OBJ :=
  match root_primes vx_assets with
  | None => None
  | Some roots =>
      let vx := vx vx_obj in
      let y := mpz_set_str (y vx_obj) in
      let yvx := y * vx in
      let root_limit := Z.sqrt (iZ_gmp (yvx + vx) 1) in
      let is_large_limit := vx <? root_limit in
      let (x5, x7) := vx_working_bitmaps vx y (p_array roots) vx_assets in
      Some (snd (for_loop 1 (vx + 1) (vx_emit_body x5 x7 yvx is_large_limit) (0, vx_obj)))
  end.

(** What a run of sieve_vx on an object of vx_init comes to. *)
Inductive vx_run : Type :=
| VxDone (o : VX_OBJ)   (* the gap list is complete *)
| VxPastCells           (* a gap was written past the cells of vx_init *)
| VxNullRoots.          (* [root_primes] is NULL *)

(** sieve_vx on the [vx / 2] cells that vx_init allocates: every append adds
    one cell, so a gap is written past them exactly when the list ends up
    longer than [vx / 2]. *)
Definition sieve_vx_in_cells (vx_obj : VX_OBJ) (vx_assets : VX_ASSETS) : vx_run :=
  match sieve_vx vx_obj vx_assets with
  | None => VxNullRoots
  | Some o' => if VxObj.p_count o' <=? vx vx_obj / 2 then VxDone o' else VxPastCells
  end.

(** *** search_iZprime (src/algorithms/prime_gen.c)

    [x0] is the draw of mpz_urandomm in [0, vx). *)

(** "search for x value that doesn't correspond to a composite of a prime that
    divides vx": [while (1)] with its [break]. *)
Fixpoint search_coprime_loop (fuel : nat) (vx tmp : Z) : outcome Z :=
  match fuel with
  | O => NoFuel
  | S fuel' =>
      let tmp := tmp + 6 in
      if Z.gcd vx tmp =? 1 then Ret tmp else search_coprime_loop fuel' vx tmp
  end.

Definition attempts_limit : Z := 1000000.

(** The state of the candidate loop. *)
Record search_state := mk_search {
  s_tmp : Z; s_found : Z; s_attempts : Z; s_p : option Z }.

(** One turn of [while (!found && attempts < attempts_limit)]. *)
Definition search_step (vx : Z) (s : search_state) : search_state :=
  let tmp := s_tmp s + vx in
  let found := mpz_probab_prime_p tmp TEST_ROUNDS in
  mk_search tmp found (s_attempts s) (if found =? 0 then s_p s else Some tmp).

Definition search_guard (s : search_state) : bool :=
  (s_found s =? 0) && (s_attempts s <? attempts_limit).

Fixpoint search_loop (fuel : nat) (vx : Z) (s : search_state) : outcome search_state :=
  if search_guard s then
    match fuel with
    | O => NoFuel
    | S fuel' => search_loop fuel' vx (search_step vx s)
    end
  else Ret s.

(** The two [assert]s of iZ_gmp: i is -1 or 1, and x is greater than 0. *)
Definition iZ_gmp_asserts (x i : Z) : bool :=
  ((i =? -1) || (i =? 1)) && (0 <? x).

(** search_iZprime: the value returned and what [p] holds.  The draw [x0] of
    mpz_urandomm goes to iZ_gmp, which aborts on x0 = 0. *)
Definition search_iZprime (fuel : nat) (x0 p_id vx : Z) : outcome (Z * option Z) :=
  if iZ_gmp_asserts x0 p_id then
    match search_coprime_loop fuel vx (iZ_gmp x0 p_id) with
    | Ret tmp =>
        match search_loop fuel vx (mk_search tmp 0 0 None) with
        | Ret s => Ret (s_found s, s_p s)
        | Fault => Fault
        | NoFuel => NoFuel
        end
    | Fault => Fault
    | NoFuel => NoFuel
    end
  else Fault.

(** *** iZ_next_prime (src/algorithms/prime_gen.c) *)

(** The state of the scan: [found] and [tmp]. *)
Definition scan_state : Type := Z * Z.

(** The test of the candidate of matrix [i] at [x], when its bit is set. *)
Definition scan_one (bits : BITMAP) (yvx i x : Z) (s : scan_state) : scan_state :=
  if bitmap_get_bit bits x then
    let tmp := iZ_gmp (yvx + x) i in
    (mpz_probab_prime_p tmp TEST_ROUNDS, tmp)
  else s.

(** [for (x = start_x; x < end_x; x++)] of the forward search, [k] turns left,
    with its two [break]s. *)
Fixpoint scan_forward (k : nat) (x5 x7 : BITMAP) (yvx x : Z) (s : scan_state) : scan_state :=
  match k with
  | O => s
  | S k' =>
      let s := scan_one x5 yvx (-1) x s in
      if negb (fst s =? 0) then s
      else
        let s := scan_one x7 yvx 1 x s in
        if negb (fst s =? 0) then s
        else scan_forward k' x5 x7 yvx (x + 1) s
  end.

(** [for (x = start_x; x > end_x; x--)] of the backward search. *)
Fixpoint scan_backward (k : nat) (x5 x7 : BITMAP) (yvx x : Z) (s : scan_state) : scan_state :=
  match k with
  | O => s
  | S k' =>
      let s := scan_one x7 yvx 1 x s in
      if negb (fst s =? 0) then s
      else
        let s := scan_one x5 yvx (-1) x s in
        if negb (fst s =? 0) then s
        else scan_backward k' x5 x7 yvx (x - 1) s
  end.

(** [while (!found && i < max_i)], [k] segments left. *)
Fixpoint segments_loop (k : nat) (forward : bool) (x5 x7 : BITMAP) (vx i start_x yvx : Z)
  (s : scan_state) : scan_state :=
  if fst s =? 0 then
    match k with
    | O => s
    | S k' =>
        if forward then
          let start_x := if 0 <? i then 1 else start_x in
          let s := scan_forward (Z.to_nat (vx + 1 - start_x)) x5 x7 yvx start_x s in
          segments_loop k' forward x5 x7 vx (i + 1) start_x (yvx + vx) s
        else
          let start_x := if 0 <? i then vx else start_x in
          let s := scan_backward (Z.to_nat (start_x - 1)) x5 x7 yvx start_x s in
          segments_loop k' forward x5 x7 vx (i + 1) start_x (yvx - vx) s
    end
  else s.

(** iZ_next_prime: [Some p] when it returns 1 with [p] set, [None] when it
    returns 0. *)
Definition iZ_next_prime (base : Z) (forward : bool) : option Z :=
  let vx := 5 * 7 * 11 * 13 in
  let edge :=
    if (base mod 6 =? 5) && forward then Some (base + 2)
    else if (base mod 6 =? 1) && negb forward then Some (base - 2)
    else None in
  let tmp := match edge with Some t => t | None => base end in
  let edge_hit :=
    match edge with
    | Some t => negb (mpz_probab_prime_p t TEST_ROUNDS =? 0)
    | None => false
    end in
  if edge_hit then Some tmp
  else
    let (x5, x7) := construct_iZm_segment vx (bitmap_create (vx + 10)) (bitmap_create (vx + 10)) in
    let y := base / (6 * vx) in
    let yvx := y * vx in
    let x_p := tmp / 6 in
    let step := if forward then 1 else -1 in
    let start_x := x_p mod vx + step in
    let s := segments_loop 1000 forward x5 x7 vx 0 start_x yvx (0, tmp) in
    if fst s =? 0 then None else Some (snd s).

End WithPrimalityTest.

(** A primality test by trial division, an answer mpz_probab_prime_p can give:
    2 on a prime, 0 on anything else. *)
Fixpoint no_divisor_from (k : nat) (d n : Z) : bool :=
  match k with
  | O => true
  | S k' => if n <? d * d then true
            else if n mod d =? 0 then false
            else no_divisor_from k' (d + 1) n
  end.

Definition is_prime_b (n : Z) : bool :=
  (2 <=? n) && no_divisor_from (Z.to_nat (Z.sqrt n)) 2 n.

Definition exact_primality_test (n reps : Z) : Z := if is_prime_b n then 2 else 0.

(** ** Predicates of the proofs *)

(** The candidate after [6 x + i] in the order the loop of sieve_iZ visits
    them. *)
Definition next_candidate (x i : Z) : Z := if i =? 1 then 6 * (x + 1) - 1 else 6 * x + 1.

(** What holds in the main loop of sieve_iZ when the candidate [c] is the
    next to visit: the list holds 2, 3 and the candidates below [c] that were
    appended, in order; no bit of a prime is clear; the bit of a multiple of a
    prime [q < c] from [q * q] on is clear. *)
Record sieve_iZ_inv (n x_n c : Z) (s : sieve_state) : Prop := mk_inv {
  inv_head : exists l, p_array (st_primes s) = 2 :: 3 :: l;
  inv_below : Forall (fun p => p < c /\ p <= n + 1) (p_array (st_primes s));
  inv_sound : Forall (fun p => p <= n -> Z.prime p) (p_array (st_primes s));
  inv_sorted : StronglySorted Z.lt (p_array (st_primes s));
  inv_complete : forall q, Z.prime q -> q < c -> In q (p_array (st_primes s));
  inv_x5_primes : forall j, 1 <= j < x_n -> Z.prime (6 * j - 1) ->
                            bitmap_get_bit (st_x5 s) j = true;
  inv_x7_primes : forall j, 1 <= j < x_n -> Z.prime (6 * j + 1) ->
                            bitmap_get_bit (st_x7 s) j = true;
  inv_x5_marked : forall j q, 1 <= j < x_n -> Z.prime q -> q < c ->
                              q * q <= 6 * j - 1 -> (q | 6 * j - 1) ->
                              bitmap_get_bit (st_x5 s) j = false;
  inv_x7_marked : forall j q, 1 <= j < x_n -> 6 * j + 1 <= n -> Z.prime q -> q < c ->
                              q * q <= 6 * j + 1 -> (q | 6 * j + 1) ->
                              bitmap_get_bit (st_x7 s) j = false }.


(** The running sums of the gaps from [base]. *)
Fixpoint prefix_sums (base : Z) (gaps : list Z) : list Z :=
  match gaps with
  | [] => []
  | g :: gs => (base + g) :: prefix_sums (base + g) gs
  end.

(** The gaps between the successive values of a walk from [base]. *)
Fixpoint gaps_from (base : Z) (cs : list Z) : list Z :=
  match cs with
  | [] => []
  | c :: cs' => (c - base) :: gaps_from c cs'
  end.

(** What is known of a value the emission loop of sieve_vx emitted: it is the
    candidate of a set bit of the slab and, in large mode, the test accepted
    it. *)
Definition emitted_ok (test : Z -> Z -> Z) (x5 x7 : BITMAP) (yvx vx : Z) (large : bool)
  (c : Z) : Prop :=
  exists x i, 1 <= x <= vx /\ (i = 1 \/ i = -1) /\ c = iZ_gmp (yvx + x) i /\
    bitmap_get_bit (if i =? 1 then x7 else x5) x = true /\
    (large = true -> test c 25 <> 0).

(** The emission loop at the position [cur] of the walk: the cells hold the
    gaps of the values emitted so far, reduced modulo 2^16, and the counter
    holds the distance from the last of them. *)
Definition emit_inv (test : Z -> Z -> Z) (x5 x7 : BITMAP) (yvx vx : Z) (large : bool)
  (cur : Z) (s : Z * VX_OBJ) : Prop :=
  exists cands,
    p_gaps (snd s) = map wrap16 (gaps_from (iZ_gmp yvx 1) cands) /\
    Forall (fun g => 0 < g /\ Z.even g = true) (gaps_from (iZ_gmp yvx 1) cands) /\
    StronglySorted Z.lt (iZ_gmp yvx 1 :: cands) /\
    last cands (iZ_gmp yvx 1) = cur - fst s /\
    0 <= fst s /\ Z.even (fst s) = true /\
    Forall (emitted_ok test x5 x7 yvx vx large) cands.

(** The emission loop before [x] when a bit is known to be set at [k]:
    either nothing was emitted, or the first gap is there. *)
Definition first_gap_inv (k x : Z) (s : Z * VX_OBJ) : Prop :=
  (x <= k /\ p_gaps (snd s) = [] /\ fst s = 6 * (x - 1)) \/
  (exists g rest, p_gaps (snd s) = g :: rest /\ 22 <= g <= 6 * k - 2).

(** A buffer with the byte at index [i] replaced by [b]. *)
Definition alter_byte (i : nat) (b : byte) (l : list byte) : list byte :=
  firstn i l ++ b :: skipn (S i) l.

(** The product of the first [k] primes of the table of compute_limited_vx:
    35, 385, 5005, 85085, 1616615, ... *)
Definition vx_of (k : nat) : Z := fold_right Z.mul 1 (firstn k s_primes).

(** What holds in the loop of classic_sieve_eratosthenes before [p]: the list
    holds the primes below [p] in order, no bit of a prime is clear, and the
    bit of a multiple of a prime [q < p] from [q * q] on is clear. *)
Record classic_inv (n p : Z) (s : BITMAP * PRIMES_OBJ) : Prop := mk_classic_inv {
  cl_sorted : StronglySorted Z.lt (p_array (snd s));
  cl_members : forall q, In q (p_array (snd s)) <-> Z.prime q /\ q < p;
  cl_primes : forall j, 2 <= j <= n -> Z.prime j -> bitmap_get_bit (fst s) j = true;
  cl_marked : forall j q, 2 <= j <= n -> Z.prime q -> q < p -> q * q <= j -> (q | j) ->
                          bitmap_get_bit (fst s) j = false }.

(** The loop body of sieve_eratosthenes (src/algorithms/sieve.c) at the odd
    [p]: the stride of the marking is [2 * p]. *)
Definition odd_sieve_body (n n_sqrt p : Z) (s : BITMAP * PRIMES_OBJ) : BITMAP * PRIMES_OBJ :=
  let (n_bits, primes) := s in
  if bitmap_get_bit n_bits p then
    let primes := primes_obj_append primes p in
    if p <=? n_sqrt
    then (bitmap_clear_mod_p n_bits (wrap64 (2 * p)) (wrap64 (p * p)) (n + 1), primes)
    else (n_bits, primes)
  else s.

(** sieve_eratosthenes: [for (p = 3; p <= n; p += 2)] is the loop over
    [k = 1 .. (n - 1) / 2] with [p = 2 k + 1]. *)
Definition sieve_eratosthenes (n : Z) : option PRIMES_OBJ :=
  if n <? 10 then None
  else
    let n_bits := bitmap_set_all (bitmap_create (n + 1)) in
    let n_sqrt := Z.sqrt n in
    let primes := primes_obj_append primes_obj_init 2 in
    Some (snd (for_loop 1 ((n - 1) / 2 + 1)
                 (fun k => odd_sieve_body n n_sqrt (2 * k + 1)) (n_bits, primes))).

(** What holds in the loop of sieve_eratosthenes before the odd [p]: the list
    holds the primes below [p] in order, no bit of an odd prime is clear, and
    the bit of an odd multiple of an odd prime [q < p] from [q * q] on is
    clear. *)
Record odd_sieve_inv (n p : Z) (s : BITMAP * PRIMES_OBJ) : Prop := mk_odd_sieve_inv {
  od_sorted : StronglySorted Z.lt (p_array (snd s));
  od_members : forall q, In q (p_array (snd s)) <-> Z.prime q /\ q < p;
  od_primes : forall j, 3 <= j <= n -> Z.prime j -> bitmap_get_bit (fst s) j = true;
  od_marked : forall j q, 3 <= j <= n -> Z.odd j = true -> Z.prime q -> 3 <= q < p ->
                          q * q <= j -> (q | j) -> bitmap_get_bit (fst s) j = false }.

(** The value of [current_size] when the loop of construct_iZm_segment ends. *)
Fixpoint iZm_segment_size (ps : list Z) (vx current_size : Z) : Z :=
  match ps with
  | [] => current_size
  | p :: ps' =>
      if vx mod p =? 0 then iZm_segment_size ps' vx (wrap64 (current_size * p))
      else current_size
  end.

(** A pair of base bitmaps pre-sieved for the primes of [cs]: on the indices
    1..cs a bit is set exactly when its candidate is coprime to [cs]. *)
Definition base_ok (cs : Z) (s : BITMAP * BITMAP) : Prop :=
  forall i, 1 <= i <= cs ->
    (bitmap_get_bit (fst s) i = true <-> Z.gcd (6 * i - 1) cs = 1) /\
    (bitmap_get_bit (snd s) i = true <-> Z.gcd (6 * i + 1) cs = 1).

(** Successive primes: each one is the next prime after the one before, [b]
    for the first. *)
Fixpoint prime_chain (b : Z) (ps : list Z) : Prop :=
  match ps with
  | [] => True
  | p :: ps' =>
      Z.prime p /\ b < p /\ (forall q, Z.prime q -> b < q <= p -> q = p) /\ prime_chain p ps'
  end.

(** The value the emission loop of sieve_vx keeps at the bit [x] of the
    matrix [i]: the candidate of a set bit that, in large mode, the test
    accepts. *)
Definition vx_keep (test : Z -> Z -> Z) (bits : BITMAP) (yvx : Z) (large : bool) (i x : Z)
  : list Z :=
  if bitmap_get_bit bits x &&
     (if large then negb (test (iZ_gmp (yvx + x) i) 25 =? 0) else true)
  then [iZ_gmp (yvx + x) i] else [].

(** The values kept at the indices [1 .. hi - 1], in the order of the loop. *)
Definition slab_walk (test : Z -> Z -> Z) (x5 x7 : BITMAP) (yvx : Z) (large : bool) (hi : Z)
  : list Z :=
  for_loop 1 hi
    (fun x acc => acc ++ vx_keep test x5 yvx large (-1) x ++ vx_keep test x7 yvx large 1 x) [].

(** The strings that name the slabs 49 and 10000. *)
Module SlabNames.
Import String.
Local Open Scope string_scope.
Definition y_49 : string := "49".
End SlabNames.

(** What is known of the state of the scan of iZ_next_prime: nothing was
    found, or the value found is one the test accepted, not below [lo]. *)
Definition scan_good (test : Z -> Z -> Z) (lo : Z) (s : scan_state) : Prop :=
  fst s = 0 \/ (test (snd s) TEST_ROUNDS = fst s /\ lo <= snd s).

(** The conversion of a value to [int], modulo 2^32 as the compilers the
    library targets do it. *)
Definition to_int (z : Z) : Z := (z + 2 ^ 31) mod 2 ^ 32 - 2 ^ 31.

(** solve_for_y (src/iZ.c): [vx % p] faults on p = 0; the no-solution result
    -1 is 2^64 - 1 in [uint64_t]; [delta] and [vx_inv] are [int]s, the
    difference [x_p - x] and the final remainder are taken in [uint64_t]; the
    [int] product [delta * vx_inv] is the exact one. *)
Definition solve_for_y (matrix_id p vx x : Z) : outcome Z :=
  if p =? 0 then Fault
  else if vx mod p =? 0 then Ret (wrap64 (-1))
  else
    let x_p := normalized_x_p matrix_id p in
    if x mod p =? x_p then Ret 0
    else
      let delta := to_int (wrap64 (x_p - x) mod p) in
      let delta := if delta <? 0 then to_int (wrap64 (wrap64 delta + p)) else delta in
      match modular_inverse (to_int vx) (to_int p) with
      | Ret vx_inv => Ret (wrap64 (delta * vx_inv) mod p)
      | Fault => Fault
      | NoFuel => NoFuel
      end.

(** The inner loop of sieve_euler (src/algorithms/sieve.c) at [i], over the
    cells p_array[1], p_array[2], ... of the prime list; the product [p * i]
    is a [uint64_t]. *)
Fixpoint euler_mark (ps : list Z) (n i : Z) (n_bits : BITMAP) : BITMAP :=
  match ps with
  | [] => n_bits
  | p :: ps' =>
      if n <? wrap64 (p * i) then n_bits
      else
        let n_bits := bitmap_clear_bit n_bits (wrap64 (p * i)) in
        if i mod p =? 0 then n_bits else euler_mark ps' n i n_bits
  end.

(** The loop body of sieve_euler at the odd [i]. *)
Definition euler_body (n i : Z) (s : BITMAP * PRIMES_OBJ) : BITMAP * PRIMES_OBJ :=
  let (n_bits, primes) := s in
  let primes := if bitmap_get_bit n_bits i then primes_obj_append primes i else primes in
  (euler_mark (tl (p_array primes)) n i n_bits, primes).

(** sieve_euler: [for (i = 3; i <= n; i += 2)] is the loop over
    [k = 1 .. (n - 1) / 2] with [i = 2 k + 1]. *)
Definition sieve_euler (n : Z) : option PRIMES_OBJ :=
  if n <? 10 then None
  else
    let n_bits := bitmap_set_all (bitmap_create (n + 1)) in
    let primes := primes_obj_append primes_obj_init 2 in
    Some (snd (for_loop 1 ((n - 1) / 2 + 1)
                 (fun k => euler_body n (2 * k + 1)) (n_bits, primes))).

(** What holds in the loop of sieve_euler before the odd [i]: the list holds
    2 and then the odd primes below [i] in order, no bit of an odd prime is
    clear, and the bit of [q * m] is clear for every odd [m] below [i] and
    every odd prime [q] that no smaller odd prime dividing [m] precedes. *)
Record euler_inv (n i : Z) (s : BITMAP * PRIMES_OBJ) : Prop := mk_euler_inv {
  eu_sorted : StronglySorted Z.lt (p_array (snd s));
  eu_head : exists rest, p_array (snd s) = 2 :: rest;
  eu_members : forall q, In q (p_array (snd s)) <-> Z.prime q /\ q < i;
  eu_primes : forall j, 3 <= j <= n -> Z.prime j -> bitmap_get_bit (fst s) j = true;
  eu_marked : forall q m, Z.prime q -> 3 <= q -> 3 <= m < i -> Z.odd m = true ->
                          q * m <= n ->
                          (forall r, Z.prime r -> 3 <= r < q -> ~ (r | m)) ->
                          bitmap_get_bit (fst s) (q * m) = false }.

(** [for (j = start; j <= hi; j += step) s = body j s] for a positive [step]:
    the loop over the [(hi - start) / step + 1] values of [j]. *)
Definition stride_loop {S : Type} (start hi step : Z) (body : Z -> S -> S) (s : S) : S :=
  if start <=? hi
  then for_loop 0 ((hi - start) / step + 1) (fun t => body (start + t * step)) s
  else s.

(** Step 1 of segmented_sieve (src/algorithms/sieve.c): the body at the odd
    [p] over the bits up to [segment_size]. *)
Definition seg_small_body (segment_size p : Z) (s : BITMAP * PRIMES_OBJ) : BITMAP * PRIMES_OBJ :=
  let (n_bits, primes) := s in
  if bitmap_get_bit n_bits p then
    let primes := primes_obj_append primes p in
    (stride_loop (wrap64 (p * p)) segment_size (wrap64 (2 * p))
       (fun multiple b => bitmap_clear_bit b multiple) n_bits, primes)
  else s.

(** The marking of [j] in the segment that starts at [low]. *)
Definition seg_clear (low j : Z) (b : BITMAP) : BITMAP :=
  if j mod 2 =? 0 then b else bitmap_clear_bit b (j - low).

(** The sieving of the segment [low, high] with the primes found so far. *)
Fixpoint seg_mark (ps : list Z) (low high : Z) (n_bits : BITMAP) : BITMAP :=
  match ps with
  | [] => n_bits
  | p :: ps' =>
      if high <? wrap64 (p * p) then n_bits
      else
        let start := wrap64 (low / p * p) in
        let start := if start <? low then wrap64 (start + p) else start in
        let start := if start <? wrap64 (p * p) then wrap64 (p * p) else start in
        seg_mark ps' low high (stride_loop start high p (seg_clear low) n_bits)
  end.

(** The collection of the primes of the segment, at [i]. *)
Definition seg_collect (n_bits : BITMAP) (low i : Z) (primes : PRIMES_OBJ) : PRIMES_OBJ :=
  if i mod 2 =? 0 then primes
  else if bitmap_get_bit n_bits (i - low) then primes_obj_append primes i
  else primes.

(** [while (low <= n)] of segmented_sieve. *)
Fixpoint seg_loop (fuel : nat) (n segment_size low high : Z) (n_bits : BITMAP)
    (primes : PRIMES_OBJ) : outcome PRIMES_OBJ :=
  match fuel with
  | O => NoFuel
  | Datatypes.S fuel' =>
      if low <=? n then
        let n_bits := bitmap_set_all n_bits in
        let n_bits := seg_mark (p_array primes) low high n_bits in
        let primes := for_loop low (high + 1) (seg_collect n_bits low) primes in
        let low := high + 1 in
        let high := low + segment_size - 1 in
        let high := if n <? high then n else high in
        seg_loop fuel' n segment_size low high n_bits primes
      else Ret primes
  end.

(** segmented_sieve; every turn of the segment loop moves [low] up, so [n]
    turns are enough. *)
Definition segmented_sieve (n : Z) : outcome (option PRIMES_OBJ) :=
  if n <? 1000 then Ret (sieve_eratosthenes n)
  else
    let segment_size := Z.sqrt n in
    let n_bits := bitmap_set_all (bitmap_create (segment_size + 1)) in
    let primes := primes_obj_append primes_obj_init 2 in
    let s := for_loop 1 ((segment_size - 1) / 2 + 1)
               (fun k => seg_small_body segment_size (2 * k + 1)) (n_bits, primes) in
    let low := segment_size + 1 in
    let high := low + segment_size - 1 in
    let high := if n <? high then n else high in
    match seg_loop (Z.to_nat n) n segment_size low high (fst s) (snd s) with
    | Ret primes => Ret (Some primes)
    | Fault => Fault
    | NoFuel => NoFuel
    end.

(** The list holds the primes below [low], in order. *)
Definition primes_below (low : Z) (primes : PRIMES_OBJ) : Prop :=
  StronglySorted Z.lt (p_array primes) /\
  forall q, In q (p_array primes) <-> Z.prime q /\ q < low.

(** mpz_sizeinbase(z, 2): the number of bits of [z], 1 for 0. *)
Definition mpz_sizeinbase_2 (z : Z) : Z := if z =? 0 then 1 else Z.log2 (Z.abs z) + 1.

(** The loop of compute_max_vx_gmp (src/iZ.c) over the cells after
    p_array[i], [last] being p_array[i]; [None] when the loop reads past the
    last cell of the list. *)
Fixpoint max_vx_loop (rest : list Z) (vx last bit_size : Z) : option Z :=
  if mpz_sizeinbase_2 vx <? bit_size then
    match rest with
    | [] => None
    | p :: rest' => max_vx_loop rest' (vx * p) p bit_size
    end
  else Some (vx / last).

(** compute_max_vx_gmp: [bit_size] is compared as a [size_t]. *)
Definition compute_max_vx_gmp (bit_size : Z) : option Z :=
  match sieve_iZ 10000 with
  | None => None
  | Some primes =>
      match skipn 2 (p_array primes) with
      | [] => None
      | p :: rest => max_vx_loop rest p p (wrap64 bit_size)
      end
  end.

(** The product of the cells of a list. *)
Definition list_product (l : list Z) : Z := fold_right Z.mul 1 l.

(** The sum of the binary logarithms of the cells of a list. *)
Definition sum_log2 (l : list Z) : Z := fold_right (fun p acc => Z.log2 p + acc) 0 l.

(** The loop of sieve_vx_root_primes (src/algorithms/sieve_iZ.c) over the
    cells from p_array[2] on; the cell is read into an [int], and a zero [p]
    makes [vx % p] fault. *)
Fixpoint sieve_vx_root_primes_loop (ps : list Z) (vx y : Z) (s : BITMAP * BITMAP)
    : outcome (BITMAP * BITMAP) :=
  match ps with
  | [] => Ret s
  | c :: ps' =>
      let p := to_int c in
      if p =? 0 then Fault
      else if Z.rem vx p =? 0 then sieve_vx_root_primes_loop ps' vx y s
      else
        sieve_vx_root_primes_loop ps' vx y
          (bitmap_clear_mod_p (fst s) p (solve_for_x_gmp (-1) (wrap64 p) vx y) vx,
           bitmap_clear_mod_p (snd s) p (solve_for_x_gmp 1 (wrap64 p) vx y) vx)
  end.

(** sieve_vx_root_primes *)
Definition sieve_vx_root_primes (vx y : Z) (root_primes : PRIMES_OBJ) (x5 x7 : BITMAP)
    : outcome (BITMAP * BITMAP) :=
  sieve_vx_root_primes_loop (skipn 2 (p_array root_primes)) vx y (x5, x7).

(** What is known of the state of the backward scan of iZ_next_prime: nothing
    was found, or the value found is one the test accepted, not above [hi]. *)
Definition scan_good_below (test : Z -> Z -> Z) (hi : Z) (s : scan_state) : Prop :=
  fst s = 0 \/ (test (snd s) TEST_ROUNDS = fst s /\ snd s <= hi).

(** The values the loop of modular_inverse computes, in the order it computes
    them: at each turn [q], [a % m], [q * x0] and [x1 - q * x0]. *)
Fixpoint modular_inverse_values (fuel : nat) (a m x0 x1 : Z) : list Z :=
  if 1 <? a then
    match fuel with
    | O => []
    | S fuel' =>
        if m =? 0 then []
        else
          let q := Z.quot a m in
          q :: Z.rem a m :: q * x0 :: x1 - q * x0
            :: modular_inverse_values fuel' m (Z.rem a m) (x1 - q * x0) x0
    end
  else [].

(** * Properties *)

(** ** Loops *)

Lemma for_range_ind {S : Type} (P : Z -> S -> Prop) (body : Z -> S -> S) (k : nat) :
  forall x s,
    P x s ->
    (forall i t, x <= i < x + Z.of_nat k -> P i t -> P (i + 1) (body i t)) ->
    P (x + Z.of_nat k) (for_range k x body s).
Proof.
  induction k as [|k IH]; intros x s H0 Hstep.
  - rewrite Z.add_0_r. exact H0.
  - cbn [for_range]. rewrite Nat2Z.inj_succ.
    replace (x + Z.succ (Z.of_nat k)) with (x + 1 + Z.of_nat k) by lia.
    apply IH.
    + apply Hstep; [lia|exact H0].
    + intros i t Hi. apply Hstep. lia.
Qed.

Lemma for_loop_ind {S : Type} (P : Z -> S -> Prop) (body : Z -> S -> S) (lo hi : Z) (s : S) :
  lo <= hi ->
  P lo s ->
  (forall i t, lo <= i < hi -> P i t -> P (i + 1) (body i t)) ->
  P hi (for_loop lo hi body s).
Proof.
  intros Hle H0 Hstep. unfold for_loop.
  replace hi with (lo + Z.of_nat (Z.to_nat (hi - lo))) at 1 by lia.
  apply for_range_ind; [exact H0|].
  intros i t Hi. apply Hstep. lia.
Qed.

(** ** Bytes *)

Lemma Z_of_byte_range (b : byte) : 0 <= Z_of_byte b < 256.
Proof.
  unfold Z_of_byte. pose proof (Byte.to_N_bounded b) as H.
  split; [apply N2Z.is_nonneg|]. apply N2Z.inj_le in H. simpl in H. lia.
Qed.

Lemma Z_of_byte_of_Z (z : Z) : Z_of_byte (byte_of_Z z) = z mod 256.
Proof.
  unfold Z_of_byte, byte_of_Z.
  pose proof (Z.mod_pos_bound z 256 ltac:(lia)) as Hb.
  destruct (Byte.of_N (Z.to_N (z mod 256))) as [b|] eqn:E.
  - apply Byte.to_of_N in E. rewrite E. rewrite Z2N.id; lia.
  - apply Byte.of_N_None_iff in E. apply N2Z.inj_lt in E.
    rewrite Z2N.id in E by lia. simpl in E. lia.
Qed.

Lemma byte_of_Z_of_byte (b : byte) : byte_of_Z (Z_of_byte b) = b.
Proof.
  unfold byte_of_Z. rewrite Z.mod_small by apply Z_of_byte_range.
  unfold Z_of_byte. rewrite N2Z.id, Byte.of_to_N. reflexivity.
Qed.

Lemma le_bytes_length (k : nat) (v : Z) : length (le_bytes k v) = k.
Proof. revert v; induction k; intros; simpl; auto. Qed.

Lemma le_value_le_bytes (k : nat) (v : Z) :
  le_value (le_bytes k v) = v mod 256 ^ Z.of_nat k.
Proof.
  revert v; induction k as [|k IH]; intros v.
  - simpl. rewrite Z.mod_1_r. reflexivity.
  - cbn [le_bytes le_value]. rewrite IH, Z_of_byte_of_Z.
    rewrite Nat2Z.inj_succ, Z.pow_succ_r by lia.
    rewrite Z.rem_mul_r by (try apply Z.pow_nonzero; lia). lia.
Qed.

Lemma le_value_le_bytes_small (k : nat) (v : Z) :
  0 <= v < 256 ^ Z.of_nat k -> le_value (le_bytes k v) = v.
Proof. intros H. rewrite le_value_le_bytes. apply Z.mod_small, H. Qed.

(** ** The gap cells of the gap list *)

Lemma wrap16_range (g : Z) : 0 <= wrap16 g <= 65535.
Proof. unfold wrap16. pose proof (Z.mod_pos_bound g 65536 ltac:(lia)). lia. Qed.

(** C10: vx_append_p_gap never rejects a gap: it adds one cell, the cell holds
    the accumulated gap reduced modulo 2^16, the two bytes written for the cell
    read back as that value, and the cell is at most 65535. *)
Theorem vx_append_p_gap_mod_2_16 (o : VX_OBJ) (g : Z) :
  p_gaps (vx_append_p_gap o g) = p_gaps o ++ [g mod 65536] /\
  VxObj.p_count (vx_append_p_gap o g) = VxObj.p_count o + 1 /\
  gap_bytes (vx_append_p_gap o g) = gap_bytes o ++ le_bytes 2 (g mod 65536) /\
  le_value (le_bytes 2 (g mod 65536)) = g mod 65536 /\
  0 <= g mod 65536 <= 65535.
Proof.
  repeat split.
  - unfold VxObj.p_count, vx_append_p_gap; simpl.
    rewrite length_app, Nat2Z.inj_add. reflexivity.
  - unfold gap_bytes, vx_append_p_gap; simpl.
    rewrite flat_map_app. cbn [flat_map]. rewrite app_nil_r. reflexivity.
  - apply le_value_le_bytes_small. change (256 ^ Z.of_nat 2) with 65536.
    apply Z.mod_pos_bound. lia.
  - apply (wrap16_range g).
  - apply (wrap16_range g).
Qed.

(** ** search_iZprime *)

Section SearchFacts.

Variable test : Z -> Z -> Z.

(** No turn of the candidate loop changes [attempts]. *)
Lemma search_step_attempts (vx : Z) (s : search_state) :
  s_attempts (search_step test vx s) = s_attempts s.
Proof. reflexivity. Qed.

Lemma search_step_tmp (vx : Z) (s : search_state) :
  s_tmp (search_step test vx s) = s_tmp s + vx.
Proof. reflexivity. Qed.

(** While the test rejects the candidates the loop goes on, however many
    turns it has made. *)
Lemma search_loop_runs_on (fuel : nat) (vx tmp : Z) (p : option Z) :
  (forall j, 1 <= j <= Z.of_nat fuel -> test (tmp + j * vx) TEST_ROUNDS = 0) ->
  search_loop test fuel vx (mk_search tmp 0 0 p) = NoFuel.
Proof.
  revert tmp p. induction fuel as [|fuel IH]; intros tmp p H.
  - reflexivity.
  - cbn [search_loop]. unfold search_guard. cbn [s_found s_attempts].
    change ((0 =? 0) && (0 <? attempts_limit)) with true. cbv iota.
    unfold search_step. cbn [s_tmp s_attempts s_p].
    assert (H1 : test (tmp + vx) TEST_ROUNDS = 0).
    { specialize (H 1). rewrite Z.mul_1_l in H. apply H. lia. }
    rewrite H1. cbn [Z.eqb]. apply IH.
    intros j Hj. replace (tmp + vx + j * vx) with (tmp + (j + 1) * vx) by ring.
    apply H. lia.
Qed.

End SearchFacts.

(** C2 (what the code does instead): the candidate loop of search_iZprime
    tests [attempts < 1000000] but no turn changes [attempts], so the loop is
    still running after any number of rejected candidates and the result 0 is
    never returned. *)
Theorem search_iZprime_cap_not_enforced (test : Z -> Z -> Z) (fuel : nat) (vx tmp : Z) :
  (forall j, 1 <= j <= Z.of_nat fuel -> test (tmp + j * vx) TEST_ROUNDS = 0) ->
  search_loop test fuel vx (mk_search tmp 0 0 None) = NoFuel.
Proof. apply search_loop_runs_on. Qed.

Lemma search_iZprime_cap_not_enforced_witness :
  search_loop (fun _ _ => 0) (Z.to_nat 1000001) 385 (mk_search 19 0 0 None) = NoFuel.
Proof.
  apply (search_iZprime_cap_not_enforced (fun _ _ => 0) (Z.to_nat 1000001) 385 19).
  intros j Hj. reflexivity.
Defined.

(** ** Primality by trial division *)

Lemma no_divisor_from_sound (k : nat) (d n : Z) :
  0 < d ->
  no_divisor_from k d n = true ->
  n < (d + Z.of_nat k) * (d + Z.of_nat k) ->
  forall e, d <= e -> e * e <= n -> ~ (e | n).
Proof.
  revert d. induction k as [|k IH]; intros d Hd Hrun Hk e Hde Hee.
  - rewrite Z.add_0_r in Hk. nia.
  - cbn [no_divisor_from] in Hrun.
    destruct (n <? d * d) eqn:E1; [apply Z.ltb_lt in E1; nia|].
    destruct (n mod d =? 0) eqn:E2; [discriminate|].
    apply Z.eqb_neq in E2.
    destruct (Z.eq_dec e d) as [->|Hne].
    + intros Hdiv. apply E2. apply Z.mod_divide; [lia|exact Hdiv].
    + apply (IH (d + 1)); try lia; auto.
Qed.

Lemma no_divisor_from_complete (k : nat) (d n : Z) :
  0 < d ->
  (forall e, d <= e -> e * e <= n -> ~ (e | n)) ->
  no_divisor_from k d n = true.
Proof.
  revert d. induction k as [|k IH]; intros d Hd H; [reflexivity|].
  cbn [no_divisor_from].
  destruct (n <? d * d) eqn:E1; [reflexivity|]. apply Z.ltb_ge in E1.
  destruct (n mod d =? 0) eqn:E2.
  - apply Z.eqb_eq in E2. exfalso. apply (H d); try lia.
    apply Z.mod_divide; [lia|exact E2].
  - apply IH; [lia|]. intros e He. apply H. lia.
Qed.

(** A number with no divisor up to its square root is prime. *)
Lemma prime_of_no_small_divisor (n : Z) :
  2 <= n ->
  (forall e, 2 <= e -> e * e <= n -> ~ (e | n)) ->
  Z.prime n.
Proof.
  intros Hn H. split; [lia|].
  intros m Hm [c Hc].
  assert (Hc2 : 2 <= c) by nia.
  destruct (Z_le_gt_dec (m * m) n) as [Hle|Hgt].
  - apply (H m); try lia. exists c. exact Hc.
  - apply (H c); try lia; [nia|]. exists m. lia.
Qed.

Lemma is_prime_b_sound (n : Z) : is_prime_b n = true -> Z.prime n.
Proof.
  unfold is_prime_b. intros H. apply andb_prop in H. destruct H as [H2 Hnd].
  apply Z.leb_le in H2.
  apply prime_of_no_small_divisor; [exact H2|].
  apply (no_divisor_from_sound _ 2 n ltac:(lia) Hnd).
  rewrite Z2Nat.id by (apply Z.sqrt_nonneg).
  pose proof (Z.sqrt_spec n ltac:(lia)) as Hs. cbv zeta in Hs.
  pose proof (Z.sqrt_nonneg n). nia.
Qed.

Lemma is_prime_b_complete (n : Z) : Z.prime n -> is_prime_b n = true.
Proof.
  intros [Hn Hp]. unfold is_prime_b.
  apply andb_true_intro. split; [apply Z.leb_le; lia|].
  apply no_divisor_from_complete; [lia|].
  intros e He Hee. apply Hp. nia.
Qed.

(** ** Residue algebra *)

Lemma wrap64_small (z : Z) : 0 <= z < U64 -> wrap64 z = z.
Proof. intros H. apply Z.mod_small, H. Qed.

Lemma U64_value : U64 = 18446744073709551616.
Proof. reflexivity. Qed.

(** The residues 6x + i with i = 1 or -1 that [p] divides are the x congruent
    to the normalized index of [p]. *)
Lemma normalized_x_p_range (i p : Z) :
  5 <= p < U64 -> 1 <= normalized_x_p i p < p.
Proof.
  intros Hp. unfold normalized_x_p.
  assert (H6 : 1 <= (p + 1) / 6 < p).
  { split; [apply Z.div_le_lower_bound; lia | apply Z.div_lt_upper_bound; lia]. }
  destruct (i =? (if p mod 6 =? 1 then 1 else -1)); [lia|].
  rewrite wrap64_small; lia.
Qed.

Lemma normalized_x_p_divides (i p : Z) :
  i = 1 \/ i = -1 ->
  5 <= p < U64 ->
  p mod 6 = 1 \/ p mod 6 = 5 ->
  (p | 6 * normalized_x_p i p + i).
Proof.
  intros Hi Hp Hmod. unfold normalized_x_p.
  pose proof (Z.div_mod p 6 ltac:(lia)) as Hdm.
  assert (H6 : 1 <= (p + 1) / 6 < p).
  { split; [apply Z.div_le_lower_bound; lia | apply Z.div_lt_upper_bound; lia]. }
  destruct Hmod as [Hm|Hm]; rewrite Hm in *; cbn [Z.eqb Pos.eqb].
  - (* p = 6k + 1 *)
    assert (Hk : (p + 1) / 6 = p / 6).
    { symmetry. apply (Z.div_unique (p + 1) 6 (p / 6) 2); lia. }
    rewrite Hk. destruct Hi as [->| ->]; cbn [Z.eqb Pos.eqb].
    + exists 1. lia.
    + rewrite wrap64_small by lia. exists 5. lia.
  - (* p = 6k + 5 *)
    assert (Hk : (p + 1) / 6 = p / 6 + 1).
    { symmetry. apply (Z.div_unique (p + 1) 6 (p / 6 + 1) 0); lia. }
    rewrite Hk. destruct Hi as [->| ->]; cbn [Z.eqb Pos.eqb].
    + rewrite wrap64_small by lia. exists 5. lia.
    + exists 1. lia.
Qed.

(** solve_for_x_gmp gives, for every [y], the one [x] of [1, p] at which [p]
    divides 6 (y vx + x) + i. *)
Lemma solve_for_x_gmp_correct (i p vx y : Z) :
  i = 1 \/ i = -1 ->
  5 <= p < U64 ->
  p mod 6 = 1 \/ p mod 6 = 5 ->
  let x := solve_for_x_gmp i p vx y in
  1 <= x <= p /\
  (y * vx + x) mod p = normalized_x_p i p /\
  (p | 6 * (y * vx + x) + i) /\
  (forall x', 1 <= x' <= p -> (p | 6 * (y * vx + x') + i) -> x' = x).
Proof.
  intros Hi Hp Hmod x.
  pose proof (normalized_x_p_range i p Hp) as Hr.
  pose proof (normalized_x_p_divides i p Hi Hp Hmod) as Hd.
  set (x_p := normalized_x_p i p) in *.
  pose proof (Z.mod_pos_bound (y * vx - x_p) p ltac:(lia)) as Hb.
  assert (Hx : x = p - (y * vx - x_p) mod p).
  { unfold x, solve_for_x_gmp. fold x_p. cbv zeta. apply wrap64_small. lia. }
  assert (Hcong : (p | y * vx + x - x_p)).
  { rewrite Hx. pose proof (Z.div_mod (y * vx - x_p) p ltac:(lia)) as E.
    exists (1 + (y * vx - x_p) / p). lia. }
  assert (Hdiv : (p | 6 * (y * vx + x) + i)).
  { destruct Hcong as [c Hc]. destruct Hd as [d Hd].
    exists (6 * c + d). lia. }
  split; [lia|]. split; [|split].
  - destruct Hcong as [c Hc].
    replace (y * vx + x) with (x_p + c * p) by lia.
    rewrite Z.mod_add by lia. apply Z.mod_small. lia.
  - exact Hdiv.
  - intros x' Hx' Hdiv'.
    assert (H6 : (p | 6 * (x' - x))).
    { destruct Hdiv as [c Hc]. destruct Hdiv' as [c' Hc']. exists (c' - c). lia. }
    assert (Hcop : Z.gcd p 6 = 1).
    { rewrite Z.gcd_comm, <- Z.gcd_mod by lia. rewrite Z.gcd_comm.
      destruct Hmod as [-> | ->]; reflexivity. }
    apply Z.gauss in H6; [|exact Hcop].
    destruct H6 as [c Hc].
    assert (c = 0) by nia. lia.
Qed.

(** solve_for_x computes in 64 bits: it agrees with solve_for_x_gmp when
    [vx * y] fits and is not below the normalized index. *)
Lemma solve_for_x_agrees (i p vx y : Z) :
  5 <= p < U64 ->
  normalized_x_p i p <= vx * y < U64 ->
  solve_for_x i p vx y = solve_for_x_gmp i p vx y.
Proof.
  intros Hp Hy. pose proof (normalized_x_p_range i p Hp) as Hr.
  unfold solve_for_x, solve_for_x_gmp. cbv zeta.
  rewrite (wrap64_small (vx * y)) by lia.
  rewrite (wrap64_small (vx * y - normalized_x_p i p)) by lia.
  rewrite (Z.mul_comm y vx). reflexivity.
Qed.

(** C5 (what the code does instead): at slab 0 the difference
    [yvx - x_p] of solve_for_x wraps around 2^64; for p = 11, vx = 35 it
    returns 8, and 11 does not divide iZ(8, -1) = 47, while solve_for_x_gmp
    returns 2 = (11 + 1) / 6, the index of 11 itself. *)
Theorem solve_for_x_slab_0_wraps :
  solve_for_x (-1) 11 35 0 = 8 /\
  solve_for_x_gmp (-1) 11 35 0 = 2 /\
  iZ (0 * 35 + 8) (-1) = 47 /\ ~ (11 | 47) /\
  iZ (0 * 35 + 2) (-1) = 11.
Proof.
  repeat split; try reflexivity.
  intros [c Hc]. lia.
Qed.

(** modular_inverse on a positive [a] coprime to [m]: the loop ends, and the
    result is the inverse in [0, m). *)
Lemma modular_inverse_loop_correct (a0 m0 : Z) (fuel : nat) :
  1 < m0 ->
  forall a m x0 x1 sg,
    1 <= a -> 0 <= m -> Z.gcd a m = 1 ->
    (Z.to_nat m < fuel)%nat ->
    (m0 | x1 * a0 - a) -> (m0 | x0 * a0 - m) ->
    sg = 1 \/ sg = -1 ->
    0 <= sg * x1 -> sg * x0 <= 0 -> sg * (x1 * m - x0 * a) = m0 ->
    - m0 < x1 < m0 ->
    exists x, modular_inverse_loop fuel a m x0 x1 = Ret x /\
              (m0 | x * a0 - 1) /\ - m0 < x < m0.
Proof.
  intros Hm0. induction fuel as [|fuel IH];
    intros a m x0 x1 sg Ha Hm Hg Hf H1 H0 Hsg Hs1 Hs0 Hdet Hb; [lia|].
  cbn [modular_inverse_loop].
  destruct (1 <? a) eqn:Ea.
  - apply Z.ltb_lt in Ea.
    destruct (m =? 0) eqn:Em.
    + apply Z.eqb_eq in Em. subst m. rewrite Z.gcd_0_r, Z.abs_eq in Hg by lia. lia.
    + apply Z.eqb_neq in Em.
      rewrite Z.quot_div_nonneg, Z.rem_mod_nonneg by lia.
      pose proof (Z.mod_pos_bound a m ltac:(lia)) as Hmod.
      pose proof (Z.div_mod a m ltac:(lia)) as Hdm.
      assert (Hq : 0 <= a / m) by (apply Z.div_pos; lia).
      apply (IH m (a mod m) (x1 - a / m * x0) x0 (- sg)); try lia.
      * rewrite Z.gcd_comm, Z.gcd_mod by lia. rewrite Z.gcd_comm. exact Hg.
      * exact H0.
      * destruct H1 as [c1 Hc1]. destruct H0 as [c0 Hc0].
        exists (c1 - a / m * c0). nia.
      * destruct Hsg as [-> | ->]; nia.
  - apply Z.ltb_ge in Ea. assert (a = 1) by lia. subst a.
    exists x1. auto.
Qed.

Lemma modular_inverse_correct (a m : Z) :
  1 <= a -> 1 < m -> Z.gcd a m = 1 ->
  exists r, modular_inverse a m = Ret r /\ 0 <= r < m /\ (r * a) mod m = 1.
Proof.
  intros Ha Hm Hg. unfold modular_inverse.
  destruct (m =? 1) eqn:E; [apply Z.eqb_eq in E; lia|].
  destruct (modular_inverse_loop_correct a m (S (Z.to_nat (Z.abs m))) Hm a m 0 1 1)
    as (x & Hx & Hdiv & Hb); try lia.
  - exists 0. lia.
  - exists (-1). lia.
  - rewrite Hx.
    assert (Hr : forall r, 0 <= r < m -> (m | r * a - 1) -> (r * a) mod m = 1).
    { intros r Hr [c Hc]. replace (r * a) with (1 + c * m) by lia.
      rewrite Z.mod_add by lia. apply Z.mod_small. lia. }
    destruct (x <? 0) eqn:Ex.
    + apply Z.ltb_lt in Ex. exists (x + m). split; [reflexivity|].
      split; [lia|]. apply Hr; [lia|].
      destruct Hdiv as [c Hc]. exists (c + a). lia.
    + apply Z.ltb_ge in Ex. exists x. split; [reflexivity|].
      split; [lia|]. apply Hr; [lia|exact Hdiv].
Qed.

(** C8 (what the code does instead): modular_inverse_gmp moves [q * x0], not
    the old [x0], into [x1]; for a = 3, m = 7 it returns 1, and 1 * 3 is not
    1 modulo 7, while modular_inverse returns the inverse 5.  On a negative
    [a] the loop of modular_inverse is not entered: for a = -1, m = 3 it
    returns 1, and 1 * -1 is not 1 modulo 3. *)
Theorem modular_inverse_gmp_3_7 :
  modular_inverse_gmp 3 7 = Ret 1 /\ (1 * 3) mod 7 <> 1 /\
  modular_inverse 3 7 = Ret 5 /\ (5 * 3) mod 7 = 1 /\ Z.gcd 3 7 = 1 /\
  modular_inverse (-1) 3 = Ret 1 /\ (1 * -1) mod 3 <> 1 /\ Z.gcd (-1) 3 = 1.
Proof. repeat split; try reflexivity; discriminate. Qed.

(** ** Prime factors *)

Lemma no_divisor_from_false (k : nat) (d n : Z) :
  0 < d ->
  no_divisor_from k d n = false ->
  exists e, d <= e /\ e * e <= n /\ (e | n).
Proof.
  revert d. induction k as [|k IH]; intros d Hd H; [discriminate|].
  cbn [no_divisor_from] in H.
  destruct (n <? d * d) eqn:E1; [discriminate|]. apply Z.ltb_ge in E1.
  destruct (n mod d =? 0) eqn:E2.
  - apply Z.eqb_eq in E2. exists d. repeat split; try lia.
    apply Z.mod_divide; [lia|exact E2].
  - destruct (IH (d + 1) ltac:(lia) H) as (e & He & Hee & Hdiv).
    exists e. repeat split; try lia. exact Hdiv.
Qed.

(** A number that is not prime has a divisor up to its square root. *)
Lemma composite_has_small_divisor (c : Z) :
  2 <= c -> ~ Z.prime c -> exists e, 2 <= e /\ e * e <= c /\ (e | c).
Proof.
  intros Hc Hnp.
  destruct (is_prime_b c) eqn:E; [exfalso; apply Hnp, is_prime_b_sound, E|].
  unfold is_prime_b in E. apply andb_false_iff in E. destruct E as [E|E].
  - apply Z.leb_gt in E. lia.
  - apply (no_divisor_from_false _ 2 c ltac:(lia) E).
Qed.

Lemma prime_divisor_exists (c : Z) :
  2 <= c -> exists q, Z.prime q /\ (q | c).
Proof.
  revert c. apply (Zlt_lower_bound_ind (fun c => exists q, Z.prime q /\ (q | c)) 2).
  intros c IH Hc.
  destruct (is_prime_b c) eqn:E.
  - exists c. split; [apply is_prime_b_sound, E | apply Z.divide_refl].
  - assert (Hnp : ~ Z.prime c).
    { intros Hp. apply is_prime_b_complete in Hp. congruence. }
    destruct (composite_has_small_divisor c Hc Hnp) as (e & He & Hee & Hdiv).
    destruct (IH e ltac:(nia)) as (q & Hq & Hqe).
    exists q. split; [exact Hq|]. apply (Z.divide_trans _ e); assumption.
Qed.

(** A number that is not prime has a prime factor up to its square root. *)
Lemma composite_has_small_prime_factor (c : Z) :
  2 <= c -> ~ Z.prime c -> exists q, Z.prime q /\ q * q <= c /\ (q | c).
Proof.
  intros Hc Hnp.
  destruct (composite_has_small_divisor c Hc Hnp) as (e & He & Hee & Hdiv).
  destruct (prime_divisor_exists e He) as (q & Hq & Hqe).
  assert (Hqle : q <= e).
  { apply Z.divide_pos_le; [lia|exact Hqe]. }
  pose proof (Z.prime_ge_2 q Hq).
  exists q. split; [exact Hq|]. split; [nia|].
  apply (Z.divide_trans _ e); assumption.
Qed.

(** A prime from 5 on is 1 or 5 modulo 6. *)
Lemma prime_mod_6 (q : Z) : Z.prime q -> 5 <= q -> q mod 6 = 1 \/ q mod 6 = 5.
Proof.
  intros [_ Hq] H5.
  pose proof (Z.div_mod q 6 ltac:(lia)) as Hdm.
  pose proof (Z.mod_pos_bound q 6 ltac:(lia)) as Hb.
  assert (H2 : ~ (2 | q)) by (apply Hq; lia).
  assert (H3 : ~ (3 | q)) by (apply Hq; lia).
  destruct (Z.eq_dec (q mod 6) 1) as [|N1]; [auto|].
  destruct (Z.eq_dec (q mod 6) 5) as [|N5]; [auto|].
  exfalso.
  assert (Hcases : q mod 6 = 0 \/ q mod 6 = 2 \/ q mod 6 = 3 \/ q mod 6 = 4) by lia.
  destruct Hcases as [E|[E|[E|E]]].
  - apply H2. exists (3 * (q / 6)). lia.
  - apply H2. exists (3 * (q / 6) + 1). lia.
  - apply H3. exists (2 * (q / 6) + 1). lia.
  - apply H2. exists (3 * (q / 6) + 2). lia.
Qed.

(** A prime that divides 6j + i, i = 1 or -1, is at least 5. *)
Lemma prime_factor_of_candidate (q j i : Z) :
  Z.prime q -> i = 1 \/ i = -1 -> (q | 6 * j + i) -> 5 <= q.
Proof.
  intros Hq Hi [c Hc]. pose proof (Z.prime_ge_2 q Hq).
  destruct (Z.eq_dec q 2) as [->|]; [lia|].
  destruct (Z.eq_dec q 3) as [->|]; [lia|].
  destruct (Z.eq_dec q 4) as [->|]; [|lia].
  destruct Hq as [_ Hq]. exfalso. apply (Hq 2); [lia|]. exists 2. lia.
Qed.

(** ** sieve_iZ: arithmetic of the marks *)

(** The index [c x + e x + k c] of matrix [i'] holds a multiple of
    [c = 6 x + i], for [e = i i']. *)
Lemma mark_value (x i i' k : Z) :
  i = 1 \/ i = -1 -> i' = 1 \/ i' = -1 ->
  6 * ((6 * x + i) * x + i * i' * x + k * (6 * x + i)) + i' =
  (6 * x + i) * (6 * x + i * i' + 6 * k).
Proof. intros [-> | ->] [-> | ->]; ring. Qed.

(** Every multiple [c r] of [c = 6 x + i] with [r >= c] in matrix [i'] sits
    at such an index. *)
Lemma mark_covers (x i i' j r : Z) :
  i = 1 \/ i = -1 -> i' = 1 \/ i' = -1 ->
  (6 * x + i) * r = 6 * j + i' -> 6 * x + i <= r ->
  exists k, 0 <= k /\ j = (6 * x + i) * x + i * i' * x + k * (6 * x + i).
Proof.
  intros Hi Hi' Hr Hle. exists (i * (j - x * r) - x).
  destruct Hi as [-> | ->]; destruct Hi' as [-> | ->]; split; nia.
Qed.

Lemma no_prime_between (x i q : Z) :
  1 <= x -> i = 1 \/ i = -1 -> Z.prime q ->
  6 * x + i <= q < (if i =? 1 then 6 * (x + 1) - 1 else 6 * x + 1) ->
  q = 6 * x + i.
Proof.
  intros Hx Hi [_ Hq] Hr.
  destruct Hi as [-> | ->]; cbn [Z.eqb Pos.eqb] in Hr.
  - destruct (Z.eq_dec q (6 * x + 1)) as [|N]; [assumption|exfalso].
    assert (Hc : q = 6 * x + 2 \/ q = 6 * x + 3 \/ q = 6 * x + 4) by lia.
    destruct Hc as [-> | [-> | ->]].
    + apply (Hq 2); [lia|]. exists (3 * x + 1). lia.
    + apply (Hq 3); [lia|]. exists (2 * x + 1). lia.
    + apply (Hq 2); [lia|]. exists (3 * x + 2). lia.
  - destruct (Z.eq_dec q (6 * x + -1)) as [|N]; [assumption|exfalso].
    assert (q = 6 * x) by lia. subst q.
    apply (Hq 2); [lia|]. exists (3 * x). lia.
Qed.

Lemma clear_mod_p_get (b : BITMAP) (p start limit j : Z) :
  bitmap_get_bit (bitmap_clear_mod_p b p start limit) j =
  if (start <=? j) && (j <? limit) && ((j - start) mod p =? 0)
  then false else bitmap_get_bit b j.
Proof. reflexivity. Qed.

Lemma clear_mod_p_stays_clear (b : BITMAP) (p start limit j : Z) :
  bitmap_get_bit b j = false ->
  bitmap_get_bit (bitmap_clear_mod_p b p start limit) j = false.
Proof. intros H. rewrite clear_mod_p_get, H. destruct (_ && _); reflexivity. Qed.

Lemma clear_mod_p_hit (b : BITMAP) (p start limit j k : Z) :
  0 < p -> 0 <= k -> j = start + k * p -> j < limit ->
  bitmap_get_bit (bitmap_clear_mod_p b p start limit) j = false.
Proof.
  intros Hp Hk -> Hl. rewrite clear_mod_p_get.
  replace (start + k * p - start) with (k * p) by ring.
  rewrite Z.mod_mul by lia.
  replace (start <=? start + k * p) with true by (symmetry; apply Z.leb_le; nia).
  replace (start + k * p <? limit) with true by (symmetry; apply Z.ltb_lt; lia).
  reflexivity.
Qed.

Lemma clear_mod_p_cleared (b : BITMAP) (p start limit j : Z) :
  0 < p ->
  bitmap_get_bit b j = true ->
  bitmap_get_bit (bitmap_clear_mod_p b p start limit) j = false ->
  exists k, 0 <= k /\ j = start + k * p.
Proof.
  intros Hp Hb. rewrite clear_mod_p_get, Hb.
  destruct ((start <=? j) && (j <? limit) && ((j - start) mod p =? 0)) eqn:E; [|discriminate].
  intros _. apply andb_prop in E. destruct E as [E E3].
  apply andb_prop in E. destruct E as [E1 E2].
  apply Z.leb_le in E1. apply Z.eqb_eq in E3.
  apply Z.mod_divide in E3; [|lia]. destruct E3 as [k Hk].
  exists k. split; [nia|lia].
Qed.

Lemma StronglySorted_app_one (l : list Z) (c : Z) :
  StronglySorted Z.lt l -> Forall (fun p => p < c) l -> StronglySorted Z.lt (l ++ [c]).
Proof.
  induction 1 as [|a l Hs IH Ha]; intros Hl; cbn.
  - constructor; constructor.
  - inversion Hl; subst. constructor; [apply IH; assumption|].
    apply Forall_app. split; [assumption|]. constructor; [assumption|constructor].
Qed.

Section SieveStep.

Variables (n x_n : Z).
Hypothesis Hn : 10 <= n.
Hypothesis Hxn : x_n = n / 6 + 1.

Lemma index_bound (j : Z) : j < x_n -> 6 * j <= n.
Proof.
  intros Hj. pose proof (Z.div_mod n 6 ltac:(lia)).
  pose proof (Z.mod_pos_bound n 6 ltac:(lia)). lia.
Qed.

Lemma le_sqrt_of_square (c : Z) : 0 <= c -> c * c <= n -> c < Z.sqrt n + 1.
Proof.
  intros Hc Hcc. apply Z.sqrt_le_square in Hcc; lia.
Qed.

(** The candidate [c] is not prime and nothing was done for it. *)
Lemma inv_skip (x i : Z) (s : sieve_state) :
  1 <= x -> i = 1 \/ i = -1 ->
  ~ Z.prime (6 * x + i) ->
  sieve_iZ_inv n x_n (6 * x + i) s ->
  sieve_iZ_inv n x_n (next_candidate x i) s.
Proof.
  intros Hx Hi Hnp [Hh Hb Hs Hso Hc H5 H7 M5 M7].
  assert (Hlt : 6 * x + i < next_candidate x i).
  { unfold next_candidate. destruct Hi as [-> | ->]; cbn [Z.eqb Pos.eqb]; lia. }
  assert (Hq : forall q, Z.prime q -> q < next_candidate x i -> q < 6 * x + i).
  { intros q Hq Hql. destruct (Z_lt_ge_dec q (6 * x + i)) as [|Hge]; [assumption|].
    exfalso. apply Hnp. rewrite <- (no_prime_between x i q Hx Hi Hq); [exact Hq|].
    split; [lia|exact Hql]. }
  constructor; auto.
  - eapply Forall_impl; [|exact Hb]. cbv beta. intros p Hp. lia.
  - intros j q Hj Hqp Hql. apply M5; auto.
  - intros j q Hj Hjn Hqp Hql. apply M7; auto.
Qed.

(** The candidate [c = 6 x + i] was appended and, when it is below
    [n_sqrt], its multiples were marked from [c x - i x] in x5 and from
    [c x + i x] in x7. *)
Lemma inv_after_append (x i : Z) (s : sieve_state) (x5' x7' : BITMAP) :
  1 <= x < x_n -> i = 1 \/ i = -1 ->
  (6 * x + i <= n -> Z.prime (6 * x + i)) ->
  sieve_iZ_inv n x_n (6 * x + i) s ->
  x5' = (if 6 * x + i <? Z.sqrt n + 1
         then bitmap_clear_mod_p (st_x5 s) (6 * x + i) ((6 * x + i) * x - i * x) x_n
         else st_x5 s) ->
  x7' = (if 6 * x + i <? Z.sqrt n + 1
         then bitmap_clear_mod_p (st_x7 s) (6 * x + i) ((6 * x + i) * x + i * x) x_n
         else st_x7 s) ->
  sieve_iZ_inv n x_n (next_candidate x i)
    (mk_sieve x5' x7' (primes_obj_append (st_primes s) (6 * x + i))).
Proof.
  intros Hx Hi Hcp [Hh Hb Hs Hso Hc H5 H7 M5 M7] E5 E7.
  set (c := 6 * x + i) in *.
  assert (Hc5 : 5 <= c) by (unfold c; lia).
  assert (Hlt : c < next_candidate x i).
  { unfold next_candidate, c. destruct Hi as [-> | ->]; cbn [Z.eqb Pos.eqb]; lia. }
  assert (Hcn : c <= n + 1).
  { pose proof (index_bound x ltac:(lia)). unfold c. lia. }
  assert (Hq : forall q, Z.prime q -> q < next_candidate x i -> q < c \/ q = c).
  { intros q Hq Hql. destruct (Z_lt_ge_dec q c) as [|Hge]; [left; assumption|].
    right. apply (no_prime_between x i q);
      [lia | exact Hi | exact Hq | split; [unfold c in Hge; lia | exact Hql]]. }
  (* a cleared index holds a proper multiple of c *)
  assert (Hcomp : forall i' j k, i' = 1 \/ i' = -1 -> 0 <= k ->
                    j = c * x + i * i' * x + k * c -> ~ Z.prime (6 * j + i')).
  { intros i' j k Hi' Hk -> Hprime. destruct Hprime as [_ Hp].
    unfold c in Hp. rewrite (mark_value x i i' k Hi Hi') in Hp. fold c in Hp.
    apply (Hp c).
    - assert (2 <= 6 * x + i * i' + 6 * k) by (destruct Hi as [-> | ->]; destruct Hi' as [-> | ->]; lia).
      nia.
    - exists (6 * x + i * i' + 6 * k). ring. }
  (* a multiple of c with a cofactor from c on is at a marked index *)
  assert (Hcov : forall i' j, i' = 1 \/ i' = -1 -> c * c <= 6 * j + i' -> (c | 6 * j + i') ->
                   exists k, 0 <= k /\ j = c * x + i * i' * x + k * c).
  { intros i' j Hi' Hcc [r Hr].
    apply (mark_covers x i i' j r Hi Hi'); fold c; [lia|nia]. }
  constructor; cbn [st_primes st_x5 st_x7 primes_obj_append p_array].
  - destruct Hh as [l Hl]. rewrite Hl. exists (l ++ [c]). reflexivity.
  - apply Forall_app. split.
    + eapply Forall_impl; [|exact Hb]. cbv beta. intros p Hp. lia.
    + constructor; [lia|constructor].
  - apply Forall_app. split; [exact Hs|]. constructor; [exact Hcp|constructor].
  - apply StronglySorted_app_one; [exact Hso|].
    eapply Forall_impl; [|exact Hb]. cbv beta. intros p Hp. lia.
  - intros q Hqp Hql. apply in_or_app.
    destruct (Hq q Hqp Hql) as [Hlt'| ->]; [left; apply Hc; assumption|right; left; reflexivity].
  - intros j Hj Hjp. specialize (H5 j Hj Hjp). subst x5'.
    destruct (c <? Z.sqrt n + 1); [|exact H5].
    destruct (bitmap_get_bit (bitmap_clear_mod_p (st_x5 s) c (c * x - i * x) x_n) j) eqn:E;
      [reflexivity|exfalso].
    destruct (clear_mod_p_cleared (st_x5 s) c _ _ j ltac:(lia) H5 E) as (k & Hk & Hjk).
    apply (Hcomp (-1) j k (or_intror eq_refl) Hk); [lia|].
    replace (6 * j + -1) with (6 * j - 1) by lia. exact Hjp.
  - intros j Hj Hjp. specialize (H7 j Hj Hjp). subst x7'.
    destruct (c <? Z.sqrt n + 1); [|exact H7].
    destruct (bitmap_get_bit (bitmap_clear_mod_p (st_x7 s) c (c * x + i * x) x_n) j) eqn:E;
      [reflexivity|exfalso].
    destruct (clear_mod_p_cleared (st_x7 s) c _ _ j ltac:(lia) H7 E) as (k & Hk & Hjk).
    apply (Hcomp 1 j k (or_introl eq_refl) Hk); [lia|exact Hjp].
  - intros j q Hj Hqp Hql Hqq Hdiv. subst x5'.
    destruct (Hq q Hqp Hql) as [Hlt'| ->].
    + specialize (M5 j q Hj Hqp Hlt' Hqq Hdiv).
      destruct (c <? Z.sqrt n + 1); [apply clear_mod_p_stays_clear|]; exact M5.
    + pose proof (index_bound j ltac:(lia)) as Hjn.
      assert (Hsq : c < Z.sqrt n + 1) by (apply le_sqrt_of_square; lia).
      apply Z.ltb_lt in Hsq. rewrite Hsq.
      destruct (Hcov (-1) j (or_intror eq_refl)) as (k & Hk & Hjk);
        [lia | replace (6 * j + -1) with (6 * j - 1) by lia; exact Hdiv |].
      apply (clear_mod_p_hit _ _ _ _ _ k); lia.
  - intros j q Hj Hjn Hqp Hql Hqq Hdiv. subst x7'.
    destruct (Hq q Hqp Hql) as [Hlt'| ->].
    + specialize (M7 j q Hj Hjn Hqp Hlt' Hqq Hdiv).
      destruct (c <? Z.sqrt n + 1); [apply clear_mod_p_stays_clear|]; exact M7.
    + assert (Hsq : c < Z.sqrt n + 1) by (apply le_sqrt_of_square; lia).
      apply Z.ltb_lt in Hsq. rewrite Hsq.
      destruct (Hcov 1 j (or_introl eq_refl)) as (k & Hk & Hjk); [lia | exact Hdiv |].
      apply (clear_mod_p_hit _ _ _ _ _ k); lia.
Qed.

End SieveStep.

Section SieveLoop.

Variables (n x_n : Z).
Hypothesis Hn : 10 <= n < U64.
Hypothesis Hxn : x_n = n / 6 + 1.

Lemma iZ_candidate (x i : Z) : 1 <= x < x_n -> i = 1 \/ i = -1 -> iZ x i = 6 * x + i.
Proof.
  intros Hx Hi. unfold iZ. apply wrap64_small. rewrite U64_value in *.
  pose proof (index_bound n x_n Hxn x ltac:(lia)). destruct Hi as [-> | ->]; lia.
Qed.

(** The starts of the marks of a root prime fit 64 bits. *)
Lemma mark_start_fits (x i e : Z) :
  1 <= x -> i = 1 \/ i = -1 -> e = 1 \/ e = -1 ->
  6 * x + i < Z.sqrt n + 1 ->
  wrap64 ((6 * x + i) * x + e * x) = (6 * x + i) * x + e * x.
Proof.
  intros Hx Hi He Hc. apply wrap64_small. rewrite U64_value in *.
  pose proof (Z.sqrt_spec n ltac:(lia)) as Hs. cbv zeta in Hs.
  pose proof (Z.sqrt_nonneg n) as Hs0.
  assert (Hroot : Z.sqrt n < 4294967296) by nia.
  assert (Hx6 : x <= 715827883) by (destruct Hi as [-> | ->]; lia).
  destruct Hi as [-> | ->]; destruct He as [-> | ->]; nia.
Qed.

Lemma sieve_iZ_x5_inv (x : Z) (s : sieve_state) :
  1 <= x < x_n ->
  sieve_iZ_inv n x_n (6 * x - 1) s ->
  sieve_iZ_inv n x_n (6 * x + 1) (sieve_iZ_x5 (Z.sqrt n + 1) x_n x s).
Proof.
  intros Hx Hinv. unfold sieve_iZ_x5.
  rewrite (iZ_candidate x (-1) Hx (or_intror eq_refl)).
  change (6 * x + 1) with (next_candidate x (-1)).
  replace (6 * x - 1) with (6 * x + -1) in Hinv by lia.
  destruct (bitmap_get_bit (st_x5 s) x) eqn:Ebit.
  - assert (Hp : Z.prime (6 * x + -1)).
    { destruct (is_prime_b (6 * x + -1)) eqn:E; [apply is_prime_b_sound, E|exfalso].
      assert (Hnp : ~ Z.prime (6 * x + -1)).
      { intros Hp. apply is_prime_b_complete in Hp. congruence. }
      destruct (composite_has_small_prime_factor (6 * x + -1) ltac:(lia) Hnp) as (q & Hq & Hqq & Hdiv).
      pose proof (Z.prime_ge_2 q Hq).
      rewrite (inv_x5_marked _ _ _ _ Hinv x q Hx Hq) in Ebit; try discriminate; try nia.
      replace (6 * x - 1) with (6 * x + -1) by lia. exact Hdiv. }
    destruct (6 * x + -1 <? Z.sqrt n + 1) eqn:Eroot.
    + pose proof (proj1 (Z.ltb_lt _ _) Eroot) as Hroot.
      apply (inv_after_append n x_n ltac:(lia) Hxn x (-1) s _ _ Hx
               (or_intror eq_refl) (fun _ => Hp) Hinv); rewrite Eroot; f_equal.
      * replace ((6 * x + -1) * x + x) with ((6 * x + -1) * x + 1 * x) by ring.
        rewrite (mark_start_fits x (-1) 1 ltac:(lia) (or_intror eq_refl) (or_introl eq_refl) Hroot). ring.
      * replace ((6 * x + -1) * x - x) with ((6 * x + -1) * x + -1 * x) by ring.
        rewrite (mark_start_fits x (-1) (-1) ltac:(lia) (or_intror eq_refl) (or_intror eq_refl) Hroot). ring.
    + apply (inv_after_append n x_n ltac:(lia) Hxn x (-1) s _ _ Hx
               (or_intror eq_refl) (fun _ => Hp) Hinv); rewrite Eroot; reflexivity.
  - apply (inv_skip n x_n x (-1) s); auto; try lia.
    intros Hp. rewrite (inv_x5_primes _ _ _ _ Hinv x Hx) in Ebit; [discriminate|].
    replace (6 * x - 1) with (6 * x + -1) by lia. exact Hp.
Qed.

Lemma sieve_iZ_x7_inv (x : Z) (s : sieve_state) :
  1 <= x < x_n ->
  sieve_iZ_inv n x_n (6 * x + 1) s ->
  sieve_iZ_inv n x_n (6 * (x + 1) - 1) (sieve_iZ_x7 (Z.sqrt n + 1) x_n x s).
Proof.
  intros Hx Hinv. unfold sieve_iZ_x7.
  rewrite (iZ_candidate x 1 Hx (or_introl eq_refl)).
  change (6 * (x + 1) - 1) with (next_candidate x 1).
  destruct (bitmap_get_bit (st_x7 s) x) eqn:Ebit.
  - assert (Hp : 6 * x + 1 <= n -> Z.prime (6 * x + 1)).
    { intros Hle.
      destruct (is_prime_b (6 * x + 1)) eqn:E; [apply is_prime_b_sound, E|exfalso].
      assert (Hnp : ~ Z.prime (6 * x + 1)).
      { intros Hp. apply is_prime_b_complete in Hp. congruence. }
      destruct (composite_has_small_prime_factor (6 * x + 1) ltac:(lia) Hnp) as (q & Hq & Hqq & Hdiv).
      pose proof (Z.prime_ge_2 q Hq).
      rewrite (inv_x7_marked _ _ _ _ Hinv x q Hx Hle Hq) in Ebit; try discriminate; try nia.
      exact Hdiv. }
    destruct (6 * x + 1 <? Z.sqrt n + 1) eqn:Eroot.
    + pose proof (proj1 (Z.ltb_lt _ _) Eroot) as Hroot.
      apply (inv_after_append n x_n ltac:(lia) Hxn x 1 s _ _ Hx
               (or_introl eq_refl) Hp Hinv); rewrite Eroot; f_equal.
      * replace ((6 * x + 1) * x - x) with ((6 * x + 1) * x + -1 * x) by ring.
        rewrite (mark_start_fits x 1 (-1) ltac:(lia) (or_introl eq_refl) (or_intror eq_refl) Hroot). ring.
      * replace ((6 * x + 1) * x + x) with ((6 * x + 1) * x + 1 * x) by ring.
        rewrite (mark_start_fits x 1 1 ltac:(lia) (or_introl eq_refl) (or_introl eq_refl) Hroot). ring.
    + apply (inv_after_append n x_n ltac:(lia) Hxn x 1 s _ _ Hx
               (or_introl eq_refl) Hp Hinv); rewrite Eroot; reflexivity.
  - apply (inv_skip n x_n x 1 s); auto; try lia.
    intros Hp. rewrite (inv_x7_primes _ _ _ _ Hinv x Hx Hp) in Ebit. discriminate.
Qed.

Lemma sieve_iZ_inv_init :
  sieve_iZ_inv n x_n 5
    (mk_sieve (bitmap_set_all (bitmap_create (x_n + 1)))
              (bitmap_set_all (bitmap_create (x_n + 1)))
              (primes_obj_append (primes_obj_append primes_obj_init 2) 3)).
Proof.
  assert (Hbit : forall j, 1 <= j < x_n ->
            bitmap_get_bit (bitmap_set_all (bitmap_create (x_n + 1))) j = true).
  { intros j Hj. unfold bitmap_get_bit, bitmap_set_all, bitmap_create. cbn [data size].
    apply andb_true_intro. split; [apply Z.leb_le | apply Z.ltb_lt]; lia. }
  assert (Hsmall : forall q j i, Z.prime q -> q < 5 -> i = 1 \/ i = -1 -> ~ (q | 6 * j + i)).
  { intros q j i Hq Hq5 Hi Hdiv. pose proof (prime_factor_of_candidate q j i Hq Hi Hdiv). lia. }
  constructor; cbn [st_primes st_x5 st_x7 primes_obj_append primes_obj_init p_array app].
  - exists []. reflexivity.
  - repeat constructor; lia.
  - constructor; [intros _; apply Z.prime_2|].
    constructor; [intros _; apply Z.prime_3|]. constructor.
  - repeat constructor; lia.
  - intros q Hq Hq5. pose proof (Z.prime_ge_2 q Hq).
    assert (Hc : q = 2 \/ q = 3 \/ q = 4) by lia.
    destruct Hc as [-> | [-> | ->]]; [left; reflexivity | right; left; reflexivity |].
    exfalso. destruct Hq as [_ Hq]. apply (Hq 2); [lia|]. exists 2. lia.
  - intros j Hj _. apply Hbit, Hj.
  - intros j Hj _. apply Hbit, Hj.
  - intros j q Hj Hq Hq5 _ Hdiv. exfalso. apply (Hsmall q j (-1) Hq Hq5 (or_intror eq_refl)).
    replace (6 * j + -1) with (6 * j - 1) by lia. exact Hdiv.
  - intros j q Hj _ Hq Hq5 _ Hdiv. exfalso.
    apply (Hsmall q j 1 Hq Hq5 (or_introl eq_refl) Hdiv).
Qed.

Lemma sieve_iZ_loop_inv :
  sieve_iZ_inv n x_n (6 * x_n - 1)
    (for_loop 1 x_n (sieve_iZ_body (Z.sqrt n + 1) x_n)
       (mk_sieve (bitmap_set_all (bitmap_create (x_n + 1)))
                 (bitmap_set_all (bitmap_create (x_n + 1)))
                 (primes_obj_append (primes_obj_append primes_obj_init 2) 3))).
Proof.
  apply (for_loop_ind (fun x s => sieve_iZ_inv n x_n (6 * x - 1) s)).
  - pose proof (Z.div_pos n 6 ltac:(lia) ltac:(lia)). lia.
  - apply sieve_iZ_inv_init.
  - intros x s Hx Hinv. unfold sieve_iZ_body.
    apply sieve_iZ_x7_inv; [exact Hx|]. apply sieve_iZ_x5_inv; assumption.
Qed.

End SieveLoop.

Lemma StronglySorted_snoc_inv (l : list Z) (z : Z) :
  StronglySorted Z.lt (l ++ [z]) -> StronglySorted Z.lt l /\ Forall (fun p => p < z) l.
Proof.
  induction l as [|a l IH]; cbn; intros H.
  - split; constructor.
  - inversion H as [|? ? Hs Ha]; subst. destruct (IH Hs) as [IH1 IH2].
    apply Forall_app in Ha. destruct Ha as [Ha Hz]. inversion Hz; subst.
    split; constructor; assumption.
Qed.

Lemma last_in (l : list Z) (d : Z) : l <> [] -> In (last l d) l.
Proof.
  intros Hl. destruct (exists_last Hl) as (init & z & ->).
  rewrite last_last. apply in_or_app. right. left. reflexivity.
Qed.

(** What "if last prime > n, remove it" leaves of a list that satisfies the
    invariant of the loop. *)
Lemma drop_overshoot_correct (n x_n c : Z) (s : sieve_state) :
  10 <= n ->
  sieve_iZ_inv n x_n c s ->
  let l := p_array (drop_overshoot n (st_primes s)) in
  (exists t, l = 2 :: 3 :: t) /\
  Forall Z.prime l /\ Forall (fun p => p <= n) l /\ StronglySorted Z.lt l /\
  (forall q, Z.prime q -> q <= n -> q < c -> In q l).
Proof.
  intros Hn [Hh Hb Hs Hso Hc _ _ _ _]. destruct Hh as [t Ht].
  assert (Hne : p_array (st_primes s) <> []) by (rewrite Ht; discriminate).
  destruct (exists_last Hne) as (init & z & E).
  unfold drop_overshoot, last_prime, drop_last. rewrite E, last_last.
  rewrite E in Hb, Hs, Hso, Hc.
  destruct (StronglySorted_snoc_inv _ _ Hso) as [Hso' Hlt].
  apply Forall_app in Hb. destruct Hb as [Hb Hbz]. inversion Hbz as [|? ? Hz _]; subst.
  apply Forall_app in Hs. destruct Hs as [Hs Hsz]. inversion Hsz as [|? ? Hzp _]; subst.
  destruct (n <? z) eqn:Ez; cbn [p_array]; cbv zeta.
  - apply Z.ltb_lt in Ez. rewrite removelast_last.
    assert (Hle : Forall (fun p => p <= n) init).
    { eapply Forall_impl; [|exact Hlt]. cbv beta. intros p Hp. lia. }
    split; [|split; [|split; [|split]]].
    + rewrite Ht in E. destruct init as [|a [|b init]]; cbn in E.
      * inversion E.
      * inversion E. lia.
      * inversion E. eexists. reflexivity.
    + rewrite Forall_forall in *. intros p Hp. apply Hs; [exact Hp|]. apply Hle, Hp.
    + exact Hle.
    + exact Hso'.
    + intros q Hq Hqn Hqc. destruct (in_app_or _ _ _ (Hc q Hq Hqc)) as [Hi|[Hi|[]]]; [exact Hi|lia].
  - apply Z.ltb_ge in Ez. rewrite E.
    assert (Hle : Forall (fun p => p <= n) (init ++ [z])).
    { apply Forall_app. split; [|constructor; [lia|constructor]].
      eapply Forall_impl; [|exact Hlt]. cbv beta. intros p Hp. lia. }
    split; [|split; [|split; [|split]]].
    + exists t. rewrite <- E. exact Ht.
    + apply Forall_app. split.
      * rewrite Forall_forall in *. intros p Hp. apply Hs; [exact Hp|].
        apply Hle. apply in_or_app. left. exact Hp.
      * constructor; [apply Hzp; lia|constructor].
    + exact Hle.
    + exact Hso.
    + intros q Hq _ Hqc. apply Hc; assumption.
Qed.

(** The list the model of sieve_iZ(n) builds (the hint of primes_obj_init and
    the [int] count taken to fit) holds 2, 3 and then, in increasing order,
    primes up to n; it holds every prime below 6 (n/6) + 5, which leaves out n
    itself when n is a prime 6 k + 5. *)
Lemma sieve_iZ_correct (n : Z) :
  10 <= n < U64 ->
  exists o, sieve_iZ n = Some o /\
    (exists t, p_array o = 2 :: 3 :: t) /\
    Forall Z.prime (p_array o) /\
    Forall (fun p => p <= n) (p_array o) /\
    StronglySorted Z.lt (p_array o) /\
    (forall q, Z.prime q -> q <= n -> q < 6 * (n / 6) + 5 -> In q (p_array o)).
Proof.
  intros Hn. unfold sieve_iZ.
  replace (n <? 10) with false by (symmetry; apply Z.ltb_ge; lia).
  assert (Hx : wrap64 (n / 6 + 1) = n / 6 + 1).
  { apply wrap64_small. rewrite U64_value in *.
    pose proof (Z.div_pos n 6 ltac:(lia) ltac:(lia)).
    pose proof (Z.div_mod n 6 ltac:(lia)). pose proof (Z.mod_pos_bound n 6 ltac:(lia)). lia. }
  cbv zeta. rewrite Hx. eexists. split; [reflexivity|].
  pose proof (sieve_iZ_loop_inv n (n / 6 + 1) Hn eq_refl) as Hinv.
  destruct (drop_overshoot_correct n _ _ _ ltac:(lia) Hinv) as (H1 & H2 & H3 & H4 & H5).
  repeat split; auto.
  intros q Hq Hqn Hqc. apply H5; auto. lia.
Qed.

(** C6: for every n >= 10 (a uint64_t), the last element of a list that
    sieve_iZ(n) returns is at most n and is a prime number; and for n < 2^32,
    where the count of the primes fits the [int]s of the prime list, sieve_iZ(n)
    does return a list. *)
Theorem sieve_iZ_last_prime (n : Z) :
  10 <= n < U64 ->
  (forall o, sieve_iZ n = Some o -> last_prime o <= n /\ Z.prime (last_prime o)) /\
  (n < 2 ^ 32 -> exists o, sieve_iZ n = Some o).
Proof.
  intros Hn. destruct (sieve_iZ_correct n Hn) as (o & Ho & [t Ht] & Hp & Hle & _).
  split.
  - intros o' Ho'. rewrite Ho in Ho'. injection Ho' as <-.
    assert (Hin : In (last_prime o) (p_array o)).
    { unfold last_prime. apply last_in. rewrite Ht. discriminate. }
    rewrite Forall_forall in Hp, Hle. split; [apply Hle | apply Hp]; exact Hin.
  - intros _. exists o. exact Ho.
Qed.

Lemma sieve_iZ_last_prime_witness :
  exists o, sieve_iZ 30 = Some o /\ last_prime o <= 30 /\ Z.prime (last_prime o).
Proof.
  assert (Hn : 10 <= 30 < U64) by (split; [lia | reflexivity]).
  destruct (sieve_iZ_last_prime 30 Hn) as [Hlast Hret].
  destruct (Hret ltac:(reflexivity)) as [o Ho].
  exists o. split; [exact Ho|]. exact (Hlast o Ho).
Defined.

(** ** The sieves on small inputs *)

(** C1 (what the code does instead): the loop of sieve_iZ stops before
    x = n/6 + 1, the index of n when n = 6k + 5; sieve_iZ(11), and sieve_iZm(11)
    which hands over to it, end at 7, while the classical sieve lists 11. *)
Theorem sieve_iZ_11_misses_11 :
  option_map p_array (sieve_iZ 11) = Some [2; 3; 5; 7] /\
  option_map p_array (sieve_iZm 11) = Some [2; 3; 5; 7] /\
  option_map p_array (classic_sieve_eratosthenes 11) = Some [2; 3; 5; 7; 11] /\
  Z.prime 11.
Proof.
  repeat split; try (vm_compute; reflexivity); try lia.
  apply is_prime_b_sound. vm_compute. reflexivity.
Qed.

(** ** iZ_next_prime *)

(** C3 (what the code does instead): from base = 18 the scan starts at
    x = base/6 + 1 = 4, whose first candidate is 23; the candidate
    6 * 3 + 1 = 19 of x = base/6 is never tested, and iZ_next_prime returns
    23 although the test accepts the prime 19. *)
Theorem iZ_next_prime_18_skips_19 :
  iZ_next_prime exact_primality_test 18 true = Some 23 /\
  18 < 19 < 23 /\ Z.prime 19 /\ exact_primality_test 19 TEST_ROUNDS = 2.
Proof.
  repeat split; try (vm_compute; reflexivity); try lia.
  apply is_prime_b_sound. vm_compute. reflexivity.
Qed.

(** ** The deterministic sieve of sieve_vx *)

Section VxMarking.

Variables (vx y root_limit : Z) (is_large_limit : bool).

(** Marking only clears bits. *)
Lemma vx_mark_root_primes_stays_clear (ps : list Z) (s : BITMAP * BITMAP) (i : Z) :
  (bitmap_get_bit (fst s) i = false ->
   bitmap_get_bit (fst (vx_mark_root_primes ps vx y root_limit is_large_limit s)) i = false) /\
  (bitmap_get_bit (snd s) i = false ->
   bitmap_get_bit (snd (vx_mark_root_primes ps vx y root_limit is_large_limit s)) i = false).
Proof.
  revert s. induction ps as [|p ps IH]; intros s; [cbn; auto|].
  cbn [vx_mark_root_primes].
  destruct (Z.rem vx p =? 0); [apply IH|].
  destruct (negb is_large_limit && (root_limit <? p)); [auto|].
  destruct s as [x5 x7].
  match goal with |- context [vx_mark_root_primes ps _ _ _ _ ?t] => specialize (IH t) end.
  destruct IH as [IH5 IH7].
  split; intros H; [apply IH5 | apply IH7]; cbn [fst snd] in *;
    unfold bitmap_get_bit, bitmap_clear_mod_p in *; cbn [data];
    match goal with |- (if ?c then _ else _) = _ => destruct c end; auto.
Qed.

(** A set bit whose candidate no marking prime divides stays set. *)
Lemma vx_mark_root_primes_keeps (ps : list Z) (s : BITMAP * BITMAP) (i : Z) :
  (forall p, In p ps -> Z.rem vx p <> 0 ->
             (is_large_limit = false -> p <= root_limit) ->
             5 <= p < U64 /\ (p mod 6 = 1 \/ p mod 6 = 5)) ->
  (bitmap_get_bit (fst s) i = true ->
   (forall p, In p ps -> (is_large_limit = false -> p <= root_limit) ->
              ~ (p | 6 * (y * vx + i) + (-1))) ->
   bitmap_get_bit (fst (vx_mark_root_primes ps vx y root_limit is_large_limit s)) i = true) /\
  (bitmap_get_bit (snd s) i = true ->
   (forall p, In p ps -> (is_large_limit = false -> p <= root_limit) ->
              ~ (p | 6 * (y * vx + i) + 1)) ->
   bitmap_get_bit (snd (vx_mark_root_primes ps vx y root_limit is_large_limit s)) i = true).
Proof.
  revert s. induction ps as [|p ps IH]; intros s Hps; [cbn; auto|].
  cbn [vx_mark_root_primes].
  assert (Hps' : forall q, In q ps -> Z.rem vx q <> 0 ->
                           (is_large_limit = false -> q <= root_limit) ->
                           5 <= q < U64 /\ (q mod 6 = 1 \/ q mod 6 = 5)).
  { intros q Hq. apply Hps. right. exact Hq. }
  destruct (Z.rem vx p =? 0) eqn:Erem.
  { destruct (IH s Hps') as [IH5 IH7].
    split; intros Hb Hnd; [apply IH5 | apply IH7]; auto;
      intros q Hq; apply Hnd; right; exact Hq. }
  apply Z.eqb_neq in Erem.
  destruct (negb is_large_limit && (root_limit <? p)) eqn:Ebrk; [auto|].
  assert (Hle : is_large_limit = false -> p <= root_limit).
  { intros ->. cbn in Ebrk. apply Z.ltb_ge in Ebrk. exact Ebrk. }
  destruct (Hps p (or_introl eq_refl) Erem Hle) as [Hp Hmod].
  destruct s as [x5 x7].
  match goal with |- context [vx_mark_root_primes ps _ _ _ _ ?t] => destruct (IH t Hps') as [IH5 IH7] end.
  split; intros Hb Hnd; [apply IH5 | apply IH7];
    try (intros q Hq; apply Hnd; right; exact Hq);
    cbn [fst snd] in *; unfold bitmap_get_bit, bitmap_clear_mod_p in *; cbn [data];
    match goal with |- (if ?c then _ else _) = _ => destruct c eqn:Ec end; auto; exfalso;
    apply andb_prop in Ec; destruct Ec as [_ Ec]; apply Z.eqb_eq in Ec;
    apply Z.mod_divide in Ec; try lia; destruct Ec as [c Hc].
  - destruct (solve_for_x_gmp_correct (-1) p vx y (or_intror eq_refl) Hp Hmod)
      as (_ & _ & [d Hd] & _).
    apply (Hnd p (or_introl eq_refl) Hle). exists (6 * c + d). lia.
  - destruct (solve_for_x_gmp_correct 1 p vx y (or_introl eq_refl) Hp Hmod)
      as (_ & _ & [d Hd] & _).
    apply (Hnd p (or_introl eq_refl) Hle). exists (6 * c + d). lia.
Qed.

End VxMarking.

(** ** sieve_vx: the walk of the emitted gaps *)

Lemma prefix_sums_gaps_from (base : Z) (cs : list Z) :
  prefix_sums base (gaps_from base cs) = cs.
Proof.
  revert base. induction cs as [|c cs IH]; intros base; cbn [gaps_from prefix_sums].
  - reflexivity.
  - replace (base + (c - base)) with c by ring. rewrite IH. reflexivity.
Qed.

Lemma last_cons_default (a d : Z) (l : list Z) : last (a :: l) d = last l a.
Proof.
  revert a d. induction l as [|b l IH]; intros a d; [reflexivity|].
  change (last (a :: b :: l) d) with (last (b :: l) d). rewrite !IH. reflexivity.
Qed.

Lemma gaps_from_app (base c : Z) (cs : list Z) :
  gaps_from base (cs ++ [c]) = gaps_from base cs ++ [c - last cs base].
Proof.
  revert base. induction cs as [|a cs IH]; intros base.
  - reflexivity.
  - cbn [app gaps_from]. rewrite IH, last_cons_default. reflexivity.
Qed.

Lemma last_app_one (cs : list Z) (c d : Z) : last (cs ++ [c]) d = c.
Proof. apply last_last. Qed.

Lemma sorted_le_last (b : Z) (l : list Z) :
  StronglySorted Z.lt (b :: l) -> Forall (fun c => c <= last l b) (b :: l).
Proof.
  revert b. induction l as [|a l IH]; intros b H.
  - constructor; [cbn; lia|constructor].
  - inversion H as [|? ? Hs Hb]; subst. specialize (IH a Hs).
    rewrite last_cons_default. constructor.
    + inversion Hb; subst. inversion IH; subst. lia.
    + exact IH.
Qed.

Lemma even_wrap16 (g : Z) : Z.even (wrap16 g) = Z.even g.
Proof.
  unfold wrap16. rewrite Z.mod_eq by lia.
  rewrite Z.even_sub, Z.even_mul. cbn [Z.even orb].
  destruct (Z.even g); reflexivity.
Qed.

Section Emission.

Variable test : Z -> Z -> Z.
Variables (x5 x7 : BITMAP) (yvx vx : Z) (large : bool).

Lemma emit_inv_advance (cur d : Z) (s : Z * VX_OBJ) :
  0 <= d -> Z.even d = true ->
  emit_inv test x5 x7 yvx vx large cur s -> emit_inv test x5 x7 yvx vx large (cur + d) (fst s + d, snd s).
Proof.
  intros Hd He (cands & H1 & H2 & H3 & H4 & H5 & H6 & H7).
  exists cands. cbn [fst snd]. repeat split; auto; try lia.
  rewrite Z.even_add, H6, He. reflexivity.
Qed.

Lemma vx_emit_one_inv (i x : Z) (s : Z * VX_OBJ) :
  i = 1 \/ i = -1 -> 1 <= x <= vx -> 0 < fst s ->
  emit_inv test x5 x7 yvx vx large (iZ_gmp (yvx + x) i) s ->
  emit_inv test x5 x7 yvx vx large (iZ_gmp (yvx + x) i)
    (vx_emit_one test (if i =? 1 then x7 else x5) yvx large i x s).
Proof.
  intros Hi Hx Hpos Hinv. destruct s as [gap o]. unfold vx_emit_one.
  destruct (bitmap_get_bit (if i =? 1 then x7 else x5) x) eqn:Ebit; [|exact Hinv].
  destruct (if large then negb (test (iZ_gmp (yvx + x) i) 25 =? 0) else true) eqn:Etest;
    [|exact Hinv].
  destruct Hinv as (cands & H1 & H2 & H3 & H4 & H5 & H6 & H7). cbn [fst snd] in *.
  set (c := iZ_gmp (yvx + x) i) in *.
  assert (Hgap : gap = c - last cands (iZ_gmp yvx 1)) by lia.
  exists (cands ++ [c]). cbn [fst snd]. repeat split.
  - unfold vx_append_p_gap. cbn [p_gaps].
    rewrite gaps_from_app, map_app, H1, <- Hgap. reflexivity.
  - rewrite gaps_from_app. apply Forall_app. split; [exact H2|].
    constructor; [|constructor]. rewrite <- Hgap. split; [lia|exact H6].
  - change (iZ_gmp yvx 1 :: cands ++ [c]) with ((iZ_gmp yvx 1 :: cands) ++ [c]).
    apply StronglySorted_app_one; [exact H3|].
    eapply Forall_impl; [|apply sorted_le_last, H3]. cbv beta. intros p Hp. lia.
  - rewrite last_last. lia.
  - lia.
  - apply Forall_app. split; [exact H7|]. constructor; [|constructor].
    exists x, i. repeat split; auto; try lia.
    intros ->. fold c. intros E. rewrite E in Etest. discriminate.
Qed.

Lemma vx_emit_body_inv (x : Z) (s : Z * VX_OBJ) :
  1 <= x <= vx ->
  emit_inv test x5 x7 yvx vx large (iZ_gmp (yvx + x - 1) 1) s ->
  emit_inv test x5 x7 yvx vx large (iZ_gmp (yvx + (x + 1) - 1) 1) (vx_emit_body test x5 x7 yvx large x s).
Proof.
  intros Hx Hinv. unfold vx_emit_body.
  assert (H0 : 0 <= fst s) by (destruct Hinv as (? & _ & _ & _ & _ & H & _); exact H).
  apply (emit_inv_advance _ 4) in Hinv; [|lia|reflexivity].
  replace (iZ_gmp (yvx + x - 1) 1 + 4) with (iZ_gmp (yvx + x) (-1)) in Hinv
    by (unfold iZ_gmp; cbn [Z.ltb Z.compare]; lia).
  apply (vx_emit_one_inv (-1) x) in Hinv; [|right; reflexivity|exact Hx|cbn [fst]; lia].
  cbn [Z.eqb] in Hinv.
  set (s1 := vx_emit_one test x5 yvx large (-1) x (fst s + 4, snd s)) in *.
  assert (H1 : 0 <= fst s1) by (destruct Hinv as (? & _ & _ & _ & _ & H & _); exact H).
  apply (emit_inv_advance _ 2) in Hinv; [|lia|reflexivity].
  replace (iZ_gmp (yvx + x) (-1) + 2) with (iZ_gmp (yvx + x) 1) in Hinv
    by (unfold iZ_gmp; cbn [Z.ltb Z.compare]; lia).
  apply (vx_emit_one_inv 1 x) in Hinv; [|left; reflexivity|exact Hx|cbn [fst]; lia].
  cbn [Z.eqb Pos.eqb] in Hinv.
  replace (yvx + (x + 1) - 1) with (yvx + x) by ring. exact Hinv.
Qed.

Lemma vx_emit_loop_inv (o : VX_OBJ) :
  0 <= vx ->
  p_gaps o = [] ->
  emit_inv test x5 x7 yvx vx large (iZ_gmp (yvx + vx) 1)
    (for_loop 1 (vx + 1) (vx_emit_body test x5 x7 yvx large) (0, o)).
Proof.
  intros Hvx Hnil.
  replace (yvx + vx) with (yvx + (vx + 1) - 1) by ring.
  apply (for_loop_ind (fun x s => emit_inv test x5 x7 yvx vx large (iZ_gmp (yvx + x - 1) 1) s)); [lia| |].
  - exists []. cbn [fst snd gaps_from map last].
    split; [exact Hnil|]. split; [constructor|]. split; [constructor; constructor|].
    split; [replace (yvx + 1 - 1) with yvx by ring; lia|].
    split; [lia|]. split; [reflexivity|constructor].
  - intros x s Hx. apply vx_emit_body_inv. lia.
Qed.

End Emission.

Lemma for_loop_empty {S : Type} (lo hi : Z) (body : Z -> S -> S) (s : S) :
  hi <= lo -> for_loop lo hi body s = s.
Proof.
  intros H. unfold for_loop. replace (Z.to_nat (hi - lo)) with O by lia. reflexivity.
Qed.

(** sieve_vx on a fresh gap list: every stored gap is even
    and is the accumulated gap reduced modulo 2^16 (at most 65535); the
    accumulated gaps are positive and even, and their running prefix sums
    added to base = iZ(y vx, +1) are a strictly increasing sequence of
    candidates iZ(y vx + x, +-1), 1 <= x <= vx, of the slab, each with its bit
    set in the working bitmaps and, in large mode, each accepted by the
    25-round test; when no accumulated gap exceeds 65535 the stored gaps are
    the accumulated gaps and walk through these candidates. *)
Theorem sieve_vx_gap_walk (test : Z -> Z -> Z) (vo : VX_OBJ) (a : VX_ASSETS) (o' : VX_OBJ) :
  p_gaps vo = [] ->
  sieve_vx test vo a = Some o' ->
  exists roots cands,
    root_primes a = Some roots /\
    p_gaps o' =
      map wrap16 (gaps_from (iZ_gmp (mpz_set_str (VxObj.y vo) * VxObj.vx vo) 1) cands) /\
    Forall (fun g => Z.even g = true /\ 0 <= g <= 65535) (p_gaps o') /\
    Forall (fun g => 0 < g /\ Z.even g = true)
      (gaps_from (iZ_gmp (mpz_set_str (VxObj.y vo) * VxObj.vx vo) 1) cands) /\
    prefix_sums (iZ_gmp (mpz_set_str (VxObj.y vo) * VxObj.vx vo) 1)
      (gaps_from (iZ_gmp (mpz_set_str (VxObj.y vo) * VxObj.vx vo) 1) cands) = cands /\
    StronglySorted Z.lt (iZ_gmp (mpz_set_str (VxObj.y vo) * VxObj.vx vo) 1 :: cands) /\
    Forall (fun c =>
              c <= iZ_gmp (mpz_set_str (VxObj.y vo) * VxObj.vx vo + VxObj.vx vo) 1 /\
              emitted_ok test
                (fst (vx_working_bitmaps (VxObj.vx vo) (mpz_set_str (VxObj.y vo)) (p_array roots) a))
                (snd (vx_working_bitmaps (VxObj.vx vo) (mpz_set_str (VxObj.y vo)) (p_array roots) a))
                (mpz_set_str (VxObj.y vo) * VxObj.vx vo) (VxObj.vx vo)
                (VxObj.vx vo <?
                   Z.sqrt (iZ_gmp (mpz_set_str (VxObj.y vo) * VxObj.vx vo + VxObj.vx vo) 1))
                c) cands /\
    (Forall (fun g => g <= 65535)
       (gaps_from (iZ_gmp (mpz_set_str (VxObj.y vo) * VxObj.vx vo) 1) cands) ->
     p_gaps o' = gaps_from (iZ_gmp (mpz_set_str (VxObj.y vo) * VxObj.vx vo) 1) cands /\
     prefix_sums (iZ_gmp (mpz_set_str (VxObj.y vo) * VxObj.vx vo) 1) (p_gaps o') = cands).
Proof.
  intros Hnil Hrun. unfold sieve_vx in Hrun.
  destruct (root_primes a) as [roots|] eqn:Eroots; [|discriminate].
  cbv zeta in Hrun.
  set (vx := VxObj.vx vo) in *. set (y := mpz_set_str (VxObj.y vo)) in *.
  set (large := vx <? Z.sqrt (iZ_gmp (y * vx + vx) 1)) in *.
  destruct (vx_working_bitmaps vx y (p_array roots) a) as [x5 x7] eqn:Ewb.
  cbn [fst snd]. injection Hrun as Ho'.
  set (base := iZ_gmp (y * vx) 1) in *.
  assert (Hinv : exists cands,
            p_gaps o' = map wrap16 (gaps_from base cands) /\
            Forall (fun g => 0 < g /\ Z.even g = true) (gaps_from base cands) /\
            StronglySorted Z.lt (base :: cands) /\
            Forall (emitted_ok test x5 x7 (y * vx) vx large) cands).
  { destruct (Z_le_gt_dec 0 vx) as [Hvx|Hvx].
    - destruct (vx_emit_loop_inv test x5 x7 (y * vx) vx large vo Hvx Hnil)
        as (cands & H1 & H2 & H3 & _ & _ & _ & H7).
      exists cands. rewrite Ho' in H1. auto.
    - rewrite for_loop_empty in Ho' by lia. cbn [snd] in Ho'. subst o'.
      exists []. cbn [gaps_from map]. split; [exact Hnil|].
      split; [constructor|]. split; [constructor; constructor|constructor]. }
  destruct Hinv as (cands & H1 & H2 & H3 & H7).
  exists roots, cands. rewrite Ewb. cbn [fst snd].
  split; [reflexivity|]. split; [exact H1|].
  split; [|split; [exact H2|split; [apply prefix_sums_gaps_from|split; [exact H3|split]]]].
  - rewrite H1. apply Forall_map. eapply Forall_impl; [|exact H2]. cbv beta.
    intros g [_ Hg]. rewrite even_wrap16. split; [exact Hg|apply wrap16_range].
  - eapply Forall_impl; [|exact H7]. cbv beta. intros c Hc. split; [|exact Hc].
    destruct Hc as (x & i & Hx & Hi & -> & _).
    unfold iZ_gmp. destruct Hi as [-> | ->]; cbn [Z.ltb Z.compare]; lia.
  - intros Hsmall.
    assert (E : map wrap16 (gaps_from base cands) = gaps_from base cands).
    { rewrite <- (map_id (gaps_from base cands)) at 2. apply map_ext_in.
      intros g Hg. rewrite Forall_forall in H2, Hsmall.
      unfold wrap16. apply Z.mod_small. pose proof (H2 g Hg). pose proof (Hsmall g Hg). lia. }
    rewrite H1, E. split; [reflexivity|apply prefix_sums_gaps_from].
Qed.

Lemma sieve_vx_gap_walk_witness :
  exists o' roots cands,
    sieve_vx exact_primality_test (VxObj.mk 35 SlabIndex.y_1 []) (vx_assets_init 35) = Some o' /\
    root_primes (vx_assets_init 35) = Some roots /\
    p_gaps o' = map wrap16 (gaps_from (iZ_gmp (1 * 35) 1) cands) /\
    StronglySorted Z.lt (iZ_gmp (1 * 35) 1 :: cands).
Proof.
  destruct (sieve_vx exact_primality_test (VxObj.mk 35 SlabIndex.y_1 []) (vx_assets_init 35))
    as [o'|] eqn:Hrun.
  - destruct (sieve_vx_gap_walk exact_primality_test (VxObj.mk 35 SlabIndex.y_1 [])
                (vx_assets_init 35) o' eq_refl Hrun)
      as (roots & cands & H0 & H1 & _ & _ & _ & H3 & _).
    exists o', roots, cands.
    split; [reflexivity|]. split; [exact H0|]. split; [exact H1|exact H3].
  - exfalso. vm_compute in Hrun. discriminate Hrun.
Defined.

(** C4 (what the code does instead): vx_init(35, "0") allocates 35 / 2 = 17
    cells for the gaps.  The square root of iZ(35, +1) = 211 is 14 <= vx, so
    no primality test is run, and sieve_vx appends a gap for each of the
    eighteen primes 17, 19, 23, ..., 89, whose indices x <= 15 are all below
    vx: the eighteenth gap is written past the cells, whatever the test would
    answer. *)
Theorem sieve_vx_35_slab_0_past_cells (test : Z -> Z -> Z) :
  vx_init 35 SlabIndex.y_0 = Some (VxObj.mk 35 SlabIndex.y_0 []) /\
  (35 <? Z.sqrt (iZ_gmp (mpz_set_str SlabIndex.y_0 * 35 + 35) 1)) = false /\
  35 / 2 = 17 /\
  sieve_vx_in_cells test (VxObj.mk 35 SlabIndex.y_0 []) (vx_assets_init 35) = VxPastCells /\
  exists o',
    sieve_vx test (VxObj.mk 35 SlabIndex.y_0 []) (vx_assets_init 35) = Some o' /\
    firstn 18 (prefix_sums (iZ_gmp (mpz_set_str SlabIndex.y_0 * 35) 1) (p_gaps o')) =
      [17; 19; 23; 29; 31; 37; 41; 43; 47; 53; 59; 61; 67; 71; 73; 79; 83; 89] /\
    Forall (fun c => c <= iZ_gmp (mpz_set_str SlabIndex.y_0 * 35 + 15) (-1))
      [17; 19; 23; 29; 31; 37; 41; 43; 47; 53; 59; 61; 67; 71; 73; 79; 83; 89].
Proof.
  split; [reflexivity|]. split; [reflexivity|]. split; [reflexivity|].
  split; [vm_compute; reflexivity|].
  eexists. split; [vm_compute; reflexivity|]. split; [vm_compute; reflexivity|].
  repeat constructor; discriminate.
Qed.

(** ** sieve_vx: the first gap of a slab the sieve alone decides *)

Section FirstGap.

Variable test : Z -> Z -> Z.
Variables (x5 x7 : BITMAP) (yvx vx k : Z).
Hypothesis Hclear : forall x, 1 <= x <= 3 ->
  bitmap_get_bit x5 x = false /\ bitmap_get_bit x7 x = false.
Hypothesis Hk : 4 <= k <= vx.
Hypothesis Hk16 : 6 * k - 2 <= 65535.
Hypothesis Hset : bitmap_get_bit x5 k = true.

Lemma vx_emit_one_keeps_first (bits : BITMAP) (i x : Z) (s : Z * VX_OBJ) :
  (exists g rest, p_gaps (snd s) = g :: rest /\ 22 <= g <= 6 * k - 2) ->
  exists g rest, p_gaps (snd (vx_emit_one test bits yvx false i x s)) = g :: rest /\
                 22 <= g <= 6 * k - 2.
Proof.
  intros (g & rest & Hg & Hr). destruct s as [gap o]. unfold vx_emit_one.
  destruct (bitmap_get_bit bits x); cbn [snd] in *.
  - unfold vx_append_p_gap. cbn [p_gaps]. rewrite Hg.
    exists g, (rest ++ [wrap16 gap]). split; [reflexivity|exact Hr].
  - exists g, rest. split; assumption.
Qed.

Lemma vx_emit_one_small (bits : BITMAP) (i x gap : Z) (o : VX_OBJ) :
  vx_emit_one test bits yvx false i x (gap, o) =
  if bitmap_get_bit bits x then (0, vx_append_p_gap o gap) else (gap, o).
Proof. unfold vx_emit_one. destruct (bitmap_get_bit bits x); reflexivity. Qed.

Lemma vx_emit_body_first_gap (x : Z) (s : Z * VX_OBJ) :
  1 <= x < vx + 1 ->
  first_gap_inv k x s ->
  first_gap_inv k (x + 1) (vx_emit_body test x5 x7 yvx false x s).
Proof.
  intros Hx [(Hxk & Hnil & Hgap) | Hfirst].
  - destruct s as [gap o]. cbn [fst snd] in *. subst gap.
    unfold vx_emit_body. cbn [fst snd]. rewrite (vx_emit_one_small x5).
    destruct (bitmap_get_bit x5 x) eqn:E5.
    + right. apply vx_emit_one_keeps_first. cbn [fst snd].
      unfold vx_append_p_gap. cbn [p_gaps]. rewrite Hnil. cbn [app].
      exists (wrap16 (6 * (x - 1) + 4)), []. split; [reflexivity|].
      assert (Hx4 : 4 <= x).
      { destruct (Z_le_gt_dec 4 x) as [|Hlt]; [assumption|].
        destruct (Hclear x ltac:(lia)) as [Hc _]. congruence. }
      unfold wrap16. rewrite Z.mod_small; lia.
    + assert (Hxk' : x < k).
      { destruct (Z.eq_dec x k) as [->|]; [congruence|lia]. }
      cbn [fst snd]. rewrite (vx_emit_one_small x7).
      destruct (bitmap_get_bit x7 x) eqn:E7.
      * right. cbn [snd]. unfold vx_append_p_gap. cbn [p_gaps]. rewrite Hnil. cbn [app].
        exists (wrap16 (6 * (x - 1) + 4 + 2)), []. split; [reflexivity|].
        assert (Hx4 : 4 <= x).
        { destruct (Z_le_gt_dec 4 x) as [|Hlt]; [assumption|].
          destruct (Hclear x ltac:(lia)) as [_ Hc]. congruence. }
        unfold wrap16. rewrite Z.mod_small; lia.
      * left. cbn [fst snd]. split; [lia|split; [exact Hnil|lia]].
  - right. unfold vx_emit_body. apply vx_emit_one_keeps_first. cbn [snd].
    apply vx_emit_one_keeps_first. cbn [snd]. exact Hfirst.
Qed.

Lemma vx_emit_first_gap (o : VX_OBJ) :
  p_gaps o = [] ->
  exists g rest,
    p_gaps (snd (for_loop 1 (vx + 1) (vx_emit_body test x5 x7 yvx false) (0, o))) = g :: rest /\
    22 <= g <= 6 * k - 2.
Proof.
  intros Hnil.
  assert (H : first_gap_inv k (vx + 1)
                (for_loop 1 (vx + 1) (vx_emit_body test x5 x7 yvx false) (0, o))).
  { apply (for_loop_ind (first_gap_inv k)); [lia| |].
    - left. cbn [fst snd]. split; [lia|split; [exact Hnil|lia]].
    - intros x s Hx. apply vx_emit_body_first_gap. lia. }
  destruct H as [(Hle & _) | H]; [lia|exact H].
Qed.

End FirstGap.

(** The root primes sieve_iZ hands to the assets are of the form 6x-1 or
    6x+1. *)
Lemma sieve_iZ_root_primes (n : Z) (o : PRIMES_OBJ) :
  10 <= n < U64 -> sieve_iZ n = Some o ->
  forall p, In p (skipn 2 (p_array o)) ->
            Z.prime p /\ 5 <= p < U64 /\ (p mod 6 = 1 \/ p mod 6 = 5).
Proof.
  intros Hn Ho p Hin.
  destruct (sieve_iZ_correct n Hn) as (o' & Ho' & [t Ht] & Hp & Hle & Hso & _).
  rewrite Ho in Ho'. inversion Ho'; subst o'. rewrite Ht in *. cbn [skipn] in Hin.
  inversion Hso as [|? ? Hso2 H2]; subst. inversion Hso2 as [|? ? _ H3]; subst.
  rewrite Forall_forall in Hp, Hle, H3.
  assert (Hprime : Z.prime p) by (apply Hp; right; right; exact Hin).
  assert (H3p : 3 < p) by (apply H3, Hin).
  assert (Hpn : p <= n) by (apply Hle; right; right; exact Hin).
  assert (H5 : 5 <= p).
  { destruct (Z.eq_dec p 4) as [->|]; [|lia].
    destruct Hprime as [_ Hq]. exfalso. apply (Hq 2); [lia|]. exists 2. lia. }
  split; [exact Hprime|]. split; [lia|]. apply prime_mod_6; assumption.
Qed.

(** In a slab the sieve alone decides, with the indices 1, 2, 3 clear in the
    base bitmaps and a set bit at [k] that no root prime marks, the first gap
    is emitted between x = 4 and x = k. *)
Lemma sieve_vx_first_gap (test : Z -> Z -> Z) (vo : VX_OBJ) (a : VX_ASSETS)
  (roots : PRIMES_OBJ) (k : Z) :
  root_primes a = Some roots ->
  p_gaps vo = [] ->
  (VxObj.vx vo <? Z.sqrt (iZ_gmp (mpz_set_str (VxObj.y vo) * VxObj.vx vo + VxObj.vx vo) 1)) = false ->
  (forall x, 1 <= x <= 3 ->
             bitmap_get_bit (base_x5 a) x = false /\ bitmap_get_bit (base_x7 a) x = false) ->
  bitmap_get_bit (base_x5 a) k = true ->
  4 <= k <= VxObj.vx vo -> 6 * k - 2 <= 65535 ->
  (forall p, In p (skipn 2 (p_array roots)) ->
             5 <= p < U64 /\ (p mod 6 = 1 \/ p mod 6 = 5)) ->
  (forall p, In p (skipn 2 (p_array roots)) ->
             p <= Z.sqrt (iZ_gmp (mpz_set_str (VxObj.y vo) * VxObj.vx vo + VxObj.vx vo) 1) ->
             ~ (p | 6 * (mpz_set_str (VxObj.y vo) * VxObj.vx vo + k) + -1)) ->
  exists o' g rest,
    sieve_vx test vo a = Some o' /\ p_gaps o' = g :: rest /\ 22 <= g <= 6 * k - 2.
Proof.
  intros Hroots Hnil Hsmall Hclear Hset Hk Hk16 Hform Hnd.
  unfold sieve_vx. rewrite Hroots. cbv zeta. rewrite Hsmall.
  unfold vx_working_bitmaps. cbv zeta. rewrite Hsmall.
  set (vx := VxObj.vx vo) in *. set (y := mpz_set_str (VxObj.y vo)) in *.
  set (root_limit := Z.sqrt (iZ_gmp (y * vx + vx) 1)) in *.
  set (base := (bitmap_clone (base_x5 a), bitmap_clone (base_x7 a))).
  pose proof (fun i => vx_mark_root_primes_stays_clear vx y root_limit false
                         (skipn 2 (p_array roots)) base i) as Hstay.
  destruct (vx_mark_root_primes_keeps vx y root_limit false
              (skipn 2 (p_array roots)) base k) as [Hkeep _].
  { intros p Hp _ _. apply Hform, Hp. }
  destruct (vx_mark_root_primes (skipn 2 (p_array roots)) vx y root_limit false base)
    as [x5 x7].
  cbn [fst snd] in Hstay, Hkeep.
  assert (Hc' : forall x, 1 <= x <= 3 ->
            bitmap_get_bit x5 x = false /\ bitmap_get_bit x7 x = false).
  { intros x Hx. destruct (Hclear x Hx) as [H5 H7]. destruct (Hstay x) as [S5 S7].
    split; [apply S5, H5 | apply S7, H7]. }
  assert (Hs' : bitmap_get_bit x5 k = true).
  { apply Hkeep; [exact Hset|]. intros p Hp Hle. apply Hnd; auto. }
  destruct (vx_emit_first_gap test x5 x7 (y * vx) vx k Hc' Hk Hk16 Hs' vo Hnil)
    as (g & rest & Hg & Hr).
  eexists. exists g, rest. split; [reflexivity|]. split; assumption.
Qed.

(** The slab y = 0 of the default vx. *)
Lemma sieve_vx_VX6_slab_0 (test : Z -> Z -> Z) :
  exists o' g rest,
    sieve_vx test (VxObj.mk VX6 SlabIndex.y_0 []) (vx_assets_init VX6) = Some o' /\
    p_gaps o' = g :: rest /\ 22 <= g <= 3118.
Proof.
  assert (Hn : 10 <= VX6 < U64) by (split; [discriminate | reflexivity]).
  destruct (sieve_iZ_correct VX6 Hn) as (roots & Hroots & _).
  pose proof (sieve_iZ_root_primes VX6 roots Hn Hroots) as Hform.
  assert (Hbits : forall s, s = construct_iZm_segment VX6 (bitmap_create (VX6 + 10))
                                  (bitmap_create (VX6 + 10)) ->
            (forall x, 1 <= x <= 3 ->
               bitmap_get_bit (fst s) x = false /\ bitmap_get_bit (snd s) x = false) /\
            bitmap_get_bit (fst s) 520 = true).
  { intros s ->. split.
    - intros x Hx. assert (Hc : x = 1 \/ x = 2 \/ x = 3) by lia.
      destruct Hc as [-> | [-> | ->]]; split; vm_compute; reflexivity.
    - vm_compute. reflexivity. }
  unfold vx_assets_init. rewrite Hroots.
  destruct (construct_iZm_segment VX6 (bitmap_create (VX6 + 10)) (bitmap_create (VX6 + 10)))
    as [b5 b7] eqn:Eseg.
  destruct (Hbits (b5, b7) eq_refl) as [Hclear Hset]. cbn [fst snd] in Hclear, Hset.
  apply (sieve_vx_first_gap test _ _ roots 520); cbn [root_primes base_x5 base_x7 p_gaps VxObj.vx VxObj.y].
  - reflexivity.
  - reflexivity.
  - vm_compute. reflexivity.
  - exact Hclear.
  - exact Hset.
  - split; [lia | discriminate].
  - lia.
  - intros p Hp. destruct (Hform p Hp) as (_ & H5 & Hm). split; assumption.
  - intros p Hp Hle. destruct (Hform p Hp) as (_ & H5 & _).
    change (mpz_set_str SlabIndex.y_0) with 0 in *.
    change (Z.sqrt (iZ_gmp (0 * VX6 + VX6) 1)) with 3114 in Hle.
    change (6 * (0 * VX6 + 520) + -1) with 3119.
    assert (Hprime : Z.prime 3119) by (apply is_prime_b_sound; vm_compute; reflexivity).
    destruct Hprime as [_ Hq]. apply Hq. lia.
Qed.

(** C7 (amended): running sieve_vx with y = "0" and vx = 1,616,615 walks from
    the base iZ(0, +1) = 1; nothing is emitted at x = 1, 2, 3, whose
    candidates 5, 7, 11, 13, 17, 19 are the primes that divide vx and are
    clear in the base bitmaps; the gap list is not empty and its first gap is
    at least 22 and at most 3118, so the first prefix sum is at least 23. *)
Theorem sieve_vx_slab_0_first_gap (test : Z -> Z -> Z) :
  vx_init VX6 SlabIndex.y_0 = Some (VxObj.mk VX6 SlabIndex.y_0 []) /\
  iZ_gmp (mpz_set_str SlabIndex.y_0 * VX6) 1 = 1 /\
  exists o' g rest,
    sieve_vx test (VxObj.mk VX6 SlabIndex.y_0 []) (vx_assets_init VX6) = Some o' /\
    p_gaps o' = g :: rest /\ 22 <= g <= 3118 /\
    23 <= iZ_gmp (mpz_set_str SlabIndex.y_0 * VX6) 1 + g.
Proof.
  split; [reflexivity|]. split; [reflexivity|].
  destruct (sieve_vx_VX6_slab_0 test) as (o' & g & rest & Ho & Hg & Hr).
  exists o', g, rest. split; [exact Ho|]. split; [exact Hg|]. split; [exact Hr|].
  change (iZ_gmp (mpz_set_str SlabIndex.y_0 * VX6) 1) with 1. lia.
Qed.

(** C7 (as stated): the first five gaps are not 4, 2, 4, 2, 4. *)
Lemma sieve_vx_slab_0_not_4_2_4_2_4 :
  ~ (exists o',
       sieve_vx exact_primality_test (VxObj.mk VX6 SlabIndex.y_0 []) (vx_assets_init VX6)
         = Some o' /\
       firstn 5 (p_gaps o') = [4; 2; 4; 2; 4]).
Proof.
  intros (o' & Ho & Hf).
  destruct (sieve_vx_VX6_slab_0 exact_primality_test) as (o'' & g & rest & Ho' & Hg & Hr).
  rewrite Ho in Ho'. injection Ho' as <-. rewrite Hg in Hf.
  cbn [firstn] in Hf. injection Hf as Hg4 _. lia.
Qed.

(** ** The prime-list file *)

Lemma SHA256_length (bs : list byte) : length (SHA256.SHA256 bs) = 32%nat.
Proof.
  unfold SHA256.SHA256. destruct (SHA256.digest_state (map Z_of_byte bs)).
  cbn [SHA256.ha SHA256.hb SHA256.hc SHA256.hd SHA256.he SHA256.hf SHA256.hg SHA256.hh].
  rewrite !length_app. unfold SHA256.be32. rewrite !length_map. reflexivity.
Qed.

Lemma byte_of_Z_mod (z : Z) : byte_of_Z (z mod 256) = byte_of_Z z.
Proof. unfold byte_of_Z. rewrite Z.mod_mod by lia. reflexivity. Qed.

Lemma le_bytes_le_value (bs : list byte) :
  le_bytes (length bs) (le_value bs) = bs.
Proof.
  induction bs as [|b bs IH]; [reflexivity|].
  cbn [length le_value le_bytes]. pose proof (Z_of_byte_range b) as Hb.
  f_equal.
  - rewrite <- byte_of_Z_mod.
    replace (Z_of_byte b + 256 * le_value bs) with (Z_of_byte b + le_value bs * 256) by lia.
    rewrite Z.mod_add by lia.
    rewrite byte_of_Z_mod. apply byte_of_Z_of_byte.
  - replace ((Z_of_byte b + 256 * le_value bs) / 256) with (le_value bs); [exact IH|].
    apply (Z.div_unique _ 256 _ (Z_of_byte b)); lia.
Qed.

Lemma body_bytes_length (ps : list Z) : length (body_bytes ps) = (8 * length ps)%nat.
Proof.
  unfold body_bytes. induction ps as [|p ps IH]; [reflexivity|].
  cbn [flat_map]. rewrite length_app, le_bytes_length, IH. cbn [length]. lia.
Qed.

Lemma cells_body_bytes (ps : list Z) :
  Forall (fun p => 0 <= p < U64) ps -> cells (length ps) (body_bytes ps) = ps.
Proof.
  induction 1 as [|p ps Hp _ IH]; [reflexivity|].
  unfold body_bytes in *. cbn [length cells flat_map].
  rewrite firstn_app, le_bytes_length, Nat.sub_diag, firstn_O, app_nil_r.
  rewrite firstn_all2 by (rewrite le_bytes_length; lia).
  rewrite skipn_app, le_bytes_length, Nat.sub_diag, skipn_O.
  rewrite skipn_all2 by (rewrite le_bytes_length; lia). cbn [app].
  rewrite IH. f_equal. apply le_value_le_bytes_small. exact Hp.
Qed.

Lemma body_bytes_cells (n : nat) (bs : list byte) :
  length bs = (8 * n)%nat -> body_bytes (cells n bs) = bs.
Proof.
  revert bs. induction n as [|n IH]; intros bs Hlen.
  - destruct bs; [reflexivity|discriminate].
  - cbn [cells]. unfold body_bytes in *. cbn [flat_map].
    rewrite IH by (rewrite length_skipn; lia).
    replace 8%nat with (length (firstn 8 bs)) at 1 by (rewrite length_firstn; lia).
    rewrite le_bytes_le_value. apply firstn_skipn.
Qed.

Lemma int_of_bytes_le_bytes (c : Z) :
  0 <= c < 2 ^ 31 -> int_of_bytes (le_bytes 4 c) = c.
Proof.
  intros Hc. unfold int_of_bytes.
  rewrite le_value_le_bytes_small by (change (256 ^ Z.of_nat 4) with (2 ^ 32); lia).
  destruct (c <? 2 ^ 31) eqn:E; [reflexivity|]. apply Z.ltb_ge in E. lia.
Qed.

(** Reading a file made of the header for [n] cells, [8 n] bytes and 32 more
    bytes comes down to the hash check. *)
Lemma primes_obj_read_file_layout (n : nat) (body trailer : list byte) :
  (0 < n)%nat -> Z.of_nat n < 2 ^ 31 ->
  length body = (8 * n)%nat -> length trailer = 32%nat ->
  primes_obj_read_file (le_bytes 4 (Z.of_nat n) ++ body ++ trailer) =
  if list_eq_dec Byte.byte_eq_dec (SHA256.SHA256 body) trailer
  then ReadOk (PrimesObj.mk (cells n body) trailer) else ReadNull.
Proof.
  intros Hn Hn31 Hbody Htrailer. unfold primes_obj_read_file.
  assert (Hh : length (le_bytes 4 (Z.of_nat n)) = 4%nat) by apply le_bytes_length.
  replace (length (le_bytes 4 (Z.of_nat n) ++ body ++ trailer) <? 4)%nat with false
    by (symmetry; apply Nat.ltb_ge; rewrite length_app; lia).
  rewrite firstn_app, Hh, Nat.sub_diag, firstn_O, app_nil_r.
  rewrite firstn_all2 by lia.
  rewrite int_of_bytes_le_bytes by lia.
  replace (Z.of_nat n <=? 0) with false by (symmetry; apply Z.leb_gt; lia).
  rewrite Nat2Z.id.
  rewrite skipn_app, Hh, Nat.sub_diag, skipn_O. rewrite skipn_all2 by lia. cbn [app].
  replace (length (body ++ trailer) <? 8 * n + 32)%nat with false
    by (symmetry; apply Nat.ltb_ge; rewrite length_app; lia).
  rewrite firstn_app, Hbody, Nat.sub_diag, firstn_O, app_nil_r.
  rewrite firstn_all2 by lia.
  rewrite skipn_app, Hbody, Nat.sub_diag, skipn_O. rewrite skipn_all2 by lia. cbn [app].
  rewrite firstn_all2 by lia.
  unfold primes_obj_verify_hash, PrimesObj.p_count. cbn [p_array sha256].
  assert (Hc : length (cells n body) = n).
  { clear -n. revert body. induction n; intros; cbn [cells length]; auto. }
  rewrite Hc.
  replace (Z.of_nat n =? 0) with false by (symmetry; apply Z.eqb_neq; lia).
  rewrite body_bytes_cells by exact Hbody.
  destruct (list_eq_dec byte_eq_dec (SHA256.SHA256 body) trailer); reflexivity.
Qed.

Lemma alter_byte_length (i : nat) (b : byte) (l : list byte) :
  (i < length l)%nat -> length (alter_byte i b l) = length l.
Proof.
  intros Hi. unfold alter_byte. rewrite length_app. cbn [length].
  rewrite length_firstn, length_skipn. lia.
Qed.

Lemma nth_alter_byte (i : nat) (b d : byte) (l : list byte) :
  (i < length l)%nat -> nth i (alter_byte i b l) d = b.
Proof.
  intros Hi. unfold alter_byte.
  rewrite app_nth2 by (rewrite length_firstn; lia).
  rewrite length_firstn. replace (i - Nat.min i (length l))%nat with 0%nat by lia.
  reflexivity.
Qed.

(** On the file of [2; 3; 5; 7] with the first byte of the body altered, the
    two digests differ and primes_obj_read_file returns NULL. *)
Lemma primes_obj_tampered_body_example :
  primes_obj_read_file
    (le_bytes 4 4 ++ alter_byte 0 x03 (body_bytes [2; 3; 5; 7])
       ++ SHA256.SHA256 (body_bytes [2; 3; 5; 7])) = ReadNull.
Proof.
  rewrite (primes_obj_read_file_layout 4);
    [| lia | reflexivity | reflexivity | apply SHA256_length].
  destruct (list_eq_dec byte_eq_dec
              (SHA256.SHA256 (alter_byte 0 x03 (body_bytes [2; 3; 5; 7])))
              (SHA256.SHA256 (body_bytes [2; 3; 5; 7]))) as [He|_]; [|reflexivity].
  vm_compute in He. discriminate He.
Qed.

(** * Further properties of the code *)

(** ** sieve_iZ *)

(** sieve_iZ returns NULL below 10; from 10 on and below 2^32 (where the
    count of the primes fits the [int]s of the prime list) it returns a list
    that starts with 2, 3, holds primes only, none above n, in strictly
    increasing order. *)
Theorem sieve_iZ_primes_in_order (n : Z) :
  0 <= n < 2 ^ 32 ->
  (n < 10 -> sieve_iZ n = None) /\
  (10 <= n ->
   exists o, sieve_iZ n = Some o /\
     (exists t, p_array o = 2 :: 3 :: t) /\
     Forall Z.prime (p_array o) /\
     Forall (fun p => p <= n) (p_array o) /\
     StronglySorted Z.lt (p_array o)).
Proof.
  intros Hn. split.
  - intros Hlt. unfold sieve_iZ.
    destruct (n <? 10) eqn:E; [reflexivity|]. apply Z.ltb_ge in E. lia.
  - intros Hge.
    assert (HnU : 10 <= n < U64).
    { rewrite U64_value. change (2 ^ 32) with 4294967296 in Hn. lia. }
    destruct (sieve_iZ_correct n HnU) as (o & Ho & Hh & Hp & Hle & Hs & _).
    exists o. auto.
Qed.

Lemma sieve_iZ_primes_in_order_witness :
  exists o, sieve_iZ 100 = Some o /\
    Forall Z.prime (p_array o) /\ StronglySorted Z.lt (p_array o).
Proof.
  assert (H : 0 <= 100 < 2 ^ 32) by (split; [lia|reflexivity]).
  destruct (proj2 (sieve_iZ_primes_in_order 100 H) ltac:(lia))
    as (o & Ho & _ & Hp & _ & Hs).
  exists o. split; [exact Ho|]. split; [exact Hp|exact Hs].
Defined.

(** sieve_iZ lists every prime up to n, except n itself when n = 6k + 5. *)
Theorem sieve_iZ_complete (n q : Z) (o : PRIMES_OBJ) :
  10 <= n < U64 ->
  sieve_iZ n = Some o ->
  Z.prime q -> q <= n -> (q < n \/ n mod 6 <> 5) ->
  In q (p_array o).
Proof.
  intros Hn Ho Hq Hle Hne.
  destruct (sieve_iZ_correct n Hn) as (o' & Ho' & _ & _ & _ & _ & Hc).
  rewrite Ho in Ho'. injection Ho' as <-.
  apply Hc; [exact Hq|exact Hle|].
  pose proof (Z.div_mod n 6 ltac:(lia)) as Hd.
  pose proof (Z.mod_pos_bound n 6 ltac:(lia)) as Hm. lia.
Qed.

Lemma sieve_iZ_complete_witness :
  In 97 [2; 3; 5; 7; 11; 13; 17; 19; 23; 29; 31; 37; 41; 43; 47; 53; 59; 61; 67; 71;
         73; 79; 83; 89; 97].
Proof.
  apply (sieve_iZ_complete 100 97
           (PrimesObj.mk [2; 3; 5; 7; 11; 13; 17; 19; 23; 29; 31; 37; 41; 43; 47; 53; 59;
                          61; 67; 71; 73; 79; 83; 89; 97] (repeat x00 32))).
  - split; [lia|reflexivity].
  - vm_compute. reflexivity.
  - apply is_prime_b_sound. vm_compute. reflexivity.
  - lia.
  - left. lia.
Defined.

(** ** The first index of a prime in a slab *)

(** solve_for_x_gmp: for p >= 5 coprime to 6 the result x is in [1, p], p
    divides iZ(y vx + x, matrix_id), and x is the only such index in [1, p]. *)
Theorem solve_for_x_gmp_first_index (i p vx y : Z) :
  i = 1 \/ i = -1 ->
  5 <= p < U64 ->
  p mod 6 = 1 \/ p mod 6 = 5 ->
  1 <= solve_for_x_gmp i p vx y <= p /\
  (p | iZ_gmp (y * vx + solve_for_x_gmp i p vx y) i) /\
  (forall x', 1 <= x' <= p -> (p | iZ_gmp (y * vx + x') i) ->
              x' = solve_for_x_gmp i p vx y).
Proof.
  intros Hi Hp Hm.
  destruct (solve_for_x_gmp_correct i p vx y Hi Hp Hm) as (H1 & _ & H3 & H4).
  split; [exact H1|]. unfold iZ_gmp.
  destruct Hi as [-> | ->]; cbn [Z.ltb Z.compare]; (split; [exact H3|exact H4]).
Qed.

Lemma solve_for_x_gmp_first_index_witness :
  1 <= solve_for_x_gmp (-1) 11 35 3 <= 11 /\
  (11 | iZ_gmp (3 * 35 + solve_for_x_gmp (-1) 11 35 3) (-1)).
Proof.
  destruct (solve_for_x_gmp_first_index (-1) 11 35 3) as (H1 & H2 & _).
  - right. reflexivity.
  - split; [lia|reflexivity].
  - right. reflexivity.
  - split; [exact H1|exact H2].
Defined.

(** solve_for_x returns what solve_for_x_gmp returns when the index of p does
    not exceed vx * y and vx * y fits 64 bits, so that nothing wraps. *)
Theorem solve_for_x_no_wrap (i p vx y : Z) :
  5 <= p < U64 ->
  normalized_x_p i p <= vx * y < U64 ->
  solve_for_x i p vx y = solve_for_x_gmp i p vx y /\
  1 <= solve_for_x i p vx y <= p.
Proof.
  intros Hp Hy. rewrite (solve_for_x_agrees i p vx y Hp Hy). split; [reflexivity|].
  unfold solve_for_x_gmp.
  pose proof (Z.mod_pos_bound (y * vx - normalized_x_p i p) p ltac:(lia)) as Hb.
  rewrite wrap64_small by lia. lia.
Qed.

Lemma solve_for_x_no_wrap_witness :
  solve_for_x 1 11 35 2 = solve_for_x_gmp 1 11 35 2 /\ 1 <= solve_for_x 1 11 35 2 <= 11.
Proof.
  apply (solve_for_x_no_wrap 1 11 35 2).
  - split; [lia|reflexivity].
  - split; [vm_compute; discriminate|reflexivity].
Defined.

(** ** modular_inverse *)

Lemma modular_inverse_values_bounded (m0 B : Z) (fuel : nat) :
  1 <= m0 <= B ->
  forall a m x0 x1 sg,
    1 <= a <= B -> 0 <= m <= B ->
    sg = 1 \/ sg = -1 ->
    0 <= sg * x1 -> sg * x0 <= 0 -> sg * (x1 * m - x0 * a) = m0 ->
    Forall (fun v => - B <= v <= B) (modular_inverse_values fuel a m x0 x1).
Proof.
  intros Hm0. induction fuel as [|fuel IH]; intros a m x0 x1 sg Ha Hm Hsg Hs1 Hs0 Hdet;
    cbn [modular_inverse_values].
  - destruct (1 <? a); constructor.
  - destruct (1 <? a) eqn:Ea; [|constructor]. apply Z.ltb_lt in Ea.
    destruct (m =? 0) eqn:Em; [constructor|]. apply Z.eqb_neq in Em.
    rewrite Z.quot_div_nonneg, Z.rem_mod_nonneg by lia.
    pose proof (Z.mod_pos_bound a m ltac:(lia)) as Hmod.
    pose proof (Z.div_mod a m ltac:(lia)) as Hdm.
    assert (Hq : 0 <= a / m) by (apply Z.div_pos; lia).
    assert (Hqa : a / m <= a) by (apply Z.div_le_upper_bound; nia).
    assert (Hnew : - sg * (x0 * (a mod m) - (x1 - a / m * x0) * m) = m0).
    { destruct Hsg as [-> | ->]; nia. }
    assert (Hn1 : 0 <= - sg * x0) by lia.
    assert (Hn0 : - sg * (x1 - a / m * x0) <= 0).
    { destruct Hsg as [-> | ->]; nia. }
    assert (Hx0' : - m0 <= x1 - a / m * x0 <= m0).
    { destruct Hsg as [-> | ->]; nia. }
    assert (Hqx : - m0 <= a / m * x0 <= m0).
    { destruct Hsg as [-> | ->]; nia. }
    constructor; [lia|]. constructor; [lia|]. constructor; [lia|]. constructor; [lia|].
    apply (IH m (a mod m) (x1 - a / m * x0) x0 (- sg)); try lia.
Qed.

(** modular_inverse: for a >= 1 and m > 1 coprime, the loop ends and the
    result r is in [0, m) with r * a = 1 modulo m; every quotient, remainder,
    product and difference the loop computes lies between - max(a, m) and
    max(a, m), so none of them overflows the [int] of the code when a and m
    are [int]s. *)
Theorem modular_inverse_inverts (a m : Z) :
  1 <= a -> 1 < m -> Z.gcd a m = 1 ->
  (exists r, modular_inverse a m = Ret r /\ 0 <= r < m /\ (r * a) mod m = 1) /\
  Forall (fun v => - Z.max a m <= v <= Z.max a m)
    (modular_inverse_values (S (Z.to_nat (Z.abs m))) a m 0 1).
Proof.
  intros Ha Hm Hg. split; [exact (modular_inverse_correct a m Ha Hm Hg)|].
  apply (modular_inverse_values_bounded m (Z.max a m) _ ltac:(lia) a m 0 1 1); lia.
Qed.

Lemma modular_inverse_inverts_witness :
  (exists r, modular_inverse 35 11 = Ret r /\ 0 <= r < 11 /\ (r * 35) mod 11 = 1) /\
  Forall (fun v => - Z.max 35 11 <= v <= Z.max 35 11)
    (modular_inverse_values (S (Z.to_nat (Z.abs 11))) 35 11 0 1).
Proof.
  apply (modular_inverse_inverts 35 11); [lia|lia|reflexivity].
Defined.

(** ** compute_limited_vx *)

Lemma fold_right_mul_app (l1 l2 : list Z) :
  fold_right Z.mul 1 (l1 ++ l2) = fold_right Z.mul 1 l1 * fold_right Z.mul 1 l2.
Proof.
  induction l1 as [|a l1 IH]; cbn [app fold_right]; [lia|]. rewrite IH. ring.
Qed.

Lemma firstn_plus_skipn {A : Type} (a b : nat) (l : list A) :
  firstn (a + b) l = firstn a l ++ firstn b (skipn a l).
Proof.
  revert l. induction a as [|a IH]; intros l; [reflexivity|].
  destruct l as [|x l]; cbn [Nat.add firstn skipn app].
  - destruct b; reflexivity.
  - rewrite IH. reflexivity.
Qed.

Lemma vx_of_plus (j : nat) :
  vx_of (2 + j) = 35 * fold_right Z.mul 1 (firstn j (skipn 2 s_primes)).
Proof.
  unfold vx_of. rewrite firstn_plus_skipn, fold_right_mul_app. reflexivity.
Qed.

Lemma compute_limited_vx_loop_spec (x_n vx_limit : Z) (ps : list Z) :
  forall i vx,
    0 < vx ->
    Forall (fun p => 0 < p) ps ->
    vx * fold_right Z.mul 1 ps < U64 ->
    exists j : nat,
      (j <= length ps)%nat /\
      compute_limited_vx_loop ps i vx x_n vx_limit = vx * fold_right Z.mul 1 (firstn j ps) /\
      (j = 0%nat \/
       (compute_limited_vx_loop ps i vx x_n vx_limit < x_n / 2 /\ i + Z.of_nat j <= vx_limit)) /\
      (vx_limit <= i + Z.of_nat j \/ j = length ps \/
       x_n / 2 <= vx * fold_right Z.mul 1 (firstn (S j) ps)).
Proof.
  induction ps as [|p ps IH]; intros i vx Hvx Hps Hfit.
  - exists 0%nat. cbn. repeat split; auto; lia.
  - inversion Hps as [|? ? Hp Hps']; subst.
    cbn [fold_right] in Hfit.
    assert (Hprod : 0 < fold_right Z.mul 1 ps).
    { clear -Hps'. induction Hps' as [|a l Ha _ IH']; cbn [fold_right]; lia. }
    assert (Hw : wrap64 (vx * p) = vx * p).
    { apply wrap64_small. split; [lia|]. nia. }
    cbn [compute_limited_vx_loop]. rewrite Hw.
    destruct ((vx * p <? x_n / 2) && (i <? vx_limit)) eqn:E.
    + apply andb_prop in E. destruct E as [E1 E2].
      apply Z.ltb_lt in E1. apply Z.ltb_lt in E2.
      destruct (IH (i + 1) (vx * p) ltac:(lia) Hps' ltac:(nia))
        as (j & Hj & Hr & Hlow & Hmax).
      exists (S j). rewrite !firstn_cons. cbn [length fold_right].
      split; [lia|]. split; [rewrite Hr; ring|]. split.
      * right. destruct Hlow as [E0 | [Hl1 Hl2]].
        -- subst j. rewrite Hr. rewrite firstn_O. cbn [fold_right]. lia.
        -- lia.
      * destruct Hmax as [Hm | [Hm | Hm]].
        -- left. lia.
        -- right. left. lia.
        -- right. right.
           replace (vx * (p * fold_right Z.mul 1 (firstn (S j) ps)))
             with (vx * p * fold_right Z.mul 1 (firstn (S j) ps)) by ring.
           exact Hm.
    + exists 0%nat. cbn [firstn fold_right length].
      split; [lia|]. split; [ring|]. split; [left; reflexivity|].
      apply andb_false_iff in E. destruct E as [E | E].
      * right. right. apply Z.ltb_ge in E. lia.
      * left. apply Z.ltb_ge in E. lia.
Qed.

(** compute_limited_vx returns the product of the first k primes of its table
    for some k between 2 and vx_limit (35 when vx_limit is below 2): the
    product is below x_n / 2 unless it is the minimum 35, and it is the
    largest such, either k = vx_limit or one more prime reaches x_n / 2.  The
    table has 13 primes and the loop reads the prime at index vx_limit, hence
    vx_limit <= 12. *)
Theorem compute_limited_vx_largest (x_n vx_limit : Z) :
  0 <= x_n < U64 -> vx_limit <= 12 ->
  exists k : nat,
    (2 <= k)%nat /\ Z.of_nat k <= Z.max 2 vx_limit /\
    compute_limited_vx x_n vx_limit = vx_of k /\
    (k = 2%nat \/ vx_of k < x_n / 2) /\
    (vx_limit <= Z.of_nat k \/ x_n / 2 <= vx_of (S k)).
Proof.
  intros Hx Hl. unfold compute_limited_vx.
  destruct (compute_limited_vx_loop_spec x_n vx_limit (skipn 2 s_primes) 2 35)
    as (j & Hj & Hr & Hlow & Hmax).
  - lia.
  - unfold s_primes. cbn [skipn]. repeat constructor.
  - vm_compute. reflexivity.
  - exists (2 + j)%nat. rewrite vx_of_plus, <- Hr.
    split; [lia|]. split; [|split; [reflexivity|split]].
    + destruct Hlow as [E0 | [_ Hl2]]; [subst j|]; lia.
    + destruct Hlow as [E0 | [Hl1 _]]; [subst j; left; reflexivity|right; exact Hl1].
    + destruct Hmax as [Hm | [Hm | Hm]].
      * left. lia.
      * left. change (length (skipn 2 s_primes)) with 11%nat in Hm.
        destruct Hlow as [E | [_ Hl2]]; lia.
      * right. change (S (2 + j)) with (2 + S j)%nat. rewrite vx_of_plus. exact Hm.
Qed.

Lemma compute_limited_vx_largest_witness :
  exists k : nat,
    (2 <= k)%nat /\ compute_limited_vx 166667 6 = vx_of k /\
    (k = 2%nat \/ vx_of k < 166667 / 2).
Proof.
  destruct (compute_limited_vx_largest 166667 6) as (k & H1 & _ & H3 & H4 & _).
  - split; [lia|reflexivity].
  - lia.
  - exists k. split; [exact H1|]. split; [exact H3|exact H4].
Defined.

(** ** classic_sieve_eratosthenes *)

Lemma prime_or_not (c : Z) : Z.prime c \/ ~ Z.prime c.
Proof.
  destruct (is_prime_b c) eqn:E.
  - left. apply is_prime_b_sound, E.
  - right. intros H. apply is_prime_b_complete in H. congruence.
Qed.

Lemma not_prime_multiple (a b : Z) : 2 <= a -> 2 <= b -> ~ Z.prime (a * b).
Proof.
  intros Ha Hb [_ H]. apply (H a); [nia|]. exists b. ring.
Qed.

Section ClassicLoop.

Variable n : Z.
Hypothesis Hn : 10 <= n.
Hypothesis Hfit : n + 1 < U64.

Lemma classic_inv_init :
  classic_inv n 2 (bitmap_set_all (bitmap_create (n + 1)), primes_obj_init).
Proof.
  constructor; cbn [fst snd primes_obj_init p_array].
  - constructor.
  - intros q. split; [intros []|]. intros [Hq Hlt]. pose proof (Z.prime_ge_2 q Hq). lia.
  - intros j Hj _. unfold bitmap_get_bit, bitmap_set_all, bitmap_create. cbn [data size].
    apply andb_true_intro. split; [apply Z.leb_le|apply Z.ltb_lt]; lia.
  - intros j q _ Hq Hlt. pose proof (Z.prime_ge_2 q Hq). lia.
Qed.

Lemma classic_body_inv (p : Z) (s : BITMAP * PRIMES_OBJ) :
  2 <= p <= n ->
  classic_inv n p s ->
  classic_inv n (p + 1) (classic_body n (Z.sqrt n) p s).
Proof.
  intros Hp [Hs Hm Hpr Hmk]. destruct s as [bits primes]. cbn [fst snd] in *.
  unfold classic_body.
  destruct (bitmap_get_bit bits p) eqn:Ebit.
  - (* the bit of p is set: p is prime *)
    assert (Hprime : Z.prime p).
    { destruct (prime_or_not p) as [H|H]; [exact H|exfalso].
      destruct (composite_has_small_prime_factor p ltac:(lia) H) as (q & Hq & Hqq & Hd).
      pose proof (Z.prime_ge_2 q Hq).
      assert (Hlt : q < p) by nia.
      rewrite (Hmk p q Hp Hq Hlt Hqq Hd) in Ebit. discriminate. }
    assert (Hsorted : StronglySorted Z.lt (p_array (primes_obj_append primes p))).
    { cbn [primes_obj_append p_array]. apply StronglySorted_app_one; [exact Hs|].
      apply Forall_forall. intros q Hq. apply Hm in Hq. lia. }
    assert (Hmem : forall q, In q (p_array (primes_obj_append primes p)) <->
                             Z.prime q /\ q < p + 1).
    { intros q. cbn [primes_obj_append p_array]. rewrite in_app_iff, Hm. cbn [In].
      split.
      - intros [[Hq Hlt] | [<- | []]]; split; auto; lia.
      - intros [Hq Hlt]. destruct (Z.eq_dec q p) as [->|Hne]; [right; left; reflexivity|].
        left. split; [exact Hq|lia]. }
    destruct (p <=? Z.sqrt n) eqn:Eroot.
    + apply Z.leb_le in Eroot.
      assert (Hpp : p * p <= n).
      { apply Z.sqrt_le_square; lia. }
      rewrite (wrap64_small (p * p)) by nia.
      constructor; cbn [fst snd].
      * exact Hsorted.
      * exact Hmem.
      * intros j Hj Hjp. rewrite clear_mod_p_get.
        destruct ((p * p <=? j) && (j <? n + 1) && ((j - p * p) mod p =? 0)) eqn:E;
          [exfalso|apply Hpr; assumption].
        apply andb_prop in E. destruct E as [E E3]. apply andb_prop in E.
        destruct E as [E1 E2]. apply Z.leb_le in E1. apply Z.eqb_eq in E3.
        apply Z.mod_divide in E3; [|lia]. destruct E3 as [k Hk].
        assert (Hj' : j = p * (p + k)) by lia.
        assert (0 <= k) by nia.
        rewrite Hj' in Hjp. revert Hjp. apply not_prime_multiple; lia.
      * intros j q Hj Hq Hlt Hqq Hd.
        destruct (Z.eq_dec q p) as [->|Hne].
        -- destruct Hd as [c Hc].
           apply (clear_mod_p_hit bits p (p * p) (n + 1) j (c - p)); [lia|nia|lia|lia].
        -- apply clear_mod_p_stays_clear. apply (Hmk j q); auto. lia.
    + apply Z.leb_gt in Eroot.
      constructor; cbn [fst snd].
      * exact Hsorted.
      * exact Hmem.
      * exact Hpr.
      * intros j q Hj Hq Hlt Hqq Hd.
        destruct (Z.eq_dec q p) as [->|Hne].
        -- exfalso. assert (p <= Z.sqrt n); [|lia].
           apply Z.sqrt_le_square; nia.
        -- apply (Hmk j q); auto. lia.
  - (* the bit of p is clear: p is not prime *)
    assert (Hnp : ~ Z.prime p).
    { intros H. rewrite (Hpr p Hp H) in Ebit. discriminate. }
    constructor; cbn [fst snd].
    + exact Hs.
    + intros q. rewrite Hm. split; intros [Hq Hlt]; (split; [exact Hq|]).
      * lia.
      * destruct (Z.eq_dec q p) as [->|Hne]; [contradiction|lia].
    + exact Hpr.
    + intros j q Hj Hq Hlt Hqq Hd. apply (Hmk j q); auto.
      destruct (Z.eq_dec q p) as [->|Hne]; [contradiction|lia].
Qed.

Lemma classic_loop_inv :
  classic_inv n (n + 1)
    (for_loop 2 (n + 1) (classic_body n (Z.sqrt n))
       (bitmap_set_all (bitmap_create (n + 1)), primes_obj_init)).
Proof.
  apply (for_loop_ind (classic_inv n)); [lia|apply classic_inv_init|].
  intros i t Hi Hinv. apply classic_body_inv; [lia|exact Hinv].
Qed.

End ClassicLoop.

(** classic_sieve_eratosthenes returns NULL below 10; from 10 on and below
    2^32 (where the count of the primes fits the [int]s of the prime list) it
    returns the primes up to n, all of them, in strictly increasing order. *)
Theorem classic_sieve_eratosthenes_exact (n : Z) :
  0 <= n -> n < 2 ^ 32 ->
  (n < 10 -> classic_sieve_eratosthenes n = None) /\
  (10 <= n ->
   exists o, classic_sieve_eratosthenes n = Some o /\
     StronglySorted Z.lt (p_array o) /\
     (forall q, In q (p_array o) <-> Z.prime q /\ q <= n)).
Proof.
  intros H0 H32. unfold classic_sieve_eratosthenes.
  assert (Hfit : n + 1 < U64).
  { rewrite U64_value. change (2 ^ 32) with 4294967296 in H32. lia. }
  split.
  - intros Hlt. destruct (n <? 10) eqn:E; [reflexivity|]. apply Z.ltb_ge in E. lia.
  - intros Hn. destruct (n <? 10) eqn:E; [apply Z.ltb_lt in E; lia|].
    eexists. split; [reflexivity|].
    destruct (classic_loop_inv n Hn Hfit) as [Hs Hm _ _].
    split; [exact Hs|]. intros q. rewrite Hm. split; intros [Hq Hle]; (split; [exact Hq|lia]).
Qed.

Lemma classic_sieve_eratosthenes_exact_witness :
  exists o, classic_sieve_eratosthenes 50 = Some o /\
    StronglySorted Z.lt (p_array o) /\
    (forall q, In q (p_array o) <-> Z.prime q /\ q <= 50).
Proof.
  apply (classic_sieve_eratosthenes_exact 50); [lia|reflexivity|lia].
Defined.

(** ** sieve_iZ against the classical sieve *)

Lemma sorted_same_members (l1 : list Z) :
  forall l2,
    StronglySorted Z.lt l1 -> StronglySorted Z.lt l2 ->
    (forall q, In q l1 <-> In q l2) -> l1 = l2.
Proof.
  induction l1 as [|a l1 IH]; intros l2 H1 H2 Hm.
  - destruct l2 as [|b l2]; [reflexivity|]. exfalso. apply (Hm b). left. reflexivity.
  - destruct l2 as [|b l2]; [exfalso; apply (Hm a); left; reflexivity|].
    apply StronglySorted_inv in H1. destruct H1 as [H1 Ha].
    apply StronglySorted_inv in H2. destruct H2 as [H2 Hb].
    rewrite Forall_forall in Ha, Hb.
    assert (Hab : a = b).
    { assert (Ha' : In a (b :: l2)) by (apply Hm; left; reflexivity).
      assert (Hb' : In b (a :: l1)) by (apply Hm; left; reflexivity).
      destruct Ha' as [E|Ha']; [symmetry; exact E|].
      destruct Hb' as [E|Hb']; [exact E|].
      pose proof (Ha b Hb'). pose proof (Hb a Ha'). lia. }
    subst b. f_equal. apply IH; [exact H1|exact H2|].
    intros q. split; intros Hq.
    + assert (Hq' : In q (a :: l2)) by (apply Hm; right; exact Hq).
      destruct Hq' as [E|Hq']; [|exact Hq']. subst q. pose proof (Ha a Hq). lia.
    + assert (Hq' : In q (a :: l1)) by (apply Hm; right; exact Hq).
      destruct Hq' as [E|Hq']; [|exact Hq']. subst q. pose proof (Hb a Hq). lia.
Qed.

(** sieve_iZ(n) and classic_sieve_eratosthenes(n) return the same list of
    primes for every n from 10 on and below 2^32 (where the count of the
    primes fits the [int]s of the prime list) that is not a prime of the form
    6k + 5. *)
Theorem sieve_iZ_agrees_with_classic (n : Z) :
  10 <= n -> n < 2 ^ 32 ->
  n mod 6 <> 5 \/ ~ Z.prime n ->
  exists o o', sieve_iZ n = Some o /\ classic_sieve_eratosthenes n = Some o' /\
               p_array o = p_array o'.
Proof.
  intros Hn H32 Hne.
  assert (Hfit : n + 1 < U64).
  { rewrite U64_value. change (2 ^ 32) with 4294967296 in H32. lia. }
  destruct (sieve_iZ_correct n ltac:(lia)) as (o & Ho & _ & Hp & Hle & Hs & Hc).
  destruct (classic_loop_inv n Hn Hfit) as [Hs' Hm' _ _].
  exists o. eexists. split; [exact Ho|]. split.
  - unfold classic_sieve_eratosthenes.
    destruct (n <? 10) eqn:E; [apply Z.ltb_lt in E; lia|reflexivity].
  - apply sorted_same_members; [exact Hs|exact Hs'|].
    rewrite Forall_forall in Hp, Hle. intros q. rewrite Hm'. split.
    + intros Hq. split; [apply Hp, Hq|]. pose proof (Hle q Hq). lia.
    + intros [Hq Hlt]. apply Hc; [exact Hq|lia|].
      pose proof (Z.div_mod n 6 ltac:(lia)) as Hd.
      pose proof (Z.mod_pos_bound n 6 ltac:(lia)) as Hb.
      destruct Hne as [Hne|Hne]; [lia|].
      assert (q <> n) by (intros ->; contradiction). lia.
Qed.

Lemma sieve_iZ_agrees_with_classic_witness :
  exists o o', sieve_iZ 100 = Some o /\ classic_sieve_eratosthenes 100 = Some o' /\
               p_array o = p_array o'.
Proof.
  apply (sieve_iZ_agrees_with_classic 100); [lia|reflexivity|left; discriminate].
Defined.

(** ** sieve_eratosthenes *)

Lemma even_not_prime (c : Z) : 2 < c -> Z.even c = true -> ~ Z.prime c.
Proof.
  intros Hc He [_ H]. apply (H 2); [lia|].
  apply Z.even_spec in He. destruct He as [k Hk]. exists k. lia.
Qed.

Lemma odd_divisor (q j : Z) : Z.odd j = true -> (q | j) -> Z.odd q = true.
Proof.
  intros Hj [c Hc]. subst j. rewrite Z.odd_mul in Hj. apply andb_prop in Hj. apply Hj.
Qed.

Lemma odd_prime_ge_3 (q : Z) : Z.prime q -> Z.odd q = true -> 3 <= q.
Proof.
  intros Hq Ho. pose proof (Z.prime_ge_2 q Hq).
  destruct (Z.eq_dec q 2) as [->|]; [discriminate Ho|lia].
Qed.

Section OddSieveLoop.

Variable n : Z.
Hypothesis Hn : 10 <= n.
Hypothesis Hfit : n + 2 < U64.

Lemma odd_sieve_inv_init :
  odd_sieve_inv n 3
    (bitmap_set_all (bitmap_create (n + 1)), primes_obj_append primes_obj_init 2).
Proof.
  constructor; cbn [fst snd primes_obj_init primes_obj_append p_array app].
  - repeat constructor.
  - intros q. cbn [In]. split.
    + intros [<- | []]. split; [|lia]. apply is_prime_b_sound. reflexivity.
    + intros [Hq Hlt]. pose proof (Z.prime_ge_2 q Hq). left. lia.
  - intros j Hj _. unfold bitmap_get_bit, bitmap_set_all, bitmap_create. cbn [data size].
    apply andb_true_intro. split; [apply Z.leb_le|apply Z.ltb_lt]; lia.
  - intros j q _ _ _ Hlt. lia.
Qed.

Lemma odd_sieve_body_inv (p : Z) (s : BITMAP * PRIMES_OBJ) :
  3 <= p <= n -> Z.odd p = true ->
  odd_sieve_inv n p s ->
  odd_sieve_inv n (p + 2) (odd_sieve_body n (Z.sqrt n) p s).
Proof.
  intros Hp Hodd [Hs Hm Hpr Hmk]. destruct s as [bits primes]. cbn [fst snd] in *.
  assert (Hnext : ~ Z.prime (p + 1)).
  { apply even_not_prime; [lia|]. rewrite Z.even_add, <- Z.negb_odd, Hodd. reflexivity. }
  assert (Hq12 : forall q, Z.prime q -> q < p + 2 -> q < p \/ q = p).
  { intros q Hq Hlt. destruct (Z.eq_dec q (p + 1)) as [->|]; [contradiction|lia]. }
  unfold odd_sieve_body.
  destruct (bitmap_get_bit bits p) eqn:Ebit.
  - assert (Hprime : Z.prime p).
    { destruct (prime_or_not p) as [H|H]; [exact H|exfalso].
      destruct (composite_has_small_prime_factor p ltac:(lia) H) as (q & Hq & Hqq & Hd).
      pose proof (odd_prime_ge_3 q Hq (odd_divisor q p Hodd Hd)) as Hq3.
      assert (Hlt : 3 <= q < p) by nia.
      rewrite (Hmk p q Hp Hodd Hq Hlt Hqq Hd) in Ebit. discriminate. }
    assert (Hsorted : StronglySorted Z.lt (p_array (primes_obj_append primes p))).
    { cbn [primes_obj_append p_array]. apply StronglySorted_app_one; [exact Hs|].
      apply Forall_forall. intros q Hq. apply Hm in Hq. lia. }
    assert (Hmem : forall q, In q (p_array (primes_obj_append primes p)) <->
                             Z.prime q /\ q < p + 2).
    { intros q. cbn [primes_obj_append p_array]. rewrite in_app_iff, Hm. cbn [In].
      split.
      - intros [[Hq Hlt] | [<- | []]]; split; auto; lia.
      - intros [Hq Hlt]. destruct (Hq12 q Hq Hlt) as [H|H]; [left; auto|right; left; auto]. }
    destruct (p <=? Z.sqrt n) eqn:Eroot.
    + apply Z.leb_le in Eroot.
      assert (Hpp : p * p <= n) by (apply Z.sqrt_le_square; lia).
      rewrite (wrap64_small (p * p)) by nia.
      rewrite (wrap64_small (2 * p)) by nia.
      constructor; cbn [fst snd].
      * exact Hsorted.
      * exact Hmem.
      * intros j Hj Hjp. rewrite clear_mod_p_get.
        destruct ((p * p <=? j) && (j <? n + 1) && ((j - p * p) mod (2 * p) =? 0)) eqn:E;
          [exfalso|apply Hpr; assumption].
        apply andb_prop in E. destruct E as [E E3]. apply andb_prop in E.
        destruct E as [E1 E2]. apply Z.leb_le in E1. apply Z.eqb_eq in E3.
        apply Z.mod_divide in E3; [|lia]. destruct E3 as [k Hk].
        assert (Hj' : j = p * (p + 2 * k)) by lia.
        assert (0 <= k) by nia.
        rewrite Hj' in Hjp. revert Hjp. apply not_prime_multiple; lia.
      * intros j q Hj Hoj Hq Hlt Hqq Hd.
        destruct (Hq12 q Hq ltac:(lia)) as [Hlt'| ->].
        -- apply clear_mod_p_stays_clear. apply (Hmk j q); auto. lia.
        -- destruct Hd as [c Hc].
           assert (Hoc : Z.odd c = true).
           { apply (odd_divisor c j Hoj). exists p. lia. }
           assert (Hcp : p <= c) by nia.
           assert (Hk : exists k, c - p = 2 * k).
           { apply Z.even_spec. rewrite Z.even_sub, <- !Z.negb_odd, Hoc, Hodd. reflexivity. }
           destruct Hk as [k Hk].
           apply (clear_mod_p_hit bits (2 * p) (p * p) (n + 1) j k); [lia|lia|nia|lia].
    + apply Z.leb_gt in Eroot.
      constructor; cbn [fst snd].
      * exact Hsorted.
      * exact Hmem.
      * exact Hpr.
      * intros j q Hj Hoj Hq Hlt Hqq Hd.
        destruct (Hq12 q Hq ltac:(lia)) as [Hlt'| ->].
        -- apply (Hmk j q); auto. lia.
        -- exfalso. assert (p <= Z.sqrt n); [|lia]. apply Z.sqrt_le_square; nia.
  - assert (Hnp : ~ Z.prime p).
    { intros H. rewrite (Hpr p Hp H) in Ebit. discriminate. }
    constructor; cbn [fst snd].
    + exact Hs.
    + intros q. rewrite Hm. split; intros [Hq Hlt]; (split; [exact Hq|]).
      * lia.
      * destruct (Hq12 q Hq Hlt) as [H| ->]; [exact H|contradiction].
    + exact Hpr.
    + intros j q Hj Hoj Hq Hlt Hqq Hd. apply (Hmk j q); auto.
      destruct (Hq12 q Hq ltac:(lia)) as [H| ->]; [lia|contradiction].
Qed.

Lemma odd_sieve_loop_inv :
  odd_sieve_inv n (2 * ((n - 1) / 2 + 1) + 1)
    (for_loop 1 ((n - 1) / 2 + 1) (fun k => odd_sieve_body n (Z.sqrt n) (2 * k + 1))
       (bitmap_set_all (bitmap_create (n + 1)), primes_obj_append primes_obj_init 2)).
Proof.
  pose proof (Z.div_mod (n - 1) 2 ltac:(lia)) as Hd.
  pose proof (Z.mod_pos_bound (n - 1) 2 ltac:(lia)) as Hb.
  apply (for_loop_ind (fun k s => odd_sieve_inv n (2 * k + 1) s)).
  - lia.
  - exact odd_sieve_inv_init.
  - intros k t Hk Hinv.
    replace (2 * (k + 1) + 1) with (2 * k + 1 + 2) by ring.
    apply odd_sieve_body_inv; [lia| |exact Hinv].
    rewrite Z.add_comm, Z.odd_add_mul_2. reflexivity.
Qed.

End OddSieveLoop.

(** sieve_eratosthenes, the sieve over the odd numbers, returns NULL below 10
    and, from 10 on and below 2^32 (where the count of the primes fits the
    [int]s of the prime list), the primes up to n, all of them, in strictly
    increasing order: the list classic_sieve_eratosthenes returns. *)
Theorem sieve_eratosthenes_exact (n : Z) :
  0 <= n -> n < 2 ^ 32 ->
  (n < 10 -> sieve_eratosthenes n = None) /\
  (10 <= n ->
   exists o, sieve_eratosthenes n = Some o /\
     StronglySorted Z.lt (p_array o) /\
     (forall q, In q (p_array o) <-> Z.prime q /\ q <= n) /\
     option_map p_array (classic_sieve_eratosthenes n) = Some (p_array o)).
Proof.
  intros H0 H32. unfold sieve_eratosthenes.
  assert (Hfit : n + 2 < U64).
  { rewrite U64_value. change (2 ^ 32) with 4294967296 in H32. lia. }
  split.
  - intros Hlt. destruct (n <? 10) eqn:E; [reflexivity|]. apply Z.ltb_ge in E. lia.
  - intros Hn. destruct (n <? 10) eqn:E; [apply Z.ltb_lt in E; lia|].
    eexists. split; [reflexivity|].
    destruct (odd_sieve_loop_inv n Hn Hfit) as [Hs Hm _ _].
    pose proof (Z.div_mod (n - 1) 2 ltac:(lia)) as Hd.
    pose proof (Z.mod_pos_bound (n - 1) 2 ltac:(lia)) as Hb.
    assert (Hmem : forall q,
               In q (p_array (snd (for_loop 1 ((n - 1) / 2 + 1)
                        (fun k => odd_sieve_body n (Z.sqrt n) (2 * k + 1))
                        (bitmap_set_all (bitmap_create (n + 1)),
                         primes_obj_append primes_obj_init 2)))) <->
               Z.prime q /\ q <= n).
    { intros q. rewrite Hm. split; intros [Hq Hle]; (split; [exact Hq|]); [|lia].
      destruct (Z.le_gt_cases q n) as [H|H]; [exact H|exfalso].
      assert (He : (n - 1) mod 2 = 0) by lia.
      assert (Hqn : q = n + 1) by lia. subst q.
      revert Hq. apply even_not_prime; [lia|].
      apply Z.even_spec. exists ((n - 1) / 2 + 1). lia. }
    split; [exact Hs|]. split; [exact Hmem|].
    destruct (classic_loop_inv n Hn ltac:(lia)) as [Hs' Hm' _ _].
    unfold classic_sieve_eratosthenes. rewrite E. cbn [option_map]. f_equal.
    apply sorted_same_members; [exact Hs'|exact Hs|].
    intros q. rewrite Hm', Hmem. split; intros [Hq Hle]; (split; [exact Hq|lia]).
Qed.

Lemma sieve_eratosthenes_exact_witness :
  exists o, sieve_eratosthenes 50 = Some o /\
    StronglySorted Z.lt (p_array o) /\
    (forall q, In q (p_array o) <-> Z.prime q /\ q <= 50).
Proof.
  assert (H0 : 0 <= 50) by lia.
  assert (Hfit : 50 < 2 ^ 32) by reflexivity.
  destruct (proj2 (sieve_eratosthenes_exact 50 H0 Hfit) ltac:(lia)) as (o & Ho & Hs & Hm & _).
  exists o. split; [exact Ho|]. split; [exact Hs|exact Hm].
Defined.

(** ** construct_vx2 and construct_iZm_segment *)

Lemma set_bit_if_get (b : BITMAP) (c : bool) (k i : Z) :
  bitmap_get_bit (if c then bitmap_set_bit b k else b) i =
  if (i =? k) && c then true else bitmap_get_bit b i.
Proof.
  destruct c; unfold bitmap_get_bit, bitmap_set_bit; cbn [data].
  - rewrite andb_true_r. reflexivity.
  - rewrite andb_false_r. reflexivity.
Qed.

Lemma extend_range (c : Z -> bool) (orig : bool) (i k : Z) :
  1 <= k ->
  (if (i =? k) && c k then true
   else if (1 <=? i) && (i <? k) && c i then true else orig) =
  (if (1 <=? i) && (i <? k + 1) && c i then true else orig).
Proof.
  intros Hk. destruct (Z.eqb_spec i k) as [->|Hne].
  - replace (1 <=? k) with true by (symmetry; apply Z.leb_le; lia).
    replace (k <? k + 1) with true by (symmetry; apply Z.ltb_lt; lia).
    rewrite Z.ltb_irrefl. cbn [andb]. destruct (c k); reflexivity.
  - cbn [andb]. replace (i <? k + 1) with (i <? k); [reflexivity|].
    destruct (Z.ltb_spec i k), (Z.ltb_spec i (k + 1)); try reflexivity; lia.
Qed.

Lemma construct_vx2_get (x5 x7 : BITMAP) (i : Z) :
  bitmap_get_bit (fst (construct_vx2 x5 x7)) i =
    (if (1 <=? i) && (i <? 36) && (negb ((i - 1) mod 5 =? 0) && negb ((i + 1) mod 7 =? 0))
     then true else bitmap_get_bit x5 i) /\
  bitmap_get_bit (snd (construct_vx2 x5 x7)) i =
    (if (1 <=? i) && (i <? 36) && (negb ((i + 1) mod 5 =? 0) && negb ((i - 1) mod 7 =? 0))
     then true else bitmap_get_bit x7 i).
Proof.
  unfold construct_vx2.
  set (c5 := fun i => negb ((i - 1) mod 5 =? 0) && negb ((i + 1) mod 7 =? 0)).
  set (c7 := fun i => negb ((i + 1) mod 5 =? 0) && negb ((i - 1) mod 7 =? 0)).
  change (bitmap_get_bit (fst (for_loop 1 36 construct_vx2_body (x5, x7))) i =
            (if (1 <=? i) && (i <? 36) && c5 i then true else bitmap_get_bit x5 i) /\
          bitmap_get_bit (snd (for_loop 1 36 construct_vx2_body (x5, x7))) i =
            (if (1 <=? i) && (i <? 36) && c7 i then true else bitmap_get_bit x7 i)).
  apply (for_loop_ind (fun k s =>
    bitmap_get_bit (fst s) i =
      (if (1 <=? i) && (i <? k) && c5 i then true else bitmap_get_bit x5 i) /\
    bitmap_get_bit (snd s) i =
      (if (1 <=? i) && (i <? k) && c7 i then true else bitmap_get_bit x7 i))).
  - lia.
  - cbn [fst snd]. destruct (1 <=? i) eqn:E; cbn [andb]; [|split; reflexivity].
    apply Z.leb_le in E. replace (i <? 1) with false by (symmetry; apply Z.ltb_ge; lia).
    split; reflexivity.
  - intros k [a b] Hk [Ha Hb]. cbn [fst snd] in Ha, Hb.
    change (construct_vx2_body k (a, b))
      with (if c5 k then bitmap_set_bit a k else a, if c7 k then bitmap_set_bit b k else b).
    cbn [fst snd]. rewrite !set_bit_if_get, Ha, Hb.
    split; apply extend_range; lia.
Qed.

Lemma forallb_range (P : Z -> bool) (lo : Z) (n : nat) :
  forallb P (map (fun k => lo + Z.of_nat k) (seq 0 n)) = true ->
  forall i, lo <= i < lo + Z.of_nat n -> P i = true.
Proof.
  intros H i Hi. rewrite forallb_forall in H. apply H.
  apply in_map_iff. exists (Z.to_nat (i - lo)). split; [lia|].
  apply in_seq. lia.
Qed.

Lemma construct_vx2_base_ok (x5 x7 : BITMAP) :
  (forall i, 1 <= i <= 35 ->
             bitmap_get_bit x5 i = false /\ bitmap_get_bit x7 i = false) ->
  base_ok 35 (construct_vx2 x5 x7).
Proof.
  intros Hclear i Hi. destruct (construct_vx2_get x5 x7 i) as [H5 H7].
  destruct (Hclear i Hi) as [E5 E7]. rewrite H5, H7, E5, E7.
  replace (1 <=? i) with true by (symmetry; apply Z.leb_le; lia).
  replace (i <? 36) with true by (symmetry; apply Z.ltb_lt; lia).
  cbn [andb].
  pose proof (forallb_range
    (fun i => Bool.eqb (negb ((i - 1) mod 5 =? 0) && negb ((i + 1) mod 7 =? 0))
                       (Z.gcd (6 * i - 1) 35 =? 1) &&
              Bool.eqb (negb ((i + 1) mod 5 =? 0) && negb ((i - 1) mod 7 =? 0))
                       (Z.gcd (6 * i + 1) 35 =? 1)) 1 35 eq_refl i ltac:(lia)) as Hc.
  cbv beta in Hc. apply andb_prop in Hc. destruct Hc as [Hc5 Hc7].
  apply Bool.eqb_prop in Hc5. apply Bool.eqb_prop in Hc7. rewrite Hc5, Hc7.
  split.
  - destruct (Z.eqb_spec (Z.gcd (6 * i - 1) 35) 1); split; auto; discriminate.
  - destruct (Z.eqb_spec (Z.gcd (6 * i + 1) 35) 1); split; auto; discriminate.
Qed.


Lemma coprime_mul_prime (c cs p : Z) :
  Z.prime p ->
  (Z.gcd c (cs * p) = 1 <-> Z.gcd c cs = 1 /\ ~ (p | c)).
Proof.
  intros Hp. pose proof (Z.prime_ge_2 p Hp) as Hp2. split.
  - intros Hg. split.
    + assert (Hd : (Z.gcd c cs | Z.gcd c (cs * p))).
      { apply Z.gcd_greatest; [apply Z.gcd_divide_l|].
        apply Z.divide_trans with cs; [apply Z.gcd_divide_r|apply Z.divide_factor_l]. }
      rewrite Hg in Hd. pose proof (Z.gcd_nonneg c cs).
      apply Z.divide_1_r_nonneg in Hd; lia.
    + intros Hd.
      assert (Hd' : (p | Z.gcd c (cs * p))).
      { apply Z.gcd_greatest; [exact Hd|apply Z.divide_factor_r]. }
      rewrite Hg in Hd'. apply Z.divide_1_r_nonneg in Hd'; lia.
  - intros [Hg Hnd]. apply Z.coprime_mul_r; [exact Hg|].
    apply RelationClasses.symmetry. apply Z.coprime_prime_l; assumption.
Qed.

Lemma sieve_out_prime (p x ip i' cs : Z) (b : BITMAP) :
  Z.prime p -> ip = 1 \/ ip = -1 -> i' = 1 \/ i' = -1 ->
  p = 6 * x + ip -> 1 <= x -> 0 < cs ->
  (forall q, Z.prime q -> 5 <= q < p -> (q | cs)) ->
  (forall i, 1 <= i <= cs * p ->
             (bitmap_get_bit b i = true <-> Z.gcd (6 * i + i') cs = 1)) ->
  forall i, 1 <= i <= cs * p ->
    (bitmap_get_bit
       (bitmap_clear_mod_p (if ip =? i' then bitmap_clear_bit b x else b) p
          (p * x + ip * i' * x) (cs * p + 1)) i = true <->
     Z.gcd (6 * i + i') (cs * p) = 1).
Proof.
  intros Hp Hip Hi' Hpx Hx Hcs Hall Hb i Hi.
  pose proof (Z.prime_ge_2 p Hp) as Hp2.
  rewrite (coprime_mul_prime _ cs p Hp), <- (Hb i Hi).
  set (inner := if ip =? i' then bitmap_clear_bit b x else b).
  assert (Hinner : bitmap_get_bit inner i =
                   if (ip =? i') && (i =? x) then false else bitmap_get_bit b i).
  { unfold inner. destruct (ip =? i'); cbn [andb]; [|reflexivity].
    unfold bitmap_get_bit, bitmap_clear_bit. cbn [data]. reflexivity. }
  split.
  - intros Hset.
    assert (Hin : bitmap_get_bit inner i = true).
    { destruct (bitmap_get_bit inner i) eqn:E; [reflexivity|].
      rewrite (clear_mod_p_stays_clear inner p _ _ i E) in Hset. discriminate. }
    assert (Hbi : bitmap_get_bit b i = true).
    { rewrite Hinner in Hin. destruct ((ip =? i') && (i =? x)); [discriminate|exact Hin]. }
    split; [exact Hbi|]. intros [r Hr].
    assert (Hr1 : 1 <= r) by (destruct Hi' as [-> | ->]; nia).
    destruct (Z_le_gt_dec p r) as [Hge|Hlt].
    + destruct (mark_covers x ip i' i r Hip Hi') as (k & Hk & Hik).
      * rewrite <- Hpx. lia.
      * lia.
      * rewrite <- Hpx in Hik.
        rewrite (clear_mod_p_hit inner p (p * x + ip * i' * x) (cs * p + 1) i k) in Hset;
          [discriminate|lia|exact Hk|lia|lia].
    + destruct (Z.eq_dec r 1) as [->|Hne].
      * assert (ip = i' /\ i = x) as [-> ->].
        { destruct Hip as [-> | ->]; destruct Hi' as [-> | ->]; lia. }
        rewrite Hinner, Z.eqb_refl, Z.eqb_refl in Hin. discriminate.
      * destruct (prime_divisor_exists r ltac:(lia)) as (q & Hq & Hqr).
        assert (Hqc : (q | 6 * i + i')).
        { rewrite Hr. apply Z.divide_trans with r; [exact Hqr|apply Z.divide_factor_l]. }
        pose proof (prime_factor_of_candidate q i i' Hq Hi' Hqc) as Hq5.
        assert (Hqle : q <= r) by (apply Z.divide_pos_le; [lia|exact Hqr]).
        assert (Hqcs : (q | cs)) by (apply Hall; [exact Hq|lia]).
        assert (Hg : (q | Z.gcd (6 * i + i') cs)) by (apply Z.gcd_greatest; assumption).
        apply Hb in Hbi; [|exact Hi]. rewrite Hbi in Hg.
        apply Z.divide_1_r_nonneg in Hg; lia.
  - intros [Hbi Hnd].
    assert (Hin : bitmap_get_bit inner i = true).
    { rewrite Hinner. destruct (Z.eqb_spec ip i') as [E|E]; cbn [andb]; [|exact Hbi].
      destruct (Z.eqb_spec i x) as [E'|E']; [|exact Hbi].
      exfalso. apply Hnd. subst. exists 1. ring. }
    destruct (bitmap_get_bit (bitmap_clear_mod_p inner p (p * x + ip * i' * x) (cs * p + 1)) i)
      eqn:E; [reflexivity|exfalso].
    destruct (clear_mod_p_cleared inner p _ _ i ltac:(lia) Hin E) as (k & Hk & Hik).
    apply Hnd. exists (6 * x + ip * i' + 6 * k).
    pose proof (mark_value x ip i' k Hip Hi') as Hmv.
    rewrite Hik, Hpx. rewrite <- Hpx at 1. lia.
Qed.


Lemma duplicate_segment_get (b : BITMAP) (cs p i : Z) :
  0 < cs -> 1 <= i <= cs * p ->
  bitmap_get_bit (bitmap_duplicate_segment b 1 cs p) i =
  bitmap_get_bit b (1 + (i - 1) mod cs).
Proof.
  intros Hcs Hi. unfold bitmap_get_bit, bitmap_duplicate_segment. cbn [data].
  destruct ((1 + cs <=? i) && (i <? 1 + p * cs)) eqn:E; [reflexivity|].
  apply andb_false_iff in E. destruct E as [E|E].
  - apply Z.leb_gt in E. rewrite Z.mod_small by lia. f_equal. lia.
  - apply Z.ltb_ge in E. lia.
Qed.

Lemma gcd_same_residue (a a' cs : Z) :
  a mod cs = a' mod cs -> (Z.gcd a cs = 1 <-> Z.gcd a' cs = 1).
Proof.
  intros H. change (Z.coprime a cs <-> Z.coprime a' cs).
  rewrite <- (Z.coprime_mod_l_iff a cs), <- (Z.coprime_mod_l_iff a' cs), H. reflexivity.
Qed.

Lemma duplicate_segment_ok (b : BITMAP) (cs p i' : Z) :
  0 < cs ->
  (forall i, 1 <= i <= cs -> (bitmap_get_bit b i = true <-> Z.gcd (6 * i + i') cs = 1)) ->
  forall i, 1 <= i <= cs * p ->
    (bitmap_get_bit (bitmap_duplicate_segment b 1 cs p) i = true <->
     Z.gcd (6 * i + i') cs = 1).
Proof.
  intros Hcs Hb i Hi. rewrite duplicate_segment_get by assumption.
  pose proof (Z.mod_pos_bound (i - 1) cs Hcs) as Hm.
  rewrite Hb by lia. apply gcd_same_residue.
  pose proof (Z.div_mod (i - 1) cs ltac:(lia)) as Hd.
  replace (6 * i + i') with (6 * (1 + (i - 1) mod cs) + i' + (6 * ((i - 1) / cs)) * cs) by lia.
  rewrite Z.mod_add by lia. reflexivity.
Qed.

Lemma construct_iZm_step_ok (p cs : Z) (s : BITMAP * BITMAP) :
  Z.prime p -> 5 <= p -> p * p < U64 -> 0 < cs -> cs * p < U64 ->
  (forall q, Z.prime q -> 5 <= q < p -> (q | cs)) ->
  base_ok cs s ->
  base_ok (cs * p) (construct_iZm_step p cs s).
Proof.
  intros Hp Hp5 Hpp Hcs Hfit Hall Hok. destruct s as [x5 x7].
  assert (H5 : forall i, 1 <= i <= cs ->
             (bitmap_get_bit x5 i = true <-> Z.gcd (6 * i + -1) cs = 1))
    by (intros i Hi; apply (Hok i Hi)).
  assert (H7 : forall i, 1 <= i <= cs ->
             (bitmap_get_bit x7 i = true <-> Z.gcd (6 * i + 1) cs = 1))
    by (intros i Hi; apply (Hok i Hi)).
  pose proof (duplicate_segment_ok x5 cs p (-1) Hcs H5) as D5.
  pose proof (duplicate_segment_ok x7 cs p 1 Hcs H7) as D7.
  pose proof (Z.div_mod (p + 1) 6 ltac:(lia)) as Hd.
  pose proof (Z.mod_pos_bound (p + 1) 6 ltac:(lia)) as Hb.
  set (x := (p + 1) / 6) in *.
  unfold construct_iZm_step. fold x.
  rewrite (wrap64_small (cs * p)) by lia.
  destruct (prime_mod_6 p Hp Hp5) as [Hm|Hm].
  - (* p = 6 x + 1 *)
    assert (Hpx : p = 6 * x + 1).
    { pose proof (Z.add_mod p 1 6 ltac:(lia)) as Ha. rewrite Hm in Ha.
      change ((1 + 1 mod 6) mod 6) with 2 in Ha. lia. }
    rewrite Hm. change (1 <? 1) with false. cbv iota.
    rewrite (wrap64_small (p * x - x)) by nia.
    rewrite (wrap64_small (p * x + x)) by nia.
    intros i Hi. cbn [fst snd]. split.
    + replace (p * x - x) with (p * x + 1 * -1 * x) by ring.
      apply (sieve_out_prime p x 1 (-1) cs (bitmap_duplicate_segment x5 1 cs p));
        auto; lia.
    + replace (p * x + x) with (p * x + 1 * 1 * x) by ring.
      apply (sieve_out_prime p x 1 1 cs (bitmap_duplicate_segment x7 1 cs p));
        auto; lia.
  - (* p = 6 x - 1 *)
    assert (Hpx : p = 6 * x + -1).
    { pose proof (Z.add_mod p 1 6 ltac:(lia)) as Ha. rewrite Hm in Ha.
      change ((5 + 1 mod 6) mod 6) with 0 in Ha. lia. }
    rewrite Hm. change (1 <? 5) with true. cbv iota.
    rewrite (wrap64_small (p * x - x)) by nia.
    rewrite (wrap64_small (p * x + x)) by nia.
    intros i Hi. cbn [fst snd]. split.
    + replace (p * x + x) with (p * x + -1 * -1 * x) by ring.
      apply (sieve_out_prime p x (-1) (-1) cs (bitmap_duplicate_segment x5 1 cs p));
        auto; lia.
    + replace (p * x - x) with (p * x + -1 * 1 * x) by ring.
      apply (sieve_out_prime p x (-1) 1 cs (bitmap_duplicate_segment x7 1 cs p));
        auto; lia.
Qed.

Lemma construct_iZm_loop_ok (vx : Z) (ps : list Z) :
  forall b cs s,
    prime_chain b ps -> 5 <= b -> 0 < cs ->
    Forall (fun p => p * p < U64) ps ->
    cs * fold_right Z.mul 1 ps < U64 ->
    (forall q, Z.prime q -> 5 <= q <= b -> (q | cs)) ->
    base_ok cs s ->
    base_ok (iZm_segment_size ps vx cs) (construct_iZm_loop ps vx cs s).
Proof.
  induction ps as [|p ps IH]; intros b cs s Hchain Hb Hcs Hpp Hfit Hall Hok.
  - exact Hok.
  - cbn [prime_chain] in Hchain. destruct Hchain as (Hp & Hbp & Hnext & Hchain).
    inversion Hpp as [|? ? Hp2 Hpp']; subst.
    cbn [fold_right] in Hfit.
    assert (Hprod : 1 <= fold_right Z.mul 1 ps).
    { clear -Hchain Hb Hbp. revert p Hbp Hchain. induction ps as [|a l IH']; intros p Hbp Hc.
      - cbn. lia.
      - cbn [prime_chain] in Hc. destruct Hc as (_ & Hpa & _ & Hc).
        cbn [fold_right]. specialize (IH' a ltac:(lia) Hc). nia. }
    assert (Hcsp : cs * p < U64) by nia.
    cbn [iZm_segment_size construct_iZm_loop].
    destruct (vx mod p =? 0); [|exact Hok].
    rewrite (wrap64_small (cs * p)) by nia.
    apply (IH p); auto; try lia; try nia.
    + intros q Hq Hq5. destruct (Z.eq_dec q p) as [->|Hne]; [apply Z.divide_factor_r|].
      apply Z.divide_trans with cs; [|apply Z.divide_factor_l].
      apply Hall; [exact Hq|]. destruct (Z_le_gt_dec q b) as [H|H]; [lia|].
      exfalso. apply Hne. apply Hnext; [exact Hq|lia].
    + apply construct_iZm_step_ok; auto; try lia.
      intros q Hq Hq5. apply Hall; [exact Hq|].
      destruct (Z_le_gt_dec q b) as [H|H]; [lia|].
      assert (q = p) by (apply Hnext; [exact Hq|lia]). lia.
Qed.

Lemma next_prime_is (b p q : Z) :
  forallb (fun c => negb (is_prime_b c)) (map (fun k => b + 1 + Z.of_nat k)
                                              (seq 0 (Z.to_nat (p - b - 1)))) = true ->
  Z.prime q -> b < q <= p -> q = p.
Proof.
  intros Hnone Hq Hr. destruct (Z.eq_dec q p) as [E|E]; [exact E|exfalso].
  pose proof (forallb_range _ (b + 1) _ Hnone q ltac:(lia)) as Hc. cbv beta in Hc.
  rewrite (is_prime_b_complete q Hq) in Hc. discriminate.
Qed.

Lemma prime_chain_table : prime_chain 7 (firstn 8 (skipn 2 s_primes)).
Proof.
  cbn [s_primes firstn skipn prime_chain].
  repeat (split; [apply is_prime_b_sound; reflexivity|];
          split; [lia|];
          split; [intros q; apply next_prime_is; reflexivity|]).
  exact I.
Qed.

(** For vx the product of the first k primes of the table, 2 <= k <= 9,
    construct_iZm_segment on fresh bitmaps leaves, at every index 1..vx, a bit
    of x5 set exactly when 6 i - 1 is coprime to vx and a bit of x7 set
    exactly when 6 i + 1 is coprime to vx. *)
Theorem construct_iZm_segment_coprime (k : nat) (n5 n7 : Z) :
  (2 <= k <= 9)%nat ->
  vx_of k < n5 -> vx_of k < n7 ->
  forall i, 1 <= i <= vx_of k ->
    (bitmap_get_bit
       (fst (construct_iZm_segment (vx_of k) (bitmap_create n5) (bitmap_create n7))) i = true
     <-> Z.gcd (6 * i - 1) (vx_of k) = 1) /\
    (bitmap_get_bit
       (snd (construct_iZm_segment (vx_of k) (bitmap_create n5) (bitmap_create n7))) i = true
     <-> Z.gcd (6 * i + 1) (vx_of k) = 1).
Proof.
  intros Hk _ _.
  assert (Hsize : iZm_segment_size (firstn 8 (skipn 2 s_primes)) (vx_of k) 35 = vx_of k).
  { do 10 (destruct k as [|k]; [first [lia | vm_compute; reflexivity]|]). lia. }
  change (base_ok (vx_of k)
            (construct_iZm_segment (vx_of k) (bitmap_create n5) (bitmap_create n7))).
  rewrite <- Hsize at 1. unfold construct_iZm_segment.
  apply (construct_iZm_loop_ok (vx_of k) _ 7).
  - exact prime_chain_table.
  - lia.
  - lia.
  - cbn [s_primes firstn skipn]. repeat constructor.
  - vm_compute. reflexivity.
  - intros q Hq Hq5.
    assert (Hc : q = 5 \/ q = 6 \/ q = 7) by lia.
    destruct Hc as [-> | [-> | ->]].
    + exists 7. reflexivity.
    + apply is_prime_b_complete in Hq. discriminate Hq.
    + exists 5. reflexivity.
  - apply construct_vx2_base_ok. intros i _. split; reflexivity.
Qed.

Lemma construct_iZm_segment_coprime_witness :
  bitmap_get_bit
    (fst (construct_iZm_segment (vx_of 3) (bitmap_create 395) (bitmap_create 395))) 4 = true
  <-> Z.gcd (6 * 4 - 1) (vx_of 3) = 1.
Proof.
  assert (Hk : (2 <= 3 <= 9)%nat) by lia.
  assert (Hn : vx_of 3 < 395) by reflexivity.
  assert (Hi : 1 <= 4 <= vx_of 3) by (split; [lia|discriminate]).
  exact (proj1 (construct_iZm_segment_coprime 3 395 395 Hk Hn Hn 4 Hi)).
Defined.

(** ** sieve_vx in a slab the sieve alone decides *)

Lemma vx_mark_root_primes_clears (vx y root_limit : Z) (ps : list Z) :
  forall (s : BITMAP * BITMAP) (q x i : Z),
    StronglySorted Z.lt ps ->
    In q ps -> q <= root_limit -> Z.rem vx q <> 0 ->
    5 <= q < U64 -> q mod 6 = 1 \/ q mod 6 = 5 ->
    i = 1 \/ i = -1 -> 1 <= x < vx ->
    (q | 6 * (y * vx + x) + i) ->
    bitmap_get_bit
      (if i =? 1 then snd (vx_mark_root_primes ps vx y root_limit false s)
       else fst (vx_mark_root_primes ps vx y root_limit false s)) x = false.
Proof.
  induction ps as [|p ps IH]; intros s q x i Hs Hin Hle Hrem Hq Hmod Hi Hx Hd; [destruct Hin|].
  apply StronglySorted_inv in Hs. destruct Hs as [Hs Hall]. rewrite Forall_forall in Hall.
  cbn [vx_mark_root_primes].
  destruct (Z.rem vx p =? 0) eqn:Erem.
  { apply Z.eqb_eq in Erem. destruct Hin as [->|Hin]; [contradiction|].
    apply (IH s q x i); assumption. }
  cbn [negb andb]. destruct (root_limit <? p) eqn:Ebrk.
  { apply Z.ltb_lt in Ebrk. exfalso. destruct Hin as [->|Hin]; [lia|].
    pose proof (Hall q Hin). lia. }
  destruct s as [x5 x7].
  destruct Hin as [->|Hin]; [|apply (IH _ q x i); assumption].
  destruct (solve_for_x_gmp_correct i q vx y Hi Hq Hmod) as (Hr & _ & _ & Huniq).
  pose proof (Z.div_mod (x - 1) q ltac:(lia)) as Hdm.
  pose proof (Z.mod_pos_bound (x - 1) q ltac:(lia)) as Hmb.
  assert (Hstart : (x - 1) mod q + 1 = solve_for_x_gmp i q vx y).
  { apply Huniq; [lia|]. destruct Hd as [c Hc]. exists (c - 6 * ((x - 1) / q)). lia. }
  assert (Hpos : 0 <= (x - 1) / q) by (apply Z.div_pos; lia).
  match goal with
  | |- context [vx_mark_root_primes ps vx y root_limit false ?t] =>
      pose proof (vx_mark_root_primes_stays_clear vx y root_limit false ps t x) as [S5 S7]
  end.
  cbn [fst snd] in S5, S7.
  destruct Hi as [-> | ->]; cbn [Z.eqb Pos.eqb].
  - apply S7.
    apply (clear_mod_p_hit x7 q (solve_for_x_gmp 1 q vx y) vx x ((x - 1) / q)); lia.
  - apply S5.
    apply (clear_mod_p_hit x5 q (solve_for_x_gmp (-1) q vx y) vx x ((x - 1) / q)); lia.
Qed.

Lemma vx_of_bounds (k : nat) : (2 <= k <= 7)%nat -> 35 <= vx_of k <= 37182145.
Proof.
  intros Hk. do 8 (destruct k as [|k]; [first [lia | vm_compute; split; discriminate]|]). lia.
Qed.

Lemma vx_of_composite (k : nat) : (2 <= k <= 7)%nat -> (5 | vx_of k) /\ 5 < vx_of k.
Proof.
  intros Hk. pose proof (vx_of_bounds k Hk). split; [|lia].
  do 8 (destruct k as [|k]; [first [lia | apply Z.mod_divide; [lia|reflexivity]]|]). lia.
Qed.

Lemma mpz_set_str_nonneg (s : String.string) : 0 <= mpz_set_str s.
Proof.
  unfold mpz_set_str.
  assert (H : forall acc, 0 <= acc -> forall v, parse_digits s acc = Some v -> 0 <= v).
  { induction s as [|c s IH]; intros acc Hacc v Hv; cbn [parse_digits] in Hv.
    - injection Hv as <-. exact Hacc.
    - destruct (digit_of_ascii c) as [d|] eqn:Ed; [|discriminate].
      apply (IH (10 * acc + d)); [|exact Hv].
      unfold digit_of_ascii in Ed.
      destruct ((48 <=? Z.of_N (Ascii.N_of_ascii c)) && (Z.of_N (Ascii.N_of_ascii c) <=? 57))
        eqn:E; [|discriminate].
      injection Ed as <-. apply andb_prop in E. destruct E as [E _].
      apply Z.leb_le in E. lia. }
  destruct (parse_digits s 0) as [v|] eqn:E; [|lia]. apply (H 0 ltac:(lia) v E).
Qed.

Lemma sorted_tail2 (a b : Z) (t : list Z) :
  StronglySorted Z.lt (a :: b :: t) -> StronglySorted Z.lt t.
Proof.
  intros H. apply StronglySorted_inv in H. destruct H as [H _].
  apply StronglySorted_inv in H. apply H.
Qed.

Lemma sqrt_bound_of_square (q c l : Z) : 0 <= q -> q * q <= c -> c <= l -> q <= Z.sqrt l.
Proof.
  intros Hq Hqq Hc. apply Z.sqrt_le_square; lia.
Qed.

(** The working bitmaps of sieve_vx for the assets of vx_assets_init, when
    the root limit does not exceed vx: below index vx a bit is set exactly
    when its candidate is a prime above the root limit that does not divide
    vx. *)
Lemma vx_working_bitmaps_small (k : nat) (y x i : Z) (ro : PRIMES_OBJ) :
  (2 <= k <= 7)%nat -> 0 <= y ->
  Z.sqrt (iZ_gmp (y * vx_of k + vx_of k) 1) <= vx_of k ->
  sieve_iZ (vx_of k) = Some ro ->
  i = 1 \/ i = -1 -> 1 <= x < vx_of k ->
  (bitmap_get_bit
     (if i =? 1
      then snd (vx_working_bitmaps (vx_of k) y (p_array ro) (vx_assets_init (vx_of k)))
      else fst (vx_working_bitmaps (vx_of k) y (p_array ro) (vx_assets_init (vx_of k)))) x
   = true <->
   Z.prime (iZ_gmp (y * vx_of k + x) i) /\
   Z.sqrt (iZ_gmp (y * vx_of k + vx_of k) 1) < iZ_gmp (y * vx_of k + x) i /\
   ~ (iZ_gmp (y * vx_of k + x) i | vx_of k)).
Proof.
  intros Hk Hy Hsmall Hro Hi Hx.
  pose proof (vx_of_bounds k Hk) as Hvb.
  destruct (vx_of_composite k Hk) as [H5 _].
  set (vx := vx_of k) in *.
  set (limit := Z.sqrt (iZ_gmp (y * vx + vx) 1)) in *.
  assert (Hc : iZ_gmp (y * vx + x) i = 6 * (y * vx + x) + i).
  { unfold iZ_gmp. destruct Hi as [-> | ->]; cbn [Z.ltb Z.compare]; lia. }
  assert (Hupper : iZ_gmp (y * vx + x) i <= iZ_gmp (y * vx + vx) 1).
  { rewrite Hc. unfold iZ_gmp. cbn [Z.ltb Z.compare]. destruct Hi as [-> | ->]; lia. }
  set (c := iZ_gmp (y * vx + x) i) in *.
  assert (Hc5 : 5 <= c) by (destruct Hi as [-> | ->]; nia).
  (* the root primes *)
  assert (HnU : 10 <= vx < U64) by (rewrite U64_value; lia).
  destruct (sieve_iZ_correct vx HnU) as (o' & Ho' & [t Ht] & Hprimes & Hlen & Hsorted & Hcomplete).
  rewrite Hro in Ho'. injection Ho' as <-.
  pose proof (sieve_iZ_root_primes vx ro HnU Hro) as Hform.
  assert (Hs2 : StronglySorted Z.lt (skipn 2 (p_array ro))).
  { rewrite Ht. cbn [skipn]. rewrite Ht in Hsorted. eapply sorted_tail2, Hsorted. }
  assert (Hroot : forall q, Z.prime q -> 5 <= q -> q <= vx -> ~ (q | vx) ->
                            In q (skipn 2 (p_array ro))).
  { intros q Hq Hq5 Hqv Hnd.
    assert (Hin : In q (p_array ro)).
    { apply Hcomplete; [exact Hq|exact Hqv|].
      assert (q <> vx) by (intros ->; apply Hnd; exists 1; ring).
      pose proof (Z.div_mod vx 6 ltac:(lia)). pose proof (Z.mod_pos_bound vx 6 ltac:(lia)).
      lia. }
    rewrite Ht in Hin |- *. cbn [skipn]. destruct Hin as [E|[E|Hin]]; [lia|lia|exact Hin]. }
  (* the base bitmaps *)
  unfold vx_working_bitmaps. cbv zeta. fold vx. fold limit.
  replace (vx <? limit) with false by (symmetry; apply Z.ltb_ge; exact Hsmall).
  assert (Hbase : base_ok vx (base_x5 (vx_assets_init vx), base_x7 (vx_assets_init vx))).
  { unfold vx_assets_init.
    pose proof (construct_iZm_segment_coprime k (vx + 10) (vx + 10)) as Hcop. fold vx in Hcop.
    destruct (construct_iZm_segment vx (bitmap_create (vx + 10)) (bitmap_create (vx + 10)))
      as [b5 b7]. cbn [base_x5 base_x7 fst snd] in *.
    intros j Hj. apply Hcop; lia. }
  set (base := (bitmap_clone (base_x5 (vx_assets_init vx)),
                bitmap_clone (base_x7 (vx_assets_init vx)))).
  assert (Hbit : bitmap_get_bit (if i =? 1 then snd base else fst base) x = true <->
                 Z.gcd c vx = 1).
  { destruct (Hbase x ltac:(lia)) as [B5 B7]. cbn [fst snd] in B5, B7.
    unfold base. cbn [fst snd].
    assert (Hres : forall a, (a + (6 * y) * vx) mod vx = a mod vx)
      by (intros a; apply Z.mod_add; lia).
    destruct Hi as [-> | ->]; cbn [Z.eqb Pos.eqb].
    - change (bitmap_get_bit (bitmap_clone (base_x7 (vx_assets_init vx))) x)
        with (bitmap_get_bit (base_x7 (vx_assets_init vx)) x).
      rewrite B7. apply gcd_same_residue. rewrite Hc, <- (Hres (6 * x + 1)). f_equal. ring.
    - change (bitmap_get_bit (bitmap_clone (base_x5 (vx_assets_init vx))) x)
        with (bitmap_get_bit (base_x5 (vx_assets_init vx)) x).
      rewrite B5. apply gcd_same_residue. rewrite Hc, <- (Hres (6 * x - 1)). f_equal. ring. }
  pose proof (vx_mark_root_primes_stays_clear vx y limit false (skipn 2 (p_array ro)) base x)
    as [S5 S7].
  destruct (vx_mark_root_primes_keeps vx y limit false (skipn 2 (p_array ro)) base x)
    as [K5 K7].
  { intros p Hp _ _. destruct (Hform p Hp) as (_ & Hp5 & Hpm). split; assumption. }
  pose proof (fun q => vx_mark_root_primes_clears vx y limit (skipn 2 (p_array ro)) base q x i)
    as Hclr.
  set (w := vx_mark_root_primes (skipn 2 (p_array ro)) vx y limit false base) in *.
  assert (Hcut : forall q, Z.prime q -> q <= limit -> ~ (q | vx) -> (q | c) ->
                           bitmap_get_bit (if i =? 1 then snd w else fst w) x = false).
  { intros q Hq Hql Hnd Hqc.
    assert (Hq5 : 5 <= q) by (apply (prime_factor_of_candidate q (y * vx + x) i); auto;
                              rewrite <- Hc; exact Hqc).
    assert (Hin : In q (skipn 2 (p_array ro))) by (apply Hroot; auto; lia).
    destruct (Hform q Hin) as (_ & HqU & Hqm).
    apply (Hclr q); auto.
    - intros E. apply Hnd. apply Z.rem_divide; [lia|exact E].
    - rewrite <- Hc. exact Hqc. }
  split.
  - intros Hset.
    assert (Hg : Z.gcd c vx = 1).
    { apply Hbit. destruct (bitmap_get_bit (if i =? 1 then snd base else fst base) x) eqn:E;
        [reflexivity|exfalso].
      destruct Hi as [-> | ->]; cbn [Z.eqb Pos.eqb] in *.
      - rewrite (S7 E) in Hset. discriminate.
      - rewrite (S5 E) in Hset. discriminate. }
    assert (Hndv : forall q, 2 <= q -> (q | c) -> ~ (q | vx)).
    { intros q Hq2 Hqc Hqv.
      assert (Hqg : (q | Z.gcd c vx)) by (apply Z.gcd_greatest; assumption).
      rewrite Hg in Hqg. apply Z.divide_1_r_nonneg in Hqg; lia. }
    assert (Hprime : Z.prime c).
    { destruct (prime_or_not c) as [H|H]; [exact H|exfalso].
      destruct (composite_has_small_prime_factor c ltac:(lia) H) as (q & Hq & Hqq & Hqc).
      pose proof (Z.prime_ge_2 q Hq).
      rewrite (Hcut q Hq) in Hset; [discriminate| |apply Hndv; [lia|exact Hqc]|exact Hqc].
      apply (sqrt_bound_of_square q c); [lia|exact Hqq|exact Hupper]. }
    split; [exact Hprime|]. split.
    + destruct (Z_lt_le_dec limit c) as [Hlt|Hle]; [exact Hlt|exfalso].
      rewrite (Hcut c Hprime Hle) in Hset; [discriminate| |apply Z.divide_refl].
      apply Hndv; [lia|apply Z.divide_refl].
    + apply Hndv; [lia|apply Z.divide_refl].
  - intros (Hprime & Hlt & Hndv).
    assert (Hg : Z.gcd c vx = 1) by (apply Z.coprime_prime_l; assumption).
    apply Hbit in Hg.
    assert (Hnone : forall p, In p (skipn 2 (p_array ro)) -> (false = false -> p <= limit) ->
                              ~ (p | c)).
    { intros p Hp Hple Hpc. specialize (Hple eq_refl).
      destruct (Hform p Hp) as (Hpp & Hp5 & _).
      apply (Z.divide_prime_r p c Hprime) in Hpc. lia. }
    rewrite Hc in Hnone.
    destruct Hi as [-> | ->]; cbn [Z.eqb Pos.eqb] in *.
    + apply K7; [exact Hg|exact Hnone].
    + apply K5; [exact Hg|exact Hnone].
Qed.


Lemma for_range_last {S : Type} (body : Z -> S -> S) (k : nat) :
  forall x s, for_range (Datatypes.S k) x body s = body (x + Z.of_nat k) (for_range k x body s).
Proof.
  induction k as [|k IH]; intros x s.
  - cbn [for_range]. rewrite Z.add_0_r. reflexivity.
  - change (for_range (Datatypes.S (Datatypes.S k)) x body s)
      with (for_range (Datatypes.S k) (x + 1) body (body x s)).
    rewrite IH. cbn [for_range]. f_equal. lia.
Qed.

Lemma for_loop_last {S : Type} (lo hi : Z) (body : Z -> S -> S) (s : S) :
  lo <= hi -> for_loop lo (hi + 1) body s = body hi (for_loop lo hi body s).
Proof.
  intros H. unfold for_loop.
  replace (Z.to_nat (hi + 1 - lo)) with (Datatypes.S (Z.to_nat (hi - lo))) by lia.
  rewrite for_range_last. f_equal. lia.
Qed.

Section SlabWalk.

Variable test : Z -> Z -> Z.
Variables (x5 x7 : BITMAP) (yvx : Z) (large : bool).

Lemma slab_walk_next (x : Z) :
  1 <= x ->
  slab_walk test x5 x7 yvx large (x + 1) = slab_walk test x5 x7 yvx large x ++ vx_keep test x5 yvx large (-1) x ++ vx_keep test x7 yvx large 1 x.
Proof. intros Hx. unfold slab_walk. rewrite for_loop_last by lia. reflexivity. Qed.

Lemma slab_walk_first : slab_walk test x5 x7 yvx large 1 = [].
Proof. reflexivity. Qed.

Lemma vx_emit_one_refines (bits : BITMAP) (i x gap : Z) (o : VX_OBJ) (W : list Z) :
  p_gaps o = map wrap16 (gaps_from (iZ_gmp yvx 1) W) ->
  gap = iZ_gmp (yvx + x) i - last W (iZ_gmp yvx 1) ->
  p_gaps (snd (vx_emit_one test bits yvx large i x (gap, o))) =
    map wrap16 (gaps_from (iZ_gmp yvx 1) (W ++ vx_keep test bits yvx large i x)) /\
  fst (vx_emit_one test bits yvx large i x (gap, o)) =
    iZ_gmp (yvx + x) i - last (W ++ vx_keep test bits yvx large i x) (iZ_gmp yvx 1).
Proof.
  intros Hg Hgap. unfold vx_emit_one, vx_keep.
  destruct (bitmap_get_bit bits x); cbn [andb];
    [|rewrite app_nil_r; cbn [fst snd]; auto].
  destruct (if large then negb (test (iZ_gmp (yvx + x) i) 25 =? 0) else true);
    [|rewrite app_nil_r; cbn [fst snd]; auto].
  cbn [fst snd]. unfold vx_append_p_gap. cbn [p_gaps].
  rewrite gaps_from_app, map_app, last_app_one, Hg, Hgap. cbn [map]. split; [reflexivity|lia].
Qed.

Lemma vx_emit_body_refines (x : Z) (s : Z * VX_OBJ) :
  1 <= x ->
  p_gaps (snd s) = map wrap16 (gaps_from (iZ_gmp yvx 1) (slab_walk test x5 x7 yvx large x)) ->
  fst s = iZ_gmp (yvx + x - 1) 1 - last (slab_walk test x5 x7 yvx large x) (iZ_gmp yvx 1) ->
  p_gaps (snd (vx_emit_body test x5 x7 yvx large x s)) =
    map wrap16 (gaps_from (iZ_gmp yvx 1) (slab_walk test x5 x7 yvx large (x + 1))) /\
  fst (vx_emit_body test x5 x7 yvx large x s) =
    iZ_gmp (yvx + (x + 1) - 1) 1 - last (slab_walk test x5 x7 yvx large (x + 1)) (iZ_gmp yvx 1).
Proof.
  intros Hx Hg Hgap. unfold vx_emit_body. rewrite slab_walk_next by exact Hx.
  destruct s as [gap o]. cbn [fst snd] in *.
  destruct (vx_emit_one_refines x5 (-1) x (gap + 4) o (slab_walk test x5 x7 yvx large x) Hg) as [G1 F1].
  { rewrite Hgap. unfold iZ_gmp. cbn [Z.ltb Z.compare]. lia. }
  set (s1 := vx_emit_one test x5 yvx large (-1) x (gap + 4, o)) in *.
  destruct s1 as [gap1 o1]. cbn [fst snd] in *.
  destruct (vx_emit_one_refines x7 1 x (gap1 + 2) o1
              (slab_walk test x5 x7 yvx large x ++ vx_keep test x5 yvx large (-1) x) G1) as [G2 F2].
  { rewrite F1. unfold iZ_gmp. cbn [Z.ltb Z.compare]. lia. }
  rewrite <- app_assoc in G2, F2.
  replace (yvx + (x + 1) - 1) with (yvx + x) by ring.
  split; assumption.
Qed.

Lemma vx_emit_loop_refines (vx : Z) (o : VX_OBJ) :
  0 <= vx ->
  p_gaps o = [] ->
  p_gaps (snd (for_loop 1 (vx + 1) (vx_emit_body test x5 x7 yvx large) (0, o))) =
  map wrap16 (gaps_from (iZ_gmp yvx 1) (slab_walk test x5 x7 yvx large (vx + 1))).
Proof.
  intros Hvx Hnil.
  apply (for_loop_ind (fun x s =>
           p_gaps (snd s) = map wrap16 (gaps_from (iZ_gmp yvx 1) (slab_walk test x5 x7 yvx large x)) /\
           fst s = iZ_gmp (yvx + x - 1) 1 - last (slab_walk test x5 x7 yvx large x) (iZ_gmp yvx 1))).
  - lia.
  - rewrite slab_walk_first. cbn [fst snd gaps_from map last]. split; [exact Hnil|].
    replace (yvx + 1 - 1) with yvx by ring. lia.
  - intros x s Hx [Hg Hgap]. apply vx_emit_body_refines; [lia|exact Hg|exact Hgap].
Qed.

Lemma vx_keep_in (bits : BITMAP) (i x c : Z) :
  In c (vx_keep test bits yvx large i x) <->
  c = iZ_gmp (yvx + x) i /\ bitmap_get_bit bits x = true /\
  (large = true -> test c 25 <> 0).
Proof.
  unfold vx_keep. destruct (bitmap_get_bit bits x); cbn [andb].
  - destruct large.
    + destruct (Z.eqb_spec (test (iZ_gmp (yvx + x) i) 25) 0) as [E|E]; cbn [negb In].
      * split; [intros []|]. intros (-> & _ & H). exfalso. apply H; auto.
      * split.
        -- intros [<- | []]. auto.
        -- intros (-> & _). left. reflexivity.
    + cbn [In]. split.
      * intros [<- | []]. split; [reflexivity|]. split; [reflexivity|discriminate].
      * intros (-> & _). left. reflexivity.
  - cbn [In]. split; [intros []|]. intros (_ & H & _). discriminate.
Qed.

Lemma slab_walk_in (hi c : Z) :
  1 <= hi ->
  (In c (slab_walk test x5 x7 yvx large hi) <->
   exists x i, 1 <= x < hi /\ (i = 1 \/ i = -1) /\ c = iZ_gmp (yvx + x) i /\
               bitmap_get_bit (if i =? 1 then x7 else x5) x = true /\
               (large = true -> test c 25 <> 0)).
Proof.
  intros Hhi. unfold slab_walk.
  apply (for_loop_ind (fun h acc =>
           In c acc <->
           exists x i, 1 <= x < h /\ (i = 1 \/ i = -1) /\ c = iZ_gmp (yvx + x) i /\
                       bitmap_get_bit (if i =? 1 then x7 else x5) x = true /\
                       (large = true -> test c 25 <> 0))).
  - exact Hhi.
  - split; [intros []|]. intros (x & i & Hx & _). lia.
  - intros h acc Hh IH. rewrite !in_app_iff, IH, !vx_keep_in. split.
    + intros [(x & i & Hx & Hi & Hc & Hb & Ht) | [(Hc & Hb & Ht) | (Hc & Hb & Ht)]].
      * exists x, i. repeat split; auto; lia.
      * exists h, (-1). repeat split; auto; lia.
      * exists h, 1. repeat split; auto; lia.
    + intros (x & i & Hx & Hi & Hc & Hb & Ht).
      destruct (Z.eq_dec x h) as [->|Hne].
      * right. destruct Hi as [-> | ->]; [right|left]; auto.
      * left. exists x, i. repeat split; auto; lia.
Qed.

Lemma slab_walk_sorted (hi : Z) :
  1 <= hi ->
  StronglySorted Z.lt ((iZ_gmp yvx 1) :: slab_walk test x5 x7 yvx large hi) /\
  Forall (fun c => c <= iZ_gmp (yvx + hi - 1) 1) ((iZ_gmp yvx 1) :: slab_walk test x5 x7 yvx large hi).
Proof.
  intros Hhi. unfold slab_walk.
  apply (for_loop_ind (fun h acc =>
           StronglySorted Z.lt ((iZ_gmp yvx 1) :: acc) /\
           Forall (fun c => c <= iZ_gmp (yvx + h - 1) 1) ((iZ_gmp yvx 1) :: acc))).
  - exact Hhi.
  - split; [repeat constructor|]. constructor; [|constructor].
    replace (yvx + 1 - 1) with yvx by ring. lia.
  - intros h acc Hh [Hs Hf].
    assert (Hstep : forall (l : list Z) (b c : Z),
               StronglySorted Z.lt ((iZ_gmp yvx 1) :: l) -> Forall (fun e => e <= b) ((iZ_gmp yvx 1) :: l) ->
               b < c ->
               forall keep, keep = [c] \/ keep = [] ->
               StronglySorted Z.lt ((iZ_gmp yvx 1) :: l ++ keep) /\
               Forall (fun e => e <= c) ((iZ_gmp yvx 1) :: l ++ keep)).
    { intros l b c Hl Hb Hbc keep [-> | ->].
      - split.
        + change ((iZ_gmp yvx 1) :: l ++ [c]) with (((iZ_gmp yvx 1) :: l) ++ [c]).
          apply StronglySorted_app_one; [exact Hl|].
          eapply Forall_impl; [|exact Hb]. cbv beta. intros; lia.
        + change ((iZ_gmp yvx 1) :: l ++ [c]) with (((iZ_gmp yvx 1) :: l) ++ [c]).
          apply Forall_app. split; [|constructor; [lia|constructor]].
          eapply Forall_impl; [|exact Hb]. cbv beta. intros; lia.
      - rewrite app_nil_r. split; [exact Hl|].
        eapply Forall_impl; [|exact Hb]. cbv beta. intros; lia. }
    assert (Hk : forall bits i, vx_keep test bits yvx large i h = [iZ_gmp (yvx + h) i] \/
                                vx_keep test bits yvx large i h = []).
    { intros bits i. unfold vx_keep. destruct (_ && _); auto. }
    destruct (Hstep acc _ (iZ_gmp (yvx + h) (-1)) Hs Hf
                ltac:(unfold iZ_gmp; cbn [Z.ltb Z.compare]; lia) _ (Hk x5 (-1))) as [Hs1 Hf1].
    destruct (Hstep _ _ (iZ_gmp (yvx + h) 1) Hs1 Hf1
                ltac:(unfold iZ_gmp; cbn [Z.ltb Z.compare]; lia) _ (Hk x7 1)) as [Hs2 Hf2].
    rewrite <- app_assoc in Hs2, Hf2.
    replace (yvx + (h + 1) - 1) with (yvx + h) by ring. split; assumption.
Qed.

End SlabWalk.




(** sieve_vx with vx the product of the first k table primes, 2 <= k <= 7,
    and the assets of vx_assets_init, in a slab whose root limit does not
    exceed vx (no primality test is run), the cells fitting the vx / 2
    allocated: strictly between base = iZ(y vx, +1) and iZ(y vx + vx, -1) the
    walk passes exactly through the primes that exceed the root limit and do
    not divide vx; from slab 1 on these are all the primes in between. *)
Theorem sieve_vx_small_slab_exact (test : Z -> Z -> Z) (k : nat) (ystr : String.string) :
  (2 <= k <= 7)%nat ->
  Z.sqrt (iZ_gmp (mpz_set_str ystr * vx_of k + vx_of k) 1) <= vx_of k ->
  exists o',
    sieve_vx test (VxObj.mk (vx_of k) ystr []) (vx_assets_init (vx_of k)) = Some o' /\
    (VxObj.p_count o' <= vx_of k / 2 ->
     exists W,
       p_gaps o' = map wrap16 (gaps_from (iZ_gmp (mpz_set_str ystr * vx_of k) 1) W) /\
       StronglySorted Z.lt (iZ_gmp (mpz_set_str ystr * vx_of k) 1 :: W) /\
       (forall c,
          iZ_gmp (mpz_set_str ystr * vx_of k) 1 < c <
            iZ_gmp (mpz_set_str ystr * vx_of k + vx_of k) (-1) ->
          (In c W <->
           Z.prime c /\
           Z.sqrt (iZ_gmp (mpz_set_str ystr * vx_of k + vx_of k) 1) < c /\
           ~ (c | vx_of k))) /\
       (1 <= mpz_set_str ystr ->
        forall c,
          iZ_gmp (mpz_set_str ystr * vx_of k) 1 < c <
            iZ_gmp (mpz_set_str ystr * vx_of k + vx_of k) (-1) ->
          (In c W <-> Z.prime c))).
Proof.
  intros Hk Hsmall.
  pose proof (vx_of_bounds k Hk) as Hvb.
  pose proof (mpz_set_str_nonneg ystr) as Hy.
  set (vx := vx_of k) in *. set (y := mpz_set_str ystr) in *.
  set (limit := Z.sqrt (iZ_gmp (y * vx + vx) 1)) in *.
  assert (HnU : 10 <= vx < U64) by (rewrite U64_value; lia).
  destruct (sieve_iZ_correct vx HnU) as (ro & Hro & _).
  assert (Hroots : root_primes (vx_assets_init vx) = Some ro).
  { unfold vx_assets_init.
    destruct (construct_iZm_segment vx (bitmap_create (vx + 10)) (bitmap_create (vx + 10))).
    cbn [root_primes]. exact Hro. }
  pose proof (vx_emit_loop_refines test
                (fst (vx_working_bitmaps vx y (p_array ro) (vx_assets_init vx)))
                (snd (vx_working_bitmaps vx y (p_array ro) (vx_assets_init vx)))
                (y * vx) false vx (VxObj.mk vx ystr []) ltac:(lia) eq_refl) as Hg.
  assert (Hrun : sieve_vx test (VxObj.mk vx ystr []) (vx_assets_init vx) =
                 Some (snd (for_loop 1 (vx + 1)
                   (vx_emit_body test
                      (fst (vx_working_bitmaps vx y (p_array ro) (vx_assets_init vx)))
                      (snd (vx_working_bitmaps vx y (p_array ro) (vx_assets_init vx)))
                      (y * vx) false) (0, VxObj.mk vx ystr [])))).
  { unfold sieve_vx. rewrite Hroots. cbv zeta. cbn [VxObj.vx VxObj.y]. fold vx y limit.
    replace (vx <? limit) with false by (symmetry; apply Z.ltb_ge; exact Hsmall).
    destruct (vx_working_bitmaps vx y (p_array ro) (vx_assets_init vx)). reflexivity. }
  eexists. split; [exact Hrun|]. intros _.
  set (w5 := fst (vx_working_bitmaps vx y (p_array ro) (vx_assets_init vx))) in *.
  set (w7 := snd (vx_working_bitmaps vx y (p_array ro) (vx_assets_init vx))) in *.
  exists (slab_walk test w5 w7 (y * vx) false (vx + 1)).
  split; [exact Hg|]. split; [apply slab_walk_sorted; lia|].
  assert (Hmain : forall c, iZ_gmp (y * vx) 1 < c < iZ_gmp (y * vx + vx) (-1) ->
            (In c (slab_walk test w5 w7 (y * vx) false (vx + 1)) <->
             Z.prime c /\ limit < c /\ ~ (c | vx))).
  { intros c Hc. unfold iZ_gmp in Hc. cbn [Z.ltb Z.compare] in Hc.
    assert (Hyv : 0 <= y * vx) by nia.
    rewrite slab_walk_in by lia. split.
    - intros (x & i & Hx & Hi & Hcx & Hbit & _).
      assert (Hxv : 1 <= x < vx).
      { subst c. unfold iZ_gmp in Hc. destruct Hi as [-> | ->]; cbn [Z.ltb Z.compare] in Hc; lia. }
      subst c. apply (vx_working_bitmaps_small k y x i ro Hk Hy Hsmall Hro Hi Hxv).
      destruct Hi as [-> | ->]; exact Hbit.
    - intros (Hp & Hl & Hnd).
      assert (Hl4 : 4 <= limit).
      { unfold limit, iZ_gmp. cbn [Z.ltb Z.compare]. apply Z.sqrt_le_square; lia. }
      assert (Hc5 : 5 <= c) by lia.
      destruct (prime_mod_6 c Hp Hc5) as [Hm|Hm].
      + pose proof (Z.div_mod c 6 ltac:(lia)) as Hd. rewrite Hm in Hd.
        exists (c / 6 - y * vx), 1.
        assert (Hxv : 1 <= c / 6 - y * vx < vx) by lia.
        assert (Hcx : c = iZ_gmp (y * vx + (c / 6 - y * vx)) 1).
        { unfold iZ_gmp. cbn [Z.ltb Z.compare]. lia. }
        split; [lia|]. split; [left; reflexivity|]. split; [exact Hcx|].
        split; [|discriminate].
        apply (vx_working_bitmaps_small k y _ 1 ro Hk Hy Hsmall Hro (or_introl eq_refl) Hxv).
        fold vx. fold limit. rewrite <- Hcx. auto.
      + pose proof (Z.div_mod c 6 ltac:(lia)) as Hd. rewrite Hm in Hd.
        exists (c / 6 + 1 - y * vx), (-1).
        assert (Hxv : 1 <= c / 6 + 1 - y * vx < vx) by lia.
        assert (Hcx : c = iZ_gmp (y * vx + (c / 6 + 1 - y * vx)) (-1)).
        { unfold iZ_gmp. cbn [Z.ltb Z.compare]. lia. }
        split; [lia|]. split; [right; reflexivity|]. split; [exact Hcx|].
        split; [|discriminate].
        apply (vx_working_bitmaps_small k y _ (-1) ro Hk Hy Hsmall Hro (or_intror eq_refl) Hxv).
        fold vx. fold limit. rewrite <- Hcx. auto. }
  split; [exact Hmain|].
  intros Hy1 c Hc. rewrite (Hmain c Hc). split; [intros (Hp & _); exact Hp|].
  intros Hp. unfold iZ_gmp in Hc. cbn [Z.ltb Z.compare] in Hc.
  assert (Hcv : vx < c) by nia.
  split; [exact Hp|]. split; [lia|].
  intros Hd. apply Z.divide_pos_le in Hd; lia.
Qed.

Lemma sieve_vx_small_slab_exact_witness :
  exists o',
    sieve_vx exact_primality_test (VxObj.mk (vx_of 3) SlabNames.y_49 [])
      (vx_assets_init (vx_of 3)) = Some o' /\
    VxObj.p_count o' <= vx_of 3 / 2.
Proof.
  destruct (sieve_vx_small_slab_exact exact_primality_test 3 SlabNames.y_49)
    as (o' & Ho & _).
  - lia.
  - apply Z.leb_le. vm_compute. reflexivity.
  - exists o'. split; [exact Ho|].
    assert (Hcap : match sieve_vx exact_primality_test (VxObj.mk (vx_of 3) SlabNames.y_49 [])
                           (vx_assets_init (vx_of 3)) with
                   | Some o => VxObj.p_count o <=? vx_of 3 / 2
                   | None => true
                   end = true) by (vm_compute; reflexivity).
    rewrite Ho in Hcap. apply Z.leb_le. exact Hcap.
Defined.

(** ** search_iZprime *)

Section SearchResult.

Variable test : Z -> Z -> Z.

Lemma search_coprime_loop_first (vx : Z) (fuel : nat) :
  forall tmp k,
    1 <= k <= Z.of_nat fuel ->
    Z.gcd vx (tmp + 6 * k) = 1 ->
    (forall k', 1 <= k' < k -> Z.gcd vx (tmp + 6 * k') <> 1) ->
    search_coprime_loop fuel vx tmp = Ret (tmp + 6 * k).
Proof.
  induction fuel as [|fuel IH]; intros tmp k Hk Hg Hfirst; [lia|].
  cbn [search_coprime_loop].
  destruct (Z.eq_dec k 1) as [->|Hne].
  - replace (tmp + 6 * 1) with (tmp + 6) in Hg |- * by ring.
    rewrite Hg. reflexivity.
  - assert (H1 : Z.gcd vx (tmp + 6) <> 1).
    { replace (tmp + 6) with (tmp + 6 * 1) by ring. apply Hfirst. lia. }
    apply Z.eqb_neq in H1. rewrite H1.
    replace (tmp + 6 * k) with (tmp + 6 + 6 * (k - 1)) in Hg |- * by ring.
    apply IH; [lia|exact Hg|].
    intros k' Hk'. replace (tmp + 6 + 6 * k') with (tmp + 6 * (k' + 1)) by ring.
    apply Hfirst. lia.
Qed.

Lemma search_coprime_loop_result (vx : Z) (fuel : nat) :
  forall tmp r,
    search_coprime_loop fuel vx tmp = Ret r ->
    Z.gcd vx r = 1 /\ exists k, 1 <= k /\ r = tmp + 6 * k.
Proof.
  induction fuel as [|fuel IH]; intros tmp r H; [discriminate|].
  cbn [search_coprime_loop] in H.
  destruct (Z.gcd vx (tmp + 6) =? 1) eqn:E.
  - injection H as <-. apply Z.eqb_eq in E. split; [exact E|]. exists 1. split; [lia|ring].
  - destruct (IH _ _ H) as (Hg & k & Hk & ->). split; [exact Hg|].
    exists (k + 1). split; [lia|ring].
Qed.

Lemma search_loop_first (vx : Z) (fuel : nat) :
  forall tmp j p0,
    1 <= j <= Z.of_nat fuel ->
    test (tmp + j * vx) TEST_ROUNDS <> 0 ->
    (forall j', 1 <= j' < j -> test (tmp + j' * vx) TEST_ROUNDS = 0) ->
    search_loop test fuel vx (mk_search tmp 0 0 p0) =
    Ret (mk_search (tmp + j * vx) (test (tmp + j * vx) TEST_ROUNDS) 0 (Some (tmp + j * vx))).
Proof.
  induction fuel as [|fuel IH]; intros tmp j p0 Hj Hacc Hfirst; [lia|].
  cbn [search_loop]. unfold search_guard at 1. cbn [s_found s_attempts].
  change ((0 =? 0) && (0 <? attempts_limit)) with true. cbv iota.
  unfold search_step. cbn [s_tmp s_attempts s_p].
  destruct (Z.eq_dec j 1) as [->|Hne].
  - replace (tmp + 1 * vx) with (tmp + vx) in Hacc |- * by ring.
    apply Z.eqb_neq in Hacc. rewrite Hacc.
    destruct fuel; cbn [search_loop]; unfold search_guard; cbn [s_found s_attempts];
      rewrite Hacc; reflexivity.
  - assert (H1 : test (tmp + vx) TEST_ROUNDS = 0).
    { replace (tmp + vx) with (tmp + 1 * vx) by ring. apply Hfirst. lia. }
    rewrite H1. cbn [Z.eqb].
    replace (tmp + j * vx) with (tmp + vx + (j - 1) * vx) in Hacc |- * by ring.
    apply IH; [lia|exact Hacc|].
    intros j' Hj'. replace (tmp + vx + j' * vx) with (tmp + (j' + 1) * vx) by ring.
    apply Hfirst. lia.
Qed.

Lemma search_loop_result (vx : Z) (fuel : nat) :
  forall s r,
    s_attempts s = 0 ->
    (s_found s <> 0 -> s_p s = Some (s_tmp s) /\ test (s_tmp s) TEST_ROUNDS = s_found s) ->
    search_loop test fuel vx s = Ret r ->
    s_found r <> 0 /\
    exists j, 0 <= j /\ s_p r = Some (s_tmp s + j * vx) /\
              test (s_tmp s + j * vx) TEST_ROUNDS = s_found r /\
              (s_found s = 0 -> 1 <= j).
Proof.
  assert (Hstop : forall s r, s_found s <> 0 ->
            (s_found s <> 0 -> s_p s = Some (s_tmp s) /\ test (s_tmp s) TEST_ROUNDS = s_found s) ->
            Ret s = Ret r ->
            s_found r <> 0 /\
            exists j, 0 <= j /\ s_p r = Some (s_tmp s + j * vx) /\
                      test (s_tmp s + j * vx) TEST_ROUNDS = s_found r /\
                      (s_found s = 0 -> 1 <= j)).
  { intros s r E Hs H. injection H as <-. split; [exact E|].
    destruct (Hs E) as [Hq Ht]. exists 0. rewrite Z.mul_0_l, Z.add_0_r.
    split; [lia|]. split; [exact Hq|]. split; [exact Ht|]. intros; contradiction. }
  induction fuel as [|fuel IH]; intros s r Hatt Hs H.
  - cbn [search_loop] in H. unfold search_guard in H. rewrite Hatt in H.
    change (0 <? attempts_limit) with true in H. rewrite andb_true_r in H.
    destruct (Z.eqb_spec (s_found s) 0) as [E|E]; [discriminate|].
    apply Hstop; assumption.
  - cbn [search_loop] in H. unfold search_guard in H. rewrite Hatt in H.
    change (0 <? attempts_limit) with true in H. rewrite andb_true_r in H.
    destruct (Z.eqb_spec (s_found s) 0) as [E|E]; [|apply Hstop; assumption].
    destruct (IH (search_step test vx s) r) as (Hf & j & Hj & Hq & Ht & _).
    + cbn. exact Hatt.
    + unfold search_step. cbn [s_found s_p s_tmp]. intros Hne.
      apply Z.eqb_neq in Hne. rewrite Hne. split; reflexivity.
    + exact H.
    + split; [exact Hf|]. exists (j + 1). cbn [search_step s_tmp] in Hq, Ht.
      replace (s_tmp s + (j + 1) * vx) with (s_tmp s + vx + j * vx) by ring.
      split; [lia|]. split; [exact Hq|]. split; [exact Ht|]. intros; lia.
Qed.

(** search_iZprime on a draw x0 >= 1 (on the draw 0 the assert of iZ_gmp
    aborts) returns the first candidate the test accepts: with
    z = iZ(x0, p_id) the drawn start, k the first step with
    gcd(vx, z + 6 k) = 1 and j the first turn with z + 6 k + j vx accepted,
    it returns the answer of the test and sets p to that candidate, which is
    coprime to vx. *)
Theorem search_iZprime_first_accepted (fuel : nat) (x0 p_id vx k j : Z) :
  p_id = 1 \/ p_id = -1 -> 1 <= x0 ->
  1 <= k <= Z.of_nat fuel -> 1 <= j <= Z.of_nat fuel ->
  Z.gcd vx (iZ_gmp x0 p_id + 6 * k) = 1 ->
  (forall k', 1 <= k' < k -> Z.gcd vx (iZ_gmp x0 p_id + 6 * k') <> 1) ->
  test (iZ_gmp x0 p_id + 6 * k + j * vx) TEST_ROUNDS <> 0 ->
  (forall j', 1 <= j' < j -> test (iZ_gmp x0 p_id + 6 * k + j' * vx) TEST_ROUNDS = 0) ->
  search_iZprime test fuel x0 p_id vx =
    Ret (test (iZ_gmp x0 p_id + 6 * k + j * vx) TEST_ROUNDS,
         Some (iZ_gmp x0 p_id + 6 * k + j * vx)) /\
  Z.gcd vx (iZ_gmp x0 p_id + 6 * k + j * vx) = 1.
Proof.
  intros Hid Hx0 Hk Hj Hg Hkfirst Hacc Hjfirst. unfold search_iZprime.
  replace (iZ_gmp_asserts x0 p_id) with true
    by (unfold iZ_gmp_asserts; symmetry; apply andb_true_intro; split;
        [destruct Hid as [-> | ->]; reflexivity | apply Z.ltb_lt; lia]).
  rewrite (search_coprime_loop_first vx fuel _ k Hk Hg Hkfirst).
  rewrite (search_loop_first vx fuel _ j None Hj Hacc Hjfirst). cbn [s_found s_p].
  split; [reflexivity|].
  rewrite Z.gcd_add_mult_diag_r. exact Hg.
Qed.

(** Whenever search_iZprime returns, it returns a non-zero answer of the test
    on the value it left in p, a candidate z + 6 k + j vx coprime to vx: the
    result 0 ("no prime found") is never returned. *)
Theorem search_iZprime_returns_accepted (fuel : nat) (x0 p_id vx found : Z) (r : option Z) :
  search_iZprime test fuel x0 p_id vx = Ret (found, r) ->
  found <> 0 /\
  exists p k j, r = Some p /\ test p TEST_ROUNDS = found /\
                1 <= k /\ 1 <= j /\ p = iZ_gmp x0 p_id + 6 * k + j * vx /\
                Z.gcd vx p = 1.
Proof.
  unfold search_iZprime. intros H.
  destruct (iZ_gmp_asserts x0 p_id); [|discriminate].
  destruct (search_coprime_loop fuel vx (iZ_gmp x0 p_id)) as [tmp| |] eqn:E1;
    try discriminate.
  destruct (search_coprime_loop_result vx fuel _ _ E1) as (Hg & k & Hk & Htmp).
  destruct (search_loop test fuel vx (mk_search tmp 0 0 None)) as [s| |] eqn:E2;
    try discriminate.
  injection H as <- <-.
  destruct (search_loop_result vx fuel (mk_search tmp 0 0 None) s eq_refl) as (Hf & j & Hj & Hq & Ht & Hj1).
  { cbn [s_found]. intros Hc. contradiction. }
  { exact E2. }
  cbn [s_tmp s_found] in Hq, Ht, Hj1. specialize (Hj1 eq_refl).
  split; [exact Hf|]. exists (tmp + j * vx), k, j.
  split; [exact Hq|]. split; [exact Ht|]. split; [exact Hk|]. split; [exact Hj1|].
  split; [lia|]. rewrite Z.gcd_add_mult_diag_r. exact Hg.
Qed.

End SearchResult.

Lemma search_iZprime_first_accepted_witness :
  search_iZprime exact_primality_test 5 1 1 35 = Ret (2, Some 83) /\ Z.gcd 35 83 = 1.
Proof.
  apply (search_iZprime_first_accepted exact_primality_test 5 1 1 35 1 2).
  - left. reflexivity.
  - lia.
  - cbn. lia.
  - cbn. lia.
  - reflexivity.
  - intros k' Hk'. lia.
  - vm_compute. discriminate.
  - intros j' Hj'. assert (j' = 1) by lia. subst j'. reflexivity.
Defined.

Lemma search_iZprime_returns_accepted_witness :
  2 <> 0 /\
  exists p k j, Some 83 = Some p /\ exact_primality_test p TEST_ROUNDS = 2 /\
                1 <= k /\ 1 <= j /\ p = iZ_gmp 1 1 + 6 * k + j * 35 /\ Z.gcd 35 p = 1.
Proof.
  apply (search_iZprime_returns_accepted exact_primality_test 5 1 1 35 2 (Some 83)).
  vm_compute. reflexivity.
Defined.

(** ** iZ_next_prime, forward *)

Section NextPrime.

Variable test : Z -> Z -> Z.
Variable lo : Z.

Lemma scan_one_good (bits : BITMAP) (yvx i x : Z) (s : scan_state) :
  scan_good test lo s -> lo <= iZ_gmp (yvx + x) i ->
  scan_good test lo (scan_one test bits yvx i x s).
Proof.
  intros Hs Hlo. unfold scan_one. destruct (bitmap_get_bit bits x); [|exact Hs].
  unfold scan_good. cbn [fst snd].
  destruct (Z.eq_dec (test (iZ_gmp (yvx + x) i) TEST_ROUNDS) 0) as [E|E]; [left; exact E|].
  right. split; [reflexivity|exact Hlo].
Qed.

Lemma scan_forward_good (x5 x7 : BITMAP) (yvx : Z) (k : nat) :
  forall x s,
    scan_good test lo s -> lo <= iZ_gmp (yvx + x) (-1) ->
    scan_good test lo (scan_forward test k x5 x7 yvx x s).
Proof.
  induction k as [|k IH]; intros x s Hs Hlo; [exact Hs|].
  cbn [scan_forward].
  pose proof (scan_one_good x5 yvx (-1) x s Hs Hlo) as H1.
  destruct (negb (fst (scan_one test x5 yvx (-1) x s) =? 0)); [exact H1|].
  assert (Hlo7 : lo <= iZ_gmp (yvx + x) 1).
  { unfold iZ_gmp in *. cbn [Z.ltb Z.compare] in *. lia. }
  pose proof (scan_one_good x7 yvx 1 x _ H1 Hlo7) as H2.
  destruct (negb (fst (scan_one test x7 yvx 1 x (scan_one test x5 yvx (-1) x s)) =? 0));
    [exact H2|].
  apply IH; [exact H2|]. unfold iZ_gmp in *. cbn [Z.ltb Z.compare] in *. lia.
Qed.

Lemma segments_forward_good (x5 x7 : BITMAP) (vx : Z) (k : nat) :
  forall i start_x yvx s,
    0 < vx -> 0 <= i ->
    scan_good test lo s ->
    lo <= iZ_gmp (yvx + (if 0 <? i then 1 else start_x)) (-1) ->
    lo <= iZ_gmp (yvx + vx + 1) (-1) ->
    scan_good test lo (segments_loop test k true x5 x7 vx i start_x yvx s).
Proof.
  induction k as [|k IH]; intros i start_x yvx s Hvx Hi Hs Hlo Hnext.
  - cbn [segments_loop]. destruct (fst s =? 0); exact Hs.
  - cbn [segments_loop]. destruct (fst s =? 0); [|exact Hs].
    apply IH; [exact Hvx|lia| | |].
    + apply scan_forward_good; assumption.
    + replace (0 <? i + 1) with true by (symmetry; apply Z.ltb_lt; lia). exact Hnext.
    + unfold iZ_gmp in *. cbn [Z.ltb Z.compare] in *. lia.
Qed.

End NextPrime.

(** iZ_next_prime, forward: a value it returns is one the 25-round test
    accepted, and it is above base unless base = 6 m + 5 with m + 1 a multiple
    of vx = 5005 (then the scan restarts at the foot of the segment of
    base). *)
Theorem iZ_next_prime_forward_sound (test : Z -> Z -> Z) (base q : Z) :
  0 <= base ->
  base mod 6 <> 5 \/ (base / 6 + 1) mod 5005 <> 0 ->
  iZ_next_prime test base true = Some q ->
  test q TEST_ROUNDS <> 0 /\ base < q.
Proof.
  intros Hb Hseg. unfold iZ_next_prime. cbv zeta.
  rewrite andb_true_r. cbn [negb]. rewrite andb_false_r.
  change (5 * 7 * 11 * 13) with 5005.
  destruct (construct_iZm_segment 5005 (bitmap_create (5005 + 10)) (bitmap_create (5005 + 10)))
    as [x5 x7].
  assert (Hyy : base / (6 * 5005) = base / 6 / 5005).
  { rewrite Z.div_div by lia. reflexivity. }
  rewrite Hyy.
  pose proof (Z.div_mod base 6 ltac:(lia)) as Hd6.
  pose proof (Z.mod_pos_bound base 6 ltac:(lia)) as Hm6.
  pose proof (Z.div_mod (base / 6) 5005 ltac:(lia)) as Hd.
  pose proof (Z.mod_pos_bound (base / 6) 5005 ltac:(lia)) as Hm.
  assert (Hfinish : forall start_x tmp,
            start_x <= 5005 ->
            base + 1 <= 6 * (base / 6 / 5005 * 5005 + start_x) - 1 ->
            (if fst (segments_loop test 1000 true x5 x7 5005 0 start_x
                       (base / 6 / 5005 * 5005) (0, tmp)) =? 0
             then None
             else Some (snd (segments_loop test 1000 true x5 x7 5005 0 start_x
                               (base / 6 / 5005 * 5005) (0, tmp)))) = Some q ->
            test q TEST_ROUNDS <> 0 /\ base < q).
  { intros start_x tmp Hsx Hlo.
    pose proof (segments_forward_good test (base + 1) x5 x7 5005 1000 0
                  start_x (base / 6 / 5005 * 5005) (0, tmp)
                  ltac:(lia) ltac:(lia) (or_introl eq_refl)) as Hgood.
    change (0 <? 0) with false in Hgood. cbv iota in Hgood.
    unfold iZ_gmp in Hgood. change (0 <? -1) with false in Hgood. cbv iota in Hgood.
    generalize dependent (base / 6 / 5005 * 5005). intros yvx Hlo Hgood.
    specialize (Hgood Hlo ltac:(lia)).
    generalize dependent (segments_loop test 1000 true x5 x7 5005 0 start_x yvx (0, tmp)).
    intros r Hgood.
    destruct (fst r =? 0) eqn:Ef; [discriminate|].
    intros H. injection H as <-. apply Z.eqb_neq in Ef.
    destruct Hgood as [H0|[Ht Hlo']]; [contradiction|]. split; [|lia].
    rewrite Ht. exact Ef. }
  destruct (Z.eqb_spec (base mod 6) 5) as [E5|E5].
  - (* base = 6 m + 5: the candidate base + 2 is tried first *)
    destruct (negb (test (base + 2) TEST_ROUNDS =? 0)) eqn:Eedge.
    + intros H. injection H as <-. split; [|lia].
      apply negb_true_iff, Z.eqb_neq in Eedge. exact Eedge.
    + destruct Hseg as [Hseg|Hseg]; [contradiction|].
      assert (Hxp : (base + 2) / 6 = base / 6 + 1).
      { symmetry. apply (Z.div_unique _ 6 _ 1); lia. }
      rewrite Hxp.
      assert (Hne : (base / 6) mod 5005 + 1 <> 5005).
      { intros Hc. apply Hseg. rewrite Hd at 1.
        replace (5005 * (base / 6 / 5005) + (base / 6) mod 5005 + 1)
          with (0 + (base / 6 / 5005 + 1) * 5005) by lia.
        rewrite Z.mod_add by lia. reflexivity. }
      assert (Hr : (base / 6 + 1) mod 5005 = (base / 6) mod 5005 + 1).
      { symmetry. apply (Z.mod_unique _ 5005 (base / 6 / 5005)); lia. }
      rewrite Hr. apply Hfinish; lia.
  - apply Hfinish; lia.
Qed.

Lemma iZ_next_prime_forward_sound_witness :
  exact_primality_test 101 TEST_ROUNDS <> 0 /\ 100 < 101.
Proof.
  apply (iZ_next_prime_forward_sound exact_primality_test 100 101).
  - lia.
  - left. discriminate.
  - vm_compute. reflexivity.
Defined.

(** ** The prime list: hash and file of an empty list *)

(** A hash computed by primes_obj_compute_hash verifies; on an empty list
    primes_obj_compute_hash leaves the object as it is, primes_obj_verify_hash
    reports an invalid hash whatever the stored one, and the file written by
    primes_obj_write_file is read back as NULL. *)
Theorem primes_obj_hash_and_empty_list (o : PRIMES_OBJ) :
  (p_array o <> [] ->
   primes_obj_verify_hash (primes_obj_compute_hash o) = true /\
   p_array (primes_obj_compute_hash o) = p_array o) /\
  (p_array o = [] ->
   primes_obj_compute_hash o = o /\
   primes_obj_verify_hash o = false /\
   primes_obj_read_file (snd (primes_obj_write_file o)) = ReadNull).
Proof.
  split.
  - intros Hne.
    assert (Hc : (PrimesObj.p_count o =? 0) = false).
    { apply Z.eqb_neq. unfold PrimesObj.p_count. destruct (p_array o); [congruence|].
      cbn [length]. lia. }
    unfold primes_obj_compute_hash. rewrite Hc.
    unfold primes_obj_verify_hash, PrimesObj.p_count in *. cbn [p_array sha256].
    rewrite Hc. unfold hash_int_array.
    destruct (list_eq_dec byte_eq_dec (SHA256.SHA256 (body_bytes (p_array o)))
                (SHA256.SHA256 (body_bytes (p_array o)))); [auto|congruence].
  - intros Hnil.
    assert (Hc : (PrimesObj.p_count o =? 0) = true).
    { unfold PrimesObj.p_count. rewrite Hnil. reflexivity. }
    unfold primes_obj_write_file, primes_obj_compute_hash, primes_obj_verify_hash.
    rewrite Hc. split; [reflexivity|]. split; [reflexivity|].
    cbn [snd]. unfold PrimesObj.p_count. rewrite Hnil.
    cbn [length Z.of_nat body_bytes flat_map app].
    unfold primes_obj_read_file.
    change (le_bytes 4 0) with [x00; x00; x00; x00]. cbn [app length firstn skipn].
    change (int_of_bytes [x00; x00; x00; x00]) with 0. reflexivity.
Qed.

(** ** solve_for_y *)

Lemma to_int_small (z : Z) : - 2147483648 <= z < 2147483648 -> to_int z = z.
Proof.
  intros H. unfold to_int. change (2 ^ 31) with 2147483648.
  change (2 ^ 32) with 4294967296. rewrite Z.mod_small; lia.
Qed.

(** solve_for_y: when p divides vx it returns the no-solution value 2^64 - 1;
    for a prime p >= 5 with p * p < 2^31 that does not divide vx < 2^31 and
    an index x that does not exceed the normalized index x_p of p (so that
    x_p - x does not wrap), it returns the only y in [0, p) such that p
    divides iZ(x + vx * y, matrix_id). *)
Theorem solve_for_y_correct (i p vx x : Z) :
  i = 1 \/ i = -1 ->
  Z.prime p -> 5 <= p -> p * p < 2 ^ 31 ->
  1 <= vx < 2 ^ 31 ->
  0 <= x <= normalized_x_p i p ->
  ((p | vx) -> solve_for_y i p vx x = Ret (U64 - 1)) /\
  (~ (p | vx) ->
   exists y, solve_for_y i p vx x = Ret y /\ 0 <= y < p /\
             (p | iZ_gmp (x + vx * y) i) /\
             (forall y', 0 <= y' < p -> (p | iZ_gmp (x + vx * y') i) -> y' = y)).
Proof.
  intros Hi Hp Hp5 Hpp Hvx Hx.
  change (2 ^ 31) with 2147483648 in Hpp, Hvx.
  assert (HpU : 5 <= p < U64) by (rewrite U64_value; nia).
  pose proof (normalized_x_p_range i p HpU) as Hxp.
  pose proof (prime_mod_6 p Hp Hp5) as Hm6.
  destruct (normalized_x_p_divides i p Hi HpU Hm6) as [c Hc].
  assert (Hiz : forall z, iZ_gmp z i = 6 * z + i).
  { intros z. unfold iZ_gmp. destruct Hi as [-> | ->]; cbn [Z.ltb Z.compare]; lia. }
  unfold solve_for_y.
  replace (p =? 0) with false by (symmetry; apply Z.eqb_neq; lia).
  split.
  - intros Hd. apply Z.mod_divide in Hd; [|lia]. rewrite Hd. reflexivity.
  - intros Hnd.
    assert (Hnz : vx mod p <> 0).
    { intros E. apply Hnd. apply Z.mod_divide; [lia|exact E]. }
    apply Z.eqb_neq in Hnz. rewrite Hnz.
    assert (Hg : Z.gcd vx p = 1).
    { rewrite Z.gcd_comm. apply Z.coprime_prime_l; assumption. }
    assert (Huniq : forall y1 y2, 0 <= y1 < p -> 0 <= y2 < p ->
                      (p | 6 * (x + vx * y1) + i) -> (p | 6 * (x + vx * y2) + i) -> y1 = y2).
    { intros y1 y2 H1 H2 [c1 E1] [c2 E2].
      assert (Hd : (p | 6 * vx * (y1 - y2))).
      { exists (c1 - c2). replace (6 * vx * (y1 - y2)) with ((6 * (x + vx * y1) + i) - (6 * (x + vx * y2) + i)) by ring.
        rewrite E1, E2. ring. }
      assert (Hg6 : Z.gcd p (6 * vx) = 1).
      { apply Z.coprime_prime_l; [exact Hp|]. intros Hd6.
        apply (Z.divide_prime_mul 6 vx p Hp) in Hd6. destruct Hd6 as [H6|Hv]; [|contradiction].
        destruct H6 as [c6 E6]. assert (c6 = 1) by nia.
        assert (E : p = 6) by lia. rewrite E in Hm6. destruct Hm6; discriminate. }
      apply Z.gauss in Hd; [|exact Hg6].
      destruct Hd as [e He].
      assert (e = 0) by nia. lia. }
    destruct (Z.eqb_spec (x mod p) (normalized_x_p i p)) as [E|E].
    + exists 0. rewrite Z.mod_small in E by lia.
      assert (H0 : (p | 6 * (x + vx * 0) + i)) by (exists c; rewrite E; lia).
      split; [reflexivity|]. split; [lia|]. rewrite Hiz. split; [exact H0|].
      intros y' Hy' Hd'. rewrite Hiz in Hd'. apply (Huniq y' 0); auto; lia.
    + assert (Hdelta : 0 < normalized_x_p i p - x < p).
      { assert (x <> normalized_x_p i p); [|lia].
        intros ->. apply E. apply Z.mod_small. lia. }
      set (d := normalized_x_p i p - x) in *.
      rewrite (wrap64_small d) by lia.
      rewrite (Z.mod_small d p) by lia.
      rewrite (to_int_small d) by nia.
      replace (d <? 0) with false by (symmetry; apply Z.ltb_ge; lia).
      rewrite (to_int_small vx) by lia. rewrite (to_int_small p) by nia.
      destruct (modular_inverse_correct vx p ltac:(lia) ltac:(lia) Hg) as (r & Hr & Hrb & Hrm).
      rewrite Hr.
      assert (Hprod : 0 <= d * r < p * p) by nia.
      rewrite (wrap64_small (d * r)) by (rewrite U64_value; nia).
      pose proof (Z.mod_pos_bound (d * r) p ltac:(lia)) as Hyb.
      exists ((d * r) mod p). split; [reflexivity|]. split; [exact Hyb|].
      assert (Hsol : (p | 6 * (x + vx * ((d * r) mod p)) + i)).
      { pose proof (Z.div_mod (d * r) p ltac:(lia)) as D1.
        pose proof (Z.div_mod (r * vx) p ltac:(lia)) as D2. rewrite Hrm in D2.
        exists (c + 6 * (d * ((r * vx) / p) - vx * ((d * r) / p))).
        unfold d in *. nia. }
      rewrite Hiz. split; [exact Hsol|].
      intros y' Hy' Hd'. rewrite Hiz in Hd'. apply (Huniq y' ((d * r) mod p)); auto.
Qed.

Lemma solve_for_y_correct_witness :
  exists y, solve_for_y (-1) 11 35 1 = Ret y /\ 0 <= y < 11 /\
            (11 | iZ_gmp (1 + 35 * y) (-1)).
Proof.
  assert (Hi : (-1) = 1 \/ (-1) = -1) by (right; reflexivity).
  assert (Hp : Z.prime 11) by (apply is_prime_b_sound; reflexivity).
  assert (Hpp : 11 * 11 < 2 ^ 31) by reflexivity.
  assert (Hvx : 1 <= 35 < 2 ^ 31) by (split; [lia|reflexivity]).
  assert (Hx : 0 <= 1 <= normalized_x_p (-1) 11) by (split; [lia|discriminate]).
  destruct (proj2 (solve_for_y_correct (-1) 11 35 1 Hi Hp ltac:(lia) Hpp Hvx Hx))
    as (y & Hy & Hb & Hd & _).
  - intros [c Hc]. lia.
  - exists y. split; [exact Hy|]. split; [exact Hb|exact Hd].
Defined.

(** ** sieve_euler *)

Lemma least_prime_factor (c : Z) :
  2 <= c ->
  exists q, Z.prime q /\ (q | c) /\ forall r, Z.prime r -> (r | c) -> q <= r.
Proof.
  intros Hc.
  assert (H : forall k : nat,
             (exists r, Z.prime r /\ (r | c) /\ r <= Z.of_nat k) ->
             exists q, Z.prime q /\ (q | c) /\ forall r, Z.prime r -> (r | c) -> q <= r).
  { induction k as [|k IH].
    - intros (r & Hr & _ & Hle). pose proof (Z.prime_ge_2 r Hr). lia.
    - intros (r & Hr & Hd & Hle).
      destruct (Z.eq_dec r (Z.of_nat (S k))) as [E|E].
      + destruct (prime_or_not r) as [_|F]; [|contradiction].
        assert (Hdec : (exists r', Z.prime r' /\ (r' | c) /\ r' <= Z.of_nat k) \/
                       ~ (exists r', Z.prime r' /\ (r' | c) /\ r' <= Z.of_nat k)).
        { clear IH Hle E Hr Hd r. induction k as [|k IHk].
          - right. intros (r' & Hr' & _ & Hle'). pose proof (Z.prime_ge_2 r' Hr'). lia.
          - destruct IHk as [(r' & Hr' & Hd' & Hle')|Hno].
            + left. exists r'. split; [exact Hr'|]. split; [exact Hd'|lia].
            + destruct (prime_or_not (Z.of_nat (S k))) as [Hp|Hp].
              * destruct (Z.eq_dec (c mod Z.of_nat (S k)) 0) as [Hm|Hm].
                -- left. exists (Z.of_nat (S k)). split; [exact Hp|].
                   split; [apply Z.mod_divide; [lia|exact Hm]|lia].
                -- right. intros (r' & Hr' & Hd' & Hle').
                   destruct (Z.eq_dec r' (Z.of_nat (S k))) as [E'|E'].
                   ++ subst r'. apply Hm. apply Z.mod_divide; [lia|exact Hd'].
                   ++ apply Hno. exists r'. split; [exact Hr'|]. split; [exact Hd'|lia].
              * right. intros (r' & Hr' & Hd' & Hle').
                destruct (Z.eq_dec r' (Z.of_nat (S k))) as [E'|E'].
                -- subst r'. contradiction.
                -- apply Hno. exists r'. split; [exact Hr'|]. split; [exact Hd'|lia]. }
        destruct Hdec as [Hex|Hno]; [apply IH, Hex|].
        exists r. split; [exact Hr|]. split; [exact Hd|].
        intros r' Hr' Hd'. destruct (Z.le_gt_cases r r') as [L|G]; [exact L|exfalso].
        apply Hno. exists r'. split; [exact Hr'|]. split; [exact Hd'|lia].
      + apply IH. exists r. split; [exact Hr|]. split; [exact Hd|lia]. }
  destruct (prime_divisor_exists c Hc) as (r & Hr & Hd).
  apply (H (Z.to_nat r)). exists r. split; [exact Hr|]. split; [exact Hd|].
  pose proof (Z.prime_ge_2 r Hr). lia.
Qed.

Lemma clear_bit_get (b : BITMAP) (idx j : Z) :
  bitmap_get_bit (bitmap_clear_bit b idx) j = if j =? idx then false else bitmap_get_bit b j.
Proof. reflexivity. Qed.

(** The inner loop at [i], run over the primes from [b] up to [i], when no
    odd prime below [b] divides [i]. *)
Lemma euler_mark_spec (n i : Z) (ps : list Z) :
  3 <= i <= n -> n < 2 ^ 32 ->
  forall (b : Z) (bits : BITMAP),
    3 <= b ->
    StronglySorted Z.lt ps ->
    (forall q, In q ps <-> Z.prime q /\ b <= q <= i) ->
    (forall r, Z.prime r -> 3 <= r < b -> ~ (r | i)) ->
    (forall j, bitmap_get_bit (euler_mark ps n i bits) j = false ->
               bitmap_get_bit bits j = false \/ exists p, 3 <= p /\ j = p * i) /\
    (forall j, bitmap_get_bit bits j = false ->
               bitmap_get_bit (euler_mark ps n i bits) j = false) /\
    (forall q, Z.prime q -> b <= q <= i -> q * i <= n ->
               (forall r, Z.prime r -> 3 <= r < q -> ~ (r | i)) ->
               bitmap_get_bit (euler_mark ps n i bits) (q * i) = false).
Proof.
  intros Hi Hn. change (2 ^ 32) with 4294967296 in Hn.
  induction ps as [|p ps IH]; intros b bits Hb Hs Hm Hpre.
  - cbn [euler_mark]. split; [auto|]. split; [auto|].
    intros q Hq Hbq _ _. exfalso. apply (proj2 (Hm q)). auto.
  - apply StronglySorted_inv in Hs. destruct Hs as [Hs Hall].
    rewrite Forall_forall in Hall.
    assert (Hp : Z.prime p /\ b <= p <= i) by (apply Hm; left; reflexivity).
    destruct Hp as [Hp Hpb].
    assert (Hmin : forall q, Z.prime q -> b <= q <= i -> p <= q).
    { intros q Hq Hbq. assert (Hin : In q (p :: ps)) by (apply Hm; auto).
      destruct Hin as [<- | Hin]; [lia|]. apply Hall in Hin. lia. }
    cbn [euler_mark].
    rewrite (wrap64_small (p * i)) by (rewrite U64_value; nia).
    destruct (n <? p * i) eqn:Ebrk.
    + apply Z.ltb_lt in Ebrk. split; [auto|]. split; [auto|].
      intros q Hq Hbq Hqn _. exfalso. pose proof (Hmin q Hq Hbq). nia.
    + apply Z.ltb_ge in Ebrk.
      destruct (i mod p =? 0) eqn:Ediv.
      * apply Z.eqb_eq in Ediv. apply Z.mod_divide in Ediv; [|lia].
        split; [|split].
        -- intros j. rewrite clear_bit_get. destruct (j =? p * i) eqn:E.
           ++ intros _. right. exists p. apply Z.eqb_eq in E. split; [lia|exact E].
           ++ auto.
        -- intros j Hj. rewrite clear_bit_get. destruct (j =? p * i); auto.
        -- intros q Hq Hbq Hqn Hno. rewrite clear_bit_get.
           assert (q = p).
           { pose proof (Hmin q Hq Hbq). destruct (Z.eq_dec q p) as [E|E]; [exact E|].
             exfalso. apply (Hno p Hp); [lia|exact Ediv]. }
           subst q. rewrite Z.eqb_refl. reflexivity.
      * apply Z.eqb_neq in Ediv.
        assert (Hnd : ~ (p | i)).
        { intros Hd. apply Ediv. apply Z.mod_divide; [lia|exact Hd]. }
        destruct (IH (p + 1) (bitmap_clear_bit bits (p * i)) ltac:(lia) Hs) as (Ha & Hc & Hb').
        { intros q. split.
          - intros Hin. pose proof (Hall q Hin) as Hgt.
            assert (Hqi : Z.prime q /\ b <= q <= i) by (apply Hm; right; exact Hin).
            destruct Hqi as [Hq Hbq]. split; [exact Hq|lia].
          - intros [Hq Hbq].
            assert (Hin : In q (p :: ps)) by (apply Hm; split; [exact Hq|lia]).
            destruct Hin as [E | Hin]; [lia|exact Hin]. }
        { intros r Hr Hrb. destruct (Z.lt_ge_cases r b) as [L|G].
          - apply Hpre; [exact Hr|lia].
          - pose proof (Hmin r Hr ltac:(lia)). assert (r = p) by lia. subst r. exact Hnd. }
        split; [|split].
        -- intros j Hj. apply Ha in Hj. destruct Hj as [Hj|Hj]; [|right; exact Hj].
           rewrite clear_bit_get in Hj. destruct (j =? p * i) eqn:E.
           ++ right. exists p. apply Z.eqb_eq in E. split; [lia|exact E].
           ++ left. exact Hj.
        -- intros j Hj. apply Hc. rewrite clear_bit_get. destruct (j =? p * i); auto.
        -- intros q Hq Hbq Hqn Hno.
           destruct (Z.eq_dec q p) as [->|Hne].
           ++ apply Hc. rewrite clear_bit_get, Z.eqb_refl. reflexivity.
           ++ pose proof (Hmin q Hq Hbq). apply Hb'; auto. lia.
Qed.

Section EulerLoop.

Variable n : Z.
Hypothesis Hn : 10 <= n.
Hypothesis Hfit : n < 2 ^ 32.

Lemma euler_inv_init :
  euler_inv n 3
    (bitmap_set_all (bitmap_create (n + 1)), primes_obj_append primes_obj_init 2).
Proof.
  constructor; cbn [fst snd primes_obj_init primes_obj_append p_array app].
  - repeat constructor.
  - exists []. reflexivity.
  - intros q. cbn [In]. split.
    + intros [<- | []]. split; [|lia]. apply is_prime_b_sound. reflexivity.
    + intros [Hq Hlt]. pose proof (Z.prime_ge_2 q Hq). left. lia.
  - intros j Hj _. unfold bitmap_get_bit, bitmap_set_all, bitmap_create. cbn [data size].
    apply andb_true_intro. split; [apply Z.leb_le|apply Z.ltb_lt]; lia.
  - intros q m _ _ Hm. lia.
Qed.

Lemma euler_body_inv (i : Z) (s : BITMAP * PRIMES_OBJ) :
  3 <= i <= n -> Z.odd i = true ->
  euler_inv n i s ->
  euler_inv n (i + 2) (euler_body n i s).
Proof.
  intros Hi Hodd [Hs Hh Hm Hpr Hmk]. destruct s as [bits primes]. cbn [fst snd] in *.
  assert (Hnext : ~ Z.prime (i + 1)).
  { apply even_not_prime; [lia|]. rewrite Z.even_add, <- Z.negb_odd, Hodd. reflexivity. }
  assert (Hq12 : forall q, Z.prime q -> q < i + 2 -> q < i \/ q = i).
  { intros q Hq Hlt. destruct (Z.eq_dec q (i + 1)) as [->|]; [contradiction|lia]. }
  assert (Hbit : bitmap_get_bit bits i = true <-> Z.prime i).
  { split.
    - intros Ebit. destruct (prime_or_not i) as [H|H]; [exact H|exfalso].
      destruct (least_prime_factor i ltac:(lia)) as (q & Hq & [m Hqm] & Hleast).
      pose proof (Z.prime_ge_2 q Hq) as Hq2.
      assert (Hoq : Z.odd q = true) by (apply (odd_divisor q i Hodd); exists m; exact Hqm).
      assert (Hom : Z.odd m = true) by (apply (odd_divisor m i Hodd); exists q; lia).
      pose proof (odd_prime_ge_3 q Hq Hoq) as Hq3.
      assert (Hm1 : 1 <= m) by nia.
      assert (Hm3 : 3 <= m).
      { destruct (Z.eq_dec m 1) as [->|]; [exfalso; apply H; replace i with q by lia; exact Hq|].
        destruct (Z.eq_dec m 2) as [->|]; [discriminate Hom|lia]. }
      assert (Hclr : bitmap_get_bit bits (q * m) = false).
      { apply Hmk; auto; [nia|lia|].
        intros r Hr Hrq [c Hc]. assert (q <= r); [|lia].
        apply Hleast; [exact Hr|]. exists (c * q). rewrite Hqm, Hc. ring. }
      replace (q * m) with i in Hclr by lia. congruence.
    - intros Hp. apply Hpr; [lia|exact Hp]. }
  unfold euler_body.
  set (primes' := if bitmap_get_bit bits i then primes_obj_append primes i else primes).
  assert (Hs' : StronglySorted Z.lt (p_array primes')).
  { unfold primes'. destruct (bitmap_get_bit bits i); [|exact Hs].
    cbn [primes_obj_append p_array]. apply StronglySorted_app_one; [exact Hs|].
    apply Forall_forall. intros q Hq. apply Hm in Hq. lia. }
  assert (Hh' : exists rest, p_array primes' = 2 :: rest).
  { unfold primes'. destruct (bitmap_get_bit bits i); [|exact Hh].
    destruct Hh as [rest Hrest]. exists (rest ++ [i]).
    cbn [primes_obj_append p_array]. rewrite Hrest. reflexivity. }
  assert (Hm' : forall q, In q (p_array primes') <-> Z.prime q /\ q < i + 2).
  { intros q. unfold primes'. destruct (bitmap_get_bit bits i) eqn:Ebit.
    - assert (Hp : Z.prime i) by (apply Hbit; reflexivity).
      cbn [primes_obj_append p_array]. rewrite in_app_iff, Hm. cbn [In]. split.
      + intros [[Hq Hlt] | [<- | []]]; split; auto; lia.
      + intros [Hq Hlt]. destruct (Hq12 q Hq Hlt) as [L|E]; [left; auto|right; left; auto].
    - assert (Hnp : ~ Z.prime i) by (intros Hp; apply Hbit in Hp; congruence).
      rewrite Hm. split; intros [Hq Hlt]; (split; [exact Hq|]); [lia|].
      destruct (Hq12 q Hq Hlt) as [L| ->]; [exact L|contradiction]. }
  destruct Hh' as [rest Hrest].
  assert (Hsr : StronglySorted Z.lt rest /\ Forall (Z.lt 2) rest).
  { rewrite Hrest in Hs'. apply StronglySorted_inv in Hs'. exact Hs'. }
  destruct Hsr as [Hsr Hgt]. rewrite Forall_forall in Hgt.
  assert (Hmr : forall q, In q rest <-> Z.prime q /\ 3 <= q <= i).
  { intros q. split.
    - intros Hin. pose proof (Hgt q Hin) as Hq2.
      assert (Hq : Z.prime q /\ q < i + 2) by (apply Hm'; rewrite Hrest; right; exact Hin).
      destruct Hq as [Hq Hlt]. split; [exact Hq|].
      destruct (Hq12 q Hq Hlt); lia.
    - intros [Hq Hqi].
      assert (Hin : In q (p_array primes')) by (apply Hm'; split; [exact Hq|lia]).
      rewrite Hrest in Hin. destruct Hin as [E|Hin]; [lia|exact Hin]. }
  destruct (euler_mark_spec n i rest Hi Hfit 3 bits ltac:(lia) Hsr Hmr) as (Ha & Hc & Hb).
  { intros r _ Hr. lia. }
  rewrite Hrest. cbn [tl].
  constructor; cbn [fst snd].
  - exact Hs'.
  - exists rest. exact Hrest.
  - exact Hm'.
  - intros j Hj Hjp.
    destruct (bitmap_get_bit (euler_mark rest n i bits) j) eqn:E; [reflexivity|exfalso].
    apply Ha in E. destruct E as [E|(p & Hp3 & E)].
    + rewrite (Hpr j Hj Hjp) in E. discriminate.
    + subst j. revert Hjp. apply not_prime_multiple; lia.
  - intros q m Hq Hq3 Hmi Hom Hqm Hno.
    destruct (Z.lt_ge_cases m i) as [L|G].
    + apply Hc. apply Hmk; auto. lia.
    + assert (m = i).
      { destruct (Z.eq_dec m (i + 1)) as [E|E]; [|lia].
        subst m. rewrite Z.odd_add, Hodd in Hom. discriminate Hom. }
      subst m. apply Hb; auto.
      split; [exact Hq3|].
      destruct (prime_divisor_exists i ltac:(lia)) as (r & Hr & Hd).
      pose proof (odd_prime_ge_3 r Hr (odd_divisor r i Hodd Hd)) as Hr3.
      assert (Hri : r <= i) by (apply Z.divide_pos_le; [lia|exact Hd]).
      destruct (Z.le_gt_cases q i) as [L|G']; [exact L|exfalso].
      apply (Hno r Hr); [lia|exact Hd].
Qed.

Lemma euler_loop_inv :
  euler_inv n (2 * ((n - 1) / 2 + 1) + 1)
    (for_loop 1 ((n - 1) / 2 + 1) (fun k => euler_body n (2 * k + 1))
       (bitmap_set_all (bitmap_create (n + 1)), primes_obj_append primes_obj_init 2)).
Proof.
  pose proof (Z.div_mod (n - 1) 2 ltac:(lia)) as Hd.
  pose proof (Z.mod_pos_bound (n - 1) 2 ltac:(lia)) as Hb.
  apply (for_loop_ind (fun k s => euler_inv n (2 * k + 1) s)).
  - lia.
  - exact euler_inv_init.
  - intros k t Hk Hinv.
    replace (2 * (k + 1) + 1) with (2 * k + 1 + 2) by ring.
    apply euler_body_inv; [lia| |exact Hinv].
    rewrite Z.add_comm, Z.odd_add_mul_2. reflexivity.
Qed.

End EulerLoop.

(** sieve_euler returns NULL below 10 and, from 10 on and below 2^32 (where
    no product p * i wraps), the primes up to n, all of them, in strictly
    increasing order: the list classic_sieve_eratosthenes returns. *)
Theorem sieve_euler_exact (n : Z) :
  0 <= n -> n < 2 ^ 32 ->
  (n < 10 -> sieve_euler n = None) /\
  (10 <= n ->
   exists o, sieve_euler n = Some o /\
     StronglySorted Z.lt (p_array o) /\
     (forall q, In q (p_array o) <-> Z.prime q /\ q <= n) /\
     option_map p_array (classic_sieve_eratosthenes n) = Some (p_array o)).
Proof.
  intros H0 Hfit. unfold sieve_euler. split.
  - intros Hlt. destruct (n <? 10) eqn:E; [reflexivity|]. apply Z.ltb_ge in E. lia.
  - intros Hn. destruct (n <? 10) eqn:E; [apply Z.ltb_lt in E; lia|].
    eexists. split; [reflexivity|].
    destruct (euler_loop_inv n Hn Hfit) as [Hs _ Hm _ _].
    pose proof (Z.div_mod (n - 1) 2 ltac:(lia)) as Hd.
    pose proof (Z.mod_pos_bound (n - 1) 2 ltac:(lia)) as Hb.
    assert (Hmem : forall q,
               In q (p_array (snd (for_loop 1 ((n - 1) / 2 + 1)
                        (fun k => euler_body n (2 * k + 1))
                        (bitmap_set_all (bitmap_create (n + 1)),
                         primes_obj_append primes_obj_init 2)))) <->
               Z.prime q /\ q <= n).
    { intros q. rewrite Hm. split; intros [Hq Hle]; (split; [exact Hq|]); [|lia].
      destruct (Z.le_gt_cases q n) as [H|H]; [exact H|exfalso].
      assert (He : (n - 1) mod 2 = 0) by lia.
      assert (Hqn : q = n + 1) by lia. subst q.
      revert Hq. apply even_not_prime; [lia|].
      apply Z.even_spec. exists ((n - 1) / 2 + 1). lia. }
    split; [exact Hs|]. split; [exact Hmem|].
    assert (HfitU : n + 1 < U64).
    { rewrite U64_value. change (2 ^ 32) with 4294967296 in Hfit. lia. }
    destruct (classic_loop_inv n Hn HfitU) as [Hs' Hm' _ _].
    unfold classic_sieve_eratosthenes. rewrite E. cbn [option_map]. f_equal.
    apply sorted_same_members; [exact Hs'|exact Hs|].
    intros q. rewrite Hm', Hmem. split; intros [Hq Hle]; (split; [exact Hq|lia]).
Qed.

Lemma sieve_euler_exact_witness :
  exists o, sieve_euler 100 = Some o /\
    StronglySorted Z.lt (p_array o) /\
    (forall q, In q (p_array o) <-> Z.prime q /\ q <= 100).
Proof.
  assert (H0 : 0 <= 100) by lia.
  assert (Hfit : 100 < 2 ^ 32) by reflexivity.
  destruct (proj2 (sieve_euler_exact 100 H0 Hfit) ltac:(lia)) as (o & Ho & Hs & Hm & _).
  exists o. split; [exact Ho|]. split; [exact Hs|exact Hm].
Defined.

Lemma primes_obj_hash_and_empty_list_witness :
  primes_obj_verify_hash primes_obj_init = false /\
  primes_obj_read_file (snd (primes_obj_write_file primes_obj_init)) = ReadNull.
Proof.
  destruct (proj2 (primes_obj_hash_and_empty_list primes_obj_init) eq_refl) as (_ & Hv & Hr).
  split; [exact Hv|exact Hr].
Defined.

(** ** segmented_sieve *)

Lemma stride_loop_spec (start hi step : Z) (g : Z -> bool) (f : Z -> Z)
    (body : Z -> BITMAP -> BITMAP) (bits : BITMAP) :
  0 < step ->
  (forall j b idx, bitmap_get_bit (body j b) idx = false <->
                   bitmap_get_bit b idx = false \/ (g j = true /\ idx = f j)) ->
  forall idx,
    bitmap_get_bit (stride_loop start hi step body bits) idx = false <->
    bitmap_get_bit bits idx = false \/
    exists c, 0 <= c /\ start + c * step <= hi /\ g (start + c * step) = true /\
              idx = f (start + c * step).
Proof.
  intros Hstep Hbody idx. unfold stride_loop.
  destruct (start <=? hi) eqn:E.
  - apply Z.leb_le in E.
    assert (Hcnt : 0 <= (hi - start) / step) by (apply Z.div_pos; lia).
    assert (H : forall i,
               bitmap_get_bit (for_loop 0 ((hi - start) / step + 1)
                                 (fun t => body (start + t * step)) bits) i = false <->
               bitmap_get_bit bits i = false \/
               exists c, 0 <= c < (hi - start) / step + 1 /\
                         g (start + c * step) = true /\ i = f (start + c * step)).
    { apply (for_loop_ind (fun t b => forall i,
               bitmap_get_bit b i = false <->
               bitmap_get_bit bits i = false \/
               exists c, 0 <= c < t /\ g (start + c * step) = true /\
                         i = f (start + c * step))).
      - lia.
      - intros i. split; [auto|]. intros [H|(c & Hc & _)]; [exact H|lia].
      - intros t b Ht IH i. rewrite Hbody, IH. split.
        + intros [[H|(c & Hc & Hg & Hi)]|[Hg Hi]].
          * left. exact H.
          * right. exists c. split; [lia|]. auto.
          * right. exists t. split; [lia|]. auto.
        + intros [H|(c & Hc & Hg & Hi)].
          * left. left. exact H.
          * destruct (Z.eq_dec c t) as [->|Hne].
            -- right. auto.
            -- left. right. exists c. split; [lia|]. auto. }
    rewrite H. pose proof (Z.mul_div_le (hi - start) step Hstep) as Hmd.
    split; (intros [H1|(c & Hc & Hg & Hi)]; [left; exact H1|right; exists c]).
    + split; [lia|]. split; [nia|]. auto.
    + destruct Hi as [Hg' Hi']. split; [|auto]. split; [lia|].
      assert (c <= (hi - start) / step); [|lia].
      apply Z.div_le_lower_bound; [lia|]. lia.
  - apply Z.leb_gt in E. split; [auto|].
    intros [H|(c & Hc & Hle & _)]; [exact H|]. nia.
Qed.

Lemma stride_loop_size (start hi step : Z) (body : Z -> BITMAP -> BITMAP) (bits : BITMAP) :
  (forall j b, size (body j b) = size b) ->
  size (stride_loop start hi step body bits) = size bits.
Proof.
  intros Hbody. unfold stride_loop. destruct (start <=? hi); [|reflexivity].
  destruct (Z.le_gt_cases 0 ((hi - start) / step + 1)) as [L|G].
  - apply (for_loop_ind (fun _ b => size b = size bits)); [exact L|reflexivity|].
    intros t b _ IH. rewrite Hbody. exact IH.
  - unfold for_loop. replace (Z.to_nat ((hi - start) / step + 1 - 0)) with 0%nat by lia.
    reflexivity.
Qed.

Lemma clear_bit_spec (j : Z) (b : BITMAP) (idx : Z) :
  bitmap_get_bit (bitmap_clear_bit b j) idx = false <->
  bitmap_get_bit b idx = false \/ (true = true /\ idx = j).
Proof.
  rewrite clear_bit_get. destruct (Z.eqb_spec idx j) as [E|E].
  - split; auto.
  - split; [auto|]. intros [H|[_ H]]; [exact H|contradiction].
Qed.

Lemma seg_clear_spec (low j : Z) (b : BITMAP) (idx : Z) :
  bitmap_get_bit (seg_clear low j b) idx = false <->
  bitmap_get_bit b idx = false \/ (Z.odd j = true /\ idx = j - low).
Proof.
  unfold seg_clear. destruct (Z.eqb_spec (j mod 2) 0) as [E|E]; rewrite Zmod_odd in E.
  - destruct (Z.odd j); [discriminate E|].
    split; [auto|]. intros [H|[H _]]; [exact H|discriminate].
  - destruct (Z.odd j); [|contradiction].
    rewrite clear_bit_get. destruct (Z.eqb_spec idx (j - low)) as [Ei|Ei].
    + split; auto.
    + split; [auto|]. intros [H|[_ H]]; [exact H|contradiction].
Qed.

Lemma seg_mark_size (ps : list Z) (low high : Z) :
  forall bits, size (seg_mark ps low high bits) = size bits.
Proof.
  induction ps as [|p ps IH]; intros bits; cbn [seg_mark]; [reflexivity|].
  destruct (high <? wrap64 (p * p)); [reflexivity|].
  rewrite IH. apply stride_loop_size. intros j b. unfold seg_clear.
  destruct (j mod 2 =? 0); reflexivity.
Qed.

(** Step 1: the sieve of the odd numbers up to [sz]. *)
Lemma seg_small_body_inv (sz p : Z) (s : BITMAP * PRIMES_OBJ) :
  sz * sz < 2 ^ 32 ->
  3 <= p <= sz -> Z.odd p = true ->
  odd_sieve_inv sz p s ->
  odd_sieve_inv sz (p + 2) (seg_small_body sz p s).
Proof.
  intros Hsz Hp Hodd [Hs Hm Hpr Hmk]. destruct s as [bits primes]. cbn [fst snd] in *.
  change (2 ^ 32) with 4294967296 in Hsz.
  assert (Hnext : ~ Z.prime (p + 1)).
  { apply even_not_prime; [lia|]. rewrite Z.even_add, <- Z.negb_odd, Hodd. reflexivity. }
  assert (Hq12 : forall q, Z.prime q -> q < p + 2 -> q < p \/ q = p).
  { intros q Hq Hlt. destruct (Z.eq_dec q (p + 1)) as [->|]; [contradiction|lia]. }
  unfold seg_small_body.
  destruct (bitmap_get_bit bits p) eqn:Ebit.
  - assert (Hprime : Z.prime p).
    { destruct (prime_or_not p) as [H|H]; [exact H|exfalso].
      destruct (composite_has_small_prime_factor p ltac:(lia) H) as (q & Hq & Hqq & Hd).
      pose proof (odd_prime_ge_3 q Hq (odd_divisor q p Hodd Hd)) as Hq3.
      assert (Hlt : 3 <= q < p) by nia.
      rewrite (Hmk p q Hp Hodd Hq Hlt Hqq Hd) in Ebit. discriminate. }
    rewrite (wrap64_small (p * p)) by (rewrite U64_value; nia).
    rewrite (wrap64_small (2 * p)) by (rewrite U64_value; nia).
    pose proof (stride_loop_spec (p * p) sz (2 * p) (fun _ => true) (fun m => m)
                  (fun multiple b => bitmap_clear_bit b multiple) bits ltac:(lia)
                  (fun j b idx => clear_bit_spec j b idx)) as Hloop.
    constructor; cbn [fst snd].
    + cbn [primes_obj_append p_array]. apply StronglySorted_app_one; [exact Hs|].
      apply Forall_forall. intros q Hq. apply Hm in Hq. lia.
    + intros q. cbn [primes_obj_append p_array]. rewrite in_app_iff, Hm. cbn [In].
      split.
      * intros [[Hq Hlt] | [<- | []]]; split; auto; lia.
      * intros [Hq Hlt]. destruct (Hq12 q Hq Hlt) as [H|H]; [left; auto|right; left; auto].
    + intros j Hj Hjp.
      destruct (bitmap_get_bit (stride_loop (p * p) sz (2 * p)
                  (fun multiple b => bitmap_clear_bit b multiple) bits) j) eqn:E;
        [reflexivity|exfalso].
      apply Hloop in E. destruct E as [E|(c & Hc & _ & _ & E)].
      * rewrite (Hpr j Hj Hjp) in E. discriminate.
      * assert (Hj' : j = p * (p + 2 * c)) by lia.
        rewrite Hj' in Hjp. revert Hjp. apply not_prime_multiple; lia.
    + intros j q Hj Hoj Hq Hlt Hqq Hd. apply Hloop.
      destruct (Hq12 q Hq ltac:(lia)) as [Hlt'| ->].
      * left. apply (Hmk j q); auto. lia.
      * right. destruct Hd as [c Hc].
        assert (Hoc : Z.odd c = true).
        { apply (odd_divisor c j Hoj). exists p. lia. }
        assert (Hcp : p <= c) by nia.
        assert (Hk : exists k, c - p = 2 * k).
        { apply Z.even_spec. rewrite Z.even_sub, <- !Z.negb_odd, Hoc, Hodd. reflexivity. }
        destruct Hk as [k Hk]. exists k.
        split; [lia|]. split; [nia|]. split; [reflexivity|nia].
  - assert (Hnp : ~ Z.prime p).
    { intros H. rewrite (Hpr p Hp H) in Ebit. discriminate. }
    constructor; cbn [fst snd].
    + exact Hs.
    + intros q. rewrite Hm. split; intros [Hq Hlt]; (split; [exact Hq|]).
      * lia.
      * destruct (Hq12 q Hq Hlt) as [H| ->]; [exact H|contradiction].
    + exact Hpr.
    + intros j q Hj Hoj Hq Hlt Hqq Hd. apply (Hmk j q); auto.
      destruct (Hq12 q Hq ltac:(lia)) as [H| ->]; [lia|contradiction].
Qed.

Lemma seg_small_body_size (sz p : Z) (s : BITMAP * PRIMES_OBJ) :
  size (fst (seg_small_body sz p s)) = size (fst s).
Proof.
  destruct s as [bits primes]. unfold seg_small_body.
  destruct (bitmap_get_bit bits p); [|reflexivity]. cbn [fst].
  apply stride_loop_size. reflexivity.
Qed.

Lemma seg_small_loop (sz : Z) :
  10 <= sz -> sz * sz < 2 ^ 32 ->
  primes_below (sz + 1)
    (snd (for_loop 1 ((sz - 1) / 2 + 1) (fun k => seg_small_body sz (2 * k + 1))
            (bitmap_set_all (bitmap_create (sz + 1)), primes_obj_append primes_obj_init 2))) /\
  size (fst (for_loop 1 ((sz - 1) / 2 + 1) (fun k => seg_small_body sz (2 * k + 1))
            (bitmap_set_all (bitmap_create (sz + 1)), primes_obj_append primes_obj_init 2)))
  = sz + 1.
Proof.
  intros Hsz Hfit.
  pose proof (Z.div_mod (sz - 1) 2 ltac:(lia)) as Hd.
  pose proof (Z.mod_pos_bound (sz - 1) 2 ltac:(lia)) as Hb.
  assert (H : odd_sieve_inv sz (2 * ((sz - 1) / 2 + 1) + 1)
                (for_loop 1 ((sz - 1) / 2 + 1) (fun k => seg_small_body sz (2 * k + 1))
                   (bitmap_set_all (bitmap_create (sz + 1)),
                    primes_obj_append primes_obj_init 2)) /\
              size (fst (for_loop 1 ((sz - 1) / 2 + 1)
                           (fun k => seg_small_body sz (2 * k + 1))
                           (bitmap_set_all (bitmap_create (sz + 1)),
                            primes_obj_append primes_obj_init 2))) = sz + 1).
  { apply (for_loop_ind (fun k s => odd_sieve_inv sz (2 * k + 1) s /\ size (fst s) = sz + 1)).
    - lia.
    - split; [|reflexivity]. apply odd_sieve_inv_init.
    - intros k t Hk [Hinv Hsize]. split.
      + replace (2 * (k + 1) + 1) with (2 * k + 1 + 2) by ring.
        apply seg_small_body_inv; [exact Hfit|lia| |exact Hinv].
        rewrite Z.add_comm, Z.odd_add_mul_2. reflexivity.
      + rewrite seg_small_body_size. exact Hsize. }
  destruct H as [[Hs Hm _ _] Hsize]. split; [|exact Hsize].
  split; [exact Hs|].
  intros q. rewrite Hm. split; intros [Hq Hle]; (split; [exact Hq|]); [|lia].
  destruct (Z.lt_ge_cases q (sz + 1)) as [H|H]; [exact H|exfalso].
  assert (He : (sz - 1) mod 2 = 0) by lia.
  assert (Hqn : q = sz + 1) by lia. subst q.
  revert Hq. apply even_not_prime; [lia|].
  apply Z.even_spec. exists ((sz - 1) / 2 + 1). lia.
Qed.

(** The sieving of a segment: what it clears, and that it clears the odd
    multiples from [p * p] on of the primes of the list up to the root of
    [high]. *)
Lemma seg_mark_spec (low high : Z) (ps : list Z) :
  0 < low <= high -> high < 2 ^ 32 ->
  forall bits,
    StronglySorted Z.lt ps ->
    (forall p, In p ps -> 2 <= p < 2 ^ 32) ->
    (forall idx, bitmap_get_bit (seg_mark ps low high bits) idx = false ->
                 bitmap_get_bit bits idx = false \/
                 exists p c, 2 <= p <= c /\ idx + low = p * c) /\
    (forall idx, bitmap_get_bit bits idx = false ->
                 bitmap_get_bit (seg_mark ps low high bits) idx = false) /\
    (forall p j, In p ps -> p * p <= high -> low <= j <= high -> Z.odd j = true ->
                 (p | j) -> p * p <= j ->
                 bitmap_get_bit (seg_mark ps low high bits) (j - low) = false).
Proof.
  intros Hlh Hhigh. change (2 ^ 32) with 4294967296 in Hhigh.
  induction ps as [|p ps IH]; intros bits Hs Hps.
  - cbn [seg_mark]. split; [auto|]. split; [auto|]. intros p j [].
  - apply StronglySorted_inv in Hs. destruct Hs as [Hs Hall].
    rewrite Forall_forall in Hall.
    assert (Hp : 2 <= p < 2 ^ 32) by (apply Hps; left; reflexivity).
    change (2 ^ 32) with 4294967296 in Hp.
    cbn [seg_mark].
    rewrite (wrap64_small (p * p)) by (rewrite U64_value; nia).
    destruct (high <? p * p) eqn:Ebrk.
    + apply Z.ltb_lt in Ebrk. split; [auto|]. split; [auto|].
      intros q j [<- | Hin] Hqq; [lia|]. apply Hall in Hin.
      assert (2 <= q) by lia. nia.
    + apply Z.ltb_ge in Ebrk.
      pose proof (Z.div_mod low p ltac:(lia)) as Hdm.
      pose proof (Z.mod_pos_bound low p ltac:(lia)) as Hmb.
      assert (Hq0 : 0 <= low / p) by (apply Z.div_pos; lia).
      rewrite (wrap64_small (low / p * p)) by (rewrite U64_value; nia).
      set (s0 := low / p * p).
      assert (Hs1 : exists s1, (if s0 <? low then wrap64 (s0 + p) else s0) = s1 /\
                               low <= s1 < low + p /\ (p | s1)).
      { destruct (s0 <? low) eqn:E1.
        - apply Z.ltb_lt in E1. exists (s0 + p).
          split; [apply wrap64_small; rewrite U64_value; unfold s0 in *; nia|].
          split; [unfold s0 in *; nia|]. exists (low / p + 1). unfold s0. ring.
        - apply Z.ltb_ge in E1. exists s0. split; [reflexivity|].
          split; [unfold s0 in *; nia|]. exists (low / p). reflexivity. }
      destruct Hs1 as (s1 & -> & Hs1b & Hs1d).
      set (s2 := if s1 <? p * p then p * p else s1).
      assert (Hs2 : low <= s2 /\ p * p <= s2 /\ (p | s2) /\
                    forall j, low <= j -> p * p <= j -> (p | j) -> s2 <= j).
      { unfold s2. destruct (s1 <? p * p) eqn:E2.
        - apply Z.ltb_lt in E2. split; [lia|]. split; [lia|].
          split; [exists p; reflexivity|]. intros; lia.
        - apply Z.ltb_ge in E2. split; [lia|]. split; [lia|]. split; [exact Hs1d|].
          intros j Hj _ [c Hc]. destruct Hs1d as [c1 Hc1].
          destruct (Z.le_gt_cases s1 j) as [L|G]; [exact L|exfalso].
          assert (c < c1) by nia. assert (c + 1 <= c1) by lia. nia. }
      destruct Hs2 as (Hs2l & Hs2p & Hs2d & Hs2min).
      pose proof (stride_loop_spec s2 high p (fun j => Z.odd j) (fun j => j - low)
                    (seg_clear low) bits ltac:(lia) (seg_clear_spec low)) as Hloop.
      destruct (IH (stride_loop s2 high p (seg_clear low) bits) Hs) as (Ha & Hc & Hb).
      { intros q Hq. apply Hps. right. exact Hq. }
      split; [|split].
      * intros idx Hidx. apply Ha in Hidx. destruct Hidx as [Hidx|Hidx]; [|right; exact Hidx].
        apply Hloop in Hidx. destruct Hidx as [Hidx|(c & Hc0 & Hle & _ & Hidx)];
          [left; exact Hidx|right].
        destruct Hs2d as [c2 Hc2]. exists p, (c2 + c).
        assert (p <= c2) by nia. split; [lia|]. rewrite Hidx. lia.
      * intros idx Hidx. apply Hc. apply Hloop. left. exact Hidx.
      * intros q j [<- | Hin] Hqq Hj Hoj Hd Hqj.
        -- apply Hc. apply Hloop. right.
           pose proof (Hs2min j ltac:(lia) Hqj Hd) as Hge.
           destruct Hd as [c Hc']. destruct Hs2d as [c2 Hc2].
           exists (c - c2). split; [nia|].
           replace (s2 + (c - c2) * p) with j by lia.
           split; [lia|]. split; [exact Hoj|reflexivity].
        -- apply (Hb q j Hin Hqq Hj Hoj Hd Hqj).
Qed.

Lemma primes_below_skip (i : Z) (primes : PRIMES_OBJ) :
  primes_below i primes -> ~ Z.prime i -> primes_below (i + 1) primes.
Proof.
  intros [Hs Hm] Hnp. split; [exact Hs|].
  intros q. rewrite Hm. split; intros [Hq Hlt]; (split; [exact Hq|]); [lia|].
  destruct (Z.eq_dec q i) as [->|]; [contradiction|lia].
Qed.

Lemma primes_below_append (i : Z) (primes : PRIMES_OBJ) :
  primes_below i primes -> Z.prime i -> primes_below (i + 1) (primes_obj_append primes i).
Proof.
  intros [Hs Hm] Hp. split; cbn [primes_obj_append p_array].
  - apply StronglySorted_app_one; [exact Hs|].
    apply Forall_forall. intros q Hq. apply Hm in Hq. lia.
  - intros q. rewrite in_app_iff, Hm. cbn [In]. split.
    + intros [[Hq Hlt] | [<- | []]]; split; auto; lia.
    + intros [Hq Hlt]. destruct (Z.eq_dec q i) as [->|]; [right; left; reflexivity|].
      left. split; [exact Hq|lia].
Qed.

Section SegmentLoop.

Variable n : Z.
Hypothesis Hn : 1000 <= n.
Hypothesis Hfit : n < 2 ^ 32.

Lemma segment_size_bounds :
  31 <= Z.sqrt n /\ Z.sqrt n * Z.sqrt n <= n < (Z.sqrt n + 1) * (Z.sqrt n + 1) /\
  Z.sqrt n * Z.sqrt n < 2 ^ 32.
Proof.
  pose proof (Z.sqrt_spec n ltac:(lia)) as Hs. unfold Z.succ in Hs.
  split; [apply Z.sqrt_le_square; lia|]. split; [exact Hs|]. lia.
Qed.

(** One turn of the segment loop: from the primes below [low] to the primes
    up to [high]. *)
Lemma seg_segment_spec (low : Z) (bits : BITMAP) (primes : PRIMES_OBJ) :
  Z.sqrt n < low <= n ->
  size bits = Z.sqrt n + 1 ->
  primes_below low primes ->
  primes_below ((if n <? low + Z.sqrt n - 1 then n else low + Z.sqrt n - 1) + 1)
    (for_loop low ((if n <? low + Z.sqrt n - 1 then n else low + Z.sqrt n - 1) + 1)
       (seg_collect
          (seg_mark (p_array primes) low
             (if n <? low + Z.sqrt n - 1 then n else low + Z.sqrt n - 1)
             (bitmap_set_all bits)) low)
       primes).
Proof.
  intros Hlow Hsize Hpb.
  destruct segment_size_bounds as (H31 & Hsq & _).
  set (sz := Z.sqrt n) in *.
  set (high := if n <? low + sz - 1 then n else low + sz - 1).
  assert (Hhigh : low <= high <= n /\ high <= low + sz - 1).
  { unfold high. destruct (n <? low + sz - 1) eqn:E;
      [apply Z.ltb_lt in E|apply Z.ltb_ge in E]; lia. }
  destruct Hpb as [Hs Hm].
  destruct (seg_mark_spec low high (p_array primes) ltac:(lia) ltac:(lia)
              (bitmap_set_all bits) Hs) as (Ha & _ & Hb).
  { intros p Hp. apply Hm in Hp. destruct Hp as [Hp Hlt].
    pose proof (Z.prime_ge_2 p Hp). lia. }
  set (marked := seg_mark (p_array primes) low high (bitmap_set_all bits)) in *.
  assert (Hbit : forall i, low <= i <= high -> Z.odd i = true ->
                           (bitmap_get_bit marked (i - low) = true <-> Z.prime i)).
  { intros i Hi Hoi. split.
    - intros Hset. destruct (prime_or_not i) as [H|H]; [exact H|exfalso].
      destruct (composite_has_small_prime_factor i ltac:(lia) H) as (q & Hq & Hqq & Hd).
      pose proof (Z.prime_ge_2 q Hq) as Hq2.
      assert (Hqs : q <= sz) by nia.
      assert (Hin : In q (p_array primes)) by (apply Hm; split; [exact Hq|lia]).
      rewrite (Hb q i Hin ltac:(lia) Hi Hoi Hd Hqq) in Hset. discriminate.
    - intros Hp. destruct (bitmap_get_bit marked (i - low)) eqn:E; [reflexivity|exfalso].
      apply Ha in E. destruct E as [E|(p & c & Hpc & E)].
      + unfold bitmap_get_bit, bitmap_set_all in E. cbn [data size] in E.
        rewrite Hsize in E.
        replace (0 <=? i - low) with true in E by (symmetry; apply Z.leb_le; lia).
        replace (i - low <? sz + 1) with true in E by (symmetry; apply Z.ltb_lt; lia).
        discriminate.
      + replace (i - low + low) with i in E by ring. rewrite E in Hp.
        revert Hp. apply not_prime_multiple; lia. }
  apply (for_loop_ind (fun i pr => primes_below i pr)).
  - lia.
  - split; assumption.
  - intros i pr Hi Hinv. unfold seg_collect.
    destruct (Z.eqb_spec (i mod 2) 0) as [E|E]; rewrite Zmod_odd in E.
    + apply primes_below_skip; [exact Hinv|].
      apply even_not_prime; [lia|]. rewrite <- Z.negb_odd.
      destruct (Z.odd i); [discriminate E|reflexivity].
    + assert (Hoi : Z.odd i = true) by (destruct (Z.odd i); [reflexivity|contradiction]).
      destruct (bitmap_get_bit marked (i - low)) eqn:Eb.
      * apply primes_below_append; [exact Hinv|]. apply Hbit; [lia|exact Hoi|exact Eb].
      * apply primes_below_skip; [exact Hinv|]. intros Hp.
        apply Hbit in Hp; [|lia|exact Hoi]. congruence.
Qed.

Lemma seg_loop_spec (fuel : nat) :
  forall (low : Z) (bits : BITMAP) (primes : PRIMES_OBJ),
    Z.sqrt n < low <= n + 1 ->
    n + 2 - low <= Z.of_nat fuel ->
    size bits = Z.sqrt n + 1 ->
    primes_below low primes ->
    exists o,
      seg_loop fuel n (Z.sqrt n) low
        (if n <? low + Z.sqrt n - 1 then n else low + Z.sqrt n - 1) bits primes = Ret o /\
      primes_below (n + 1) o.
Proof.
  destruct segment_size_bounds as (H31 & _ & _).
  induction fuel as [|fuel IH]; intros low bits primes Hlow Hfuel Hsize Hpb; [lia|].
  cbn [seg_loop]. destruct (low <=? n) eqn:E.
  - apply Z.leb_le in E. cbv zeta.
    pose proof (seg_segment_spec low bits primes ltac:(lia) Hsize Hpb) as Hseg.
    assert (Hhigh : low <= (if n <? low + Z.sqrt n - 1 then n else low + Z.sqrt n - 1) <= n).
    { destruct (n <? low + Z.sqrt n - 1) eqn:E';
        [apply Z.ltb_lt in E'|apply Z.ltb_ge in E']; lia. }
    revert Hseg Hhigh.
    generalize (if n <? low + Z.sqrt n - 1 then n else low + Z.sqrt n - 1).
    intros high Hseg Hhigh.
    apply IH; [lia|lia| |exact Hseg].
    rewrite seg_mark_size. exact Hsize.
  - apply Z.leb_gt in E. exists primes. split; [reflexivity|].
    replace (n + 1) with low by lia. exact Hpb.
Qed.

End SegmentLoop.

(** segmented_sieve hands n < 1000 to sieve_eratosthenes; for
    1000 <= n < 2^32 (no square p * p wraps in 64 bits) the segment loop ends
    and the call returns exactly the primes up to n, in strictly increasing
    order, the same list as classic_sieve_eratosthenes. *)
Theorem segmented_sieve_exact (n : Z) :
  0 <= n -> n < 2 ^ 32 ->
  (n < 1000 -> segmented_sieve n = Ret (sieve_eratosthenes n)) /\
  (1000 <= n ->
   exists o, segmented_sieve n = Ret (Some o) /\
     StronglySorted Z.lt (p_array o) /\
     (forall q, In q (p_array o) <-> Z.prime q /\ q <= n) /\
     option_map p_array (classic_sieve_eratosthenes n) = Some (p_array o)).
Proof.
  intros H0 Hfit. unfold segmented_sieve. split.
  - intros Hlt. replace (n <? 1000) with true by (symmetry; apply Z.ltb_lt; lia). reflexivity.
  - intros Hn. replace (n <? 1000) with false by (symmetry; apply Z.ltb_ge; lia).
    cbv zeta.
    destruct (segment_size_bounds n Hn Hfit) as (H31 & Hsq & Hss).
    destruct (seg_small_loop (Z.sqrt n) ltac:(lia) Hss) as [Hpb Hsize].
    destruct (seg_loop_spec n Hn Hfit (Z.to_nat n) (Z.sqrt n + 1) _ _
                ltac:(nia) ltac:(lia) Hsize Hpb) as (o & Ho & Hs & Hm).
    rewrite Ho. exists o. split; [reflexivity|]. split; [exact Hs|].
    assert (Hmem : forall q, In q (p_array o) <-> Z.prime q /\ q <= n).
    { intros q. rewrite Hm. split; intros [Hq Hle]; (split; [exact Hq|lia]). }
    split; [exact Hmem|].
    assert (HfitU : n + 1 < U64).
    { rewrite U64_value. change (2 ^ 32) with 4294967296 in Hfit. lia. }
    destruct (classic_loop_inv n ltac:(lia) HfitU) as [Hs' Hm' _ _].
    unfold classic_sieve_eratosthenes.
    replace (n <? 10) with false by (symmetry; apply Z.ltb_ge; lia).
    cbn [option_map]. f_equal.
    apply sorted_same_members; [exact Hs'|exact Hs|].
    intros q. rewrite Hm', Hmem. split; intros [Hq Hle]; (split; [exact Hq|lia]).
Qed.

Lemma segmented_sieve_exact_witness :
  exists o, segmented_sieve 1000 = Ret (Some o) /\
    StronglySorted Z.lt (p_array o) /\
    (forall q, In q (p_array o) <-> Z.prime q /\ q <= 1000).
Proof.
  assert (H0 : 0 <= 1000) by lia.
  assert (Hfit : 1000 < 2 ^ 32) by reflexivity.
  destruct (proj2 (segmented_sieve_exact 1000 H0 Hfit) ltac:(lia)) as (o & Ho & Hs & Hm & _).
  exists o. split; [exact Ho|]. split; [exact Hs|exact Hm].
Defined.

(** ** compute_max_vx_gmp *)

Lemma list_product_snoc (l : list Z) (p : Z) :
  list_product (l ++ [p]) = list_product l * p.
Proof.
  unfold list_product. rewrite fold_right_mul_app. cbn [fold_right]. ring.
Qed.

Lemma firstn_length_app (pre : list Z) (last : Z) (rest : list Z) :
  firstn (length pre) (pre ++ last :: rest) = pre /\
  firstn (S (length pre)) (pre ++ last :: rest) = pre ++ [last].
Proof.
  split.
  - rewrite firstn_app, firstn_all, Nat.sub_diag, firstn_O, app_nil_r. reflexivity.
  - replace (pre ++ last :: rest) with ((pre ++ [last]) ++ rest)
      by (rewrite <- app_assoc; reflexivity).
    assert (Hlen : length (pre ++ [last]) = S (length pre))
      by (rewrite length_app; cbn [length]; lia).
    rewrite <- Hlen.
    rewrite firstn_app, firstn_all, Nat.sub_diag, firstn_O, app_nil_r. reflexivity.
Qed.

(** The loop stops at the first product of leading cells that has bit_size
    bits and returns the product before it. *)
Lemma max_vx_loop_spec (bs : Z) (rest : list Z) :
  forall (pre : list Z) (last : Z),
    last <> 0 ->
    bs <= mpz_sizeinbase_2 (list_product (pre ++ last :: rest)) ->
    exists k,
      (length pre <= k <= length pre + length rest)%nat /\
      max_vx_loop rest (list_product (pre ++ [last])) last bs =
        Some (list_product (firstn k (pre ++ last :: rest))) /\
      bs <= mpz_sizeinbase_2 (list_product (firstn (S k) (pre ++ last :: rest))) /\
      (k = length pre \/
       mpz_sizeinbase_2 (list_product (firstn k (pre ++ last :: rest))) < bs).
Proof.
  induction rest as [|p rest IH]; intros pre last Hl Hfit.
  - assert (Hstop : (mpz_sizeinbase_2 (list_product (pre ++ [last])) <? bs) = false)
      by (apply Z.ltb_ge; exact Hfit).
    cbn [max_vx_loop]. rewrite Hstop.
    destruct (firstn_length_app pre last []) as [H1 H2].
    exists (length pre). split; [cbn [length]; lia|].
    split; [|split].
    + rewrite list_product_snoc, Z.div_mul by lia. rewrite H1. reflexivity.
    + rewrite H2. exact Hfit.
    + left. reflexivity.
  - destruct (firstn_length_app pre last (p :: rest)) as [H1 H2].
    cbn [max_vx_loop].
    destruct (mpz_sizeinbase_2 (list_product (pre ++ [last])) <? bs) eqn:E.
    + apply Z.ltb_lt in E.
      replace (list_product (pre ++ [last]) * p) with (list_product ((pre ++ [last]) ++ [p]))
        by (rewrite list_product_snoc; reflexivity).
      assert (Hlen : length (pre ++ [last]) = S (length pre))
        by (rewrite length_app; cbn [length]; lia).
      assert (Hp : p <> 0).
      { intros ->. revert Hfit E.
        replace (pre ++ last :: 0 :: rest) with ((pre ++ [last]) ++ 0 :: rest)
          by (rewrite <- app_assoc; reflexivity).
        unfold list_product. rewrite fold_right_mul_app. cbn [fold_right].
        rewrite Z.mul_0_l, Z.mul_0_r. unfold mpz_sizeinbase_2 at 1. cbn [Z.eqb].
        intros Hfit E.
        assert (1 <= mpz_sizeinbase_2 (fold_right Z.mul 1 (pre ++ [last]))); [|lia].
        unfold mpz_sizeinbase_2. destruct (_ =? 0); [lia|].
        pose proof (Z.log2_nonneg (Z.abs (fold_right Z.mul 1 (pre ++ [last])))). lia. }
      assert (Happ : (pre ++ [last]) ++ p :: rest = pre ++ last :: p :: rest)
        by (rewrite <- app_assoc; reflexivity).
      destruct (IH (pre ++ [last]) p Hp) as (k & Hk & Hres & Hstop & Hlow).
      { rewrite Happ. exact Hfit. }
      rewrite Happ in Hres, Hstop, Hlow.
      rewrite Hlen in Hk, Hlow.
      exists k. split; [cbn [length]; lia|]. split; [exact Hres|].
      split; [exact Hstop|]. right.
      destruct Hlow as [->|Hlow]; [rewrite H2; exact E|exact Hlow].
    + apply Z.ltb_ge in E. exists (length pre). split; [cbn [length]; lia|].
      split; [|split].
      * rewrite list_product_snoc, Z.div_mul by lia. rewrite H1. reflexivity.
      * rewrite H2. exact E.
      * left. reflexivity.
Qed.

Lemma list_product_pos (l : list Z) : Forall (fun p => 1 <= p) l -> 1 <= list_product l.
Proof.
  induction 1 as [|p l Hp _ IH]; unfold list_product in *; cbn [fold_right]; nia.
Qed.

Lemma Forall_firstn_ge_1 (k : nat) (l : list Z) :
  Forall (fun p => 1 <= p) l -> Forall (fun p => 1 <= p) (firstn k l).
Proof.
  revert k. induction l as [|a l IH]; intros k H.
  - rewrite firstn_nil. constructor.
  - destruct k as [|k]; [constructor|]. inversion H; subst.
    rewrite firstn_cons. constructor; [assumption|apply IH; assumption].
Qed.

Lemma mpz_sizeinbase_2_mono (a b : Z) :
  1 <= a <= b -> mpz_sizeinbase_2 a <= mpz_sizeinbase_2 b.
Proof.
  intros H. unfold mpz_sizeinbase_2.
  replace (a =? 0) with false by (symmetry; apply Z.eqb_neq; lia).
  replace (b =? 0) with false by (symmetry; apply Z.eqb_neq; lia).
  rewrite !Z.abs_eq by lia. pose proof (Z.log2_le_mono a b ltac:(lia)). lia.
Qed.

(** When even the product of all the cells is shorter than bit_size, the loop
    reads past the last cell. *)
Lemma max_vx_loop_none (bs : Z) (rest : list Z) :
  forall vx last,
    1 <= vx -> Forall (fun p => 1 <= p) rest ->
    mpz_sizeinbase_2 (vx * list_product rest) < bs ->
    max_vx_loop rest vx last bs = None.
Proof.
  induction rest as [|p rest IH]; intros vx last Hvx Hpos Hlt.
  - cbn [max_vx_loop]. change (list_product []) with 1 in Hlt. rewrite Z.mul_1_r in Hlt.
    replace (mpz_sizeinbase_2 vx <? bs) with true by (symmetry; apply Z.ltb_lt; exact Hlt).
    reflexivity.
  - inversion Hpos as [|? ? Hp Hrest]; subst.
    pose proof (list_product_pos rest Hrest) as Hr.
    change (list_product (p :: rest)) with (p * list_product rest) in Hlt.
    assert (Hpr : 1 <= p * list_product rest) by nia.
    assert (Hle : mpz_sizeinbase_2 vx <= mpz_sizeinbase_2 (vx * (p * list_product rest)))
      by (apply mpz_sizeinbase_2_mono; nia).
    cbn [max_vx_loop].
    replace (mpz_sizeinbase_2 vx <? bs) with true by (symmetry; apply Z.ltb_lt; lia).
    apply IH; [nia|exact Hrest|]. rewrite <- Z.mul_assoc. exact Hlt.
Qed.

(** The bit length of a product lies between the sum of the logarithms of
    its factors and that sum plus their number. *)
Lemma sum_log2_bounds (l : list Z) :
  Forall (fun p => 1 <= p) l ->
  sum_log2 l <= Z.log2 (list_product l) <= sum_log2 l + Z.of_nat (length l).
Proof.
  induction 1 as [|p l Hp Hl IH].
  - cbn. lia.
  - pose proof (list_product_pos l Hl) as Hpos.
    change (list_product (p :: l)) with (p * list_product l).
    change (sum_log2 (p :: l)) with (Z.log2 p + sum_log2 l).
    pose proof (Z.log2_mul_below p (list_product l) ltac:(lia) ltac:(lia)).
    pose proof (Z.log2_mul_above p (list_product l) ltac:(lia) ltac:(lia)).
    cbn [length]. lia.
Qed.

(** compute_max_vx_gmp on the primes 5, 7, 11, ... that sieve_iZ(10000)
    lists after 2 and 3, whose product has between 13680 and 14907 bits: for
    0 <= bit_size <= 13680 it returns the product of the first k of them,
    where k is the first count at which one more prime gives a product of
    bit_size bits or more; so the result is 1 for bit_size <= 3 and is
    shorter than bit_size bits from 4 on.  For an [int] bit_size above 14907
    or negative (it is compared as a [size_t]) the loop reads past the end of
    the list. *)
Theorem compute_max_vx_gmp_largest (bit_size : Z) :
  - 2 ^ 31 <= bit_size < 2 ^ 31 ->
  exists o,
    sieve_iZ 10000 = Some o /\
    (0 <= bit_size <= 13680 ->
     exists k,
       (k < length (skipn 2 (p_array o)))%nat /\
       compute_max_vx_gmp bit_size = Some (list_product (firstn k (skipn 2 (p_array o)))) /\
       bit_size <= mpz_sizeinbase_2 (list_product (firstn (S k) (skipn 2 (p_array o)))) /\
       (bit_size <= 3 -> k = 0%nat) /\
       (4 <= bit_size ->
        mpz_sizeinbase_2 (list_product (firstn k (skipn 2 (p_array o)))) < bit_size)) /\
    (bit_size < 0 \/ 14907 < bit_size -> compute_max_vx_gmp bit_size = None).
Proof.
  intros Hint. change (2 ^ 31) with 2147483648 in Hint.
  assert (Hcheck :
            match sieve_iZ 10000 with
            | Some o =>
                match skipn 2 (p_array o) with
                | p :: rest =>
                    (p =? 5) && forallb (fun q => 1 <=? q) rest &&
                    ((sum_log2 (p :: rest) =? 13679) &&
                     (Z.of_nat (length (p :: rest)) =? 1227))
                | [] => false
                end
            | None => false
            end = true) by (vm_compute; reflexivity).
  unfold compute_max_vx_gmp.
  destruct (sieve_iZ 10000) as [o|]; [|discriminate Hcheck].
  exists o. split; [reflexivity|].
  destruct (skipn 2 (p_array o)) as [|p rest]; [discriminate Hcheck|].
  apply andb_prop in Hcheck. destruct Hcheck as [Hcheck Hbits].
  apply andb_prop in Hcheck. destruct Hcheck as [Hp Hpos].
  apply andb_prop in Hbits. destruct Hbits as [Hsum Hlen].
  apply Z.eqb_eq in Hp, Hsum, Hlen. subst p.
  assert (Hall : Forall (fun q => 1 <= q) rest).
  { apply Forall_forall. intros q Hq. rewrite forallb_forall in Hpos.
    apply Z.leb_le. apply Hpos. exact Hq. }
  clear Hpos.
  assert (Hall5 : Forall (fun q => 1 <= q) (5 :: rest)) by (constructor; [lia|exact Hall]).
  pose proof (sum_log2_bounds (5 :: rest) Hall5) as Hlog.
  rewrite Hsum, Hlen in Hlog.
  pose proof (list_product_pos (5 :: rest) Hall5) as Hprod.
  assert (Hsize : 13680 <= mpz_sizeinbase_2 (list_product (5 :: rest)) <= 14907).
  { unfold mpz_sizeinbase_2.
    replace (list_product (5 :: rest) =? 0) with false by (symmetry; apply Z.eqb_neq; lia).
    rewrite Z.abs_eq by lia. lia. }
  clear Hlog Hsum Hlen. split.
  - intros Hbs.
    rewrite (wrap64_small bit_size) by (rewrite U64_value; lia).
    destruct (max_vx_loop_spec bit_size rest [] 5 ltac:(lia)) as (k & Hk & Hres & Hstop & Hlow).
    { cbn [app]. lia. }
    cbn [app length] in Hk, Hres, Hstop, Hlow.
    change (list_product [5]) with 5 in Hres.
    exists k. split; [cbn [length]; lia|]. split; [exact Hres|]. split; [exact Hstop|].
    split.
    + intros H3. destruct k as [|k]; [reflexivity|exfalso].
      destruct Hlow as [Hk0|Hlow]; [discriminate Hk0|].
      assert (Hle : mpz_sizeinbase_2 5 <= mpz_sizeinbase_2 (list_product (firstn (S k) (5 :: rest)))).
      { apply mpz_sizeinbase_2_mono. cbn [firstn].
        change (list_product (5 :: firstn k rest)) with (5 * list_product (firstn k rest)).
        assert (1 <= list_product (firstn k rest)); [|lia].
        apply list_product_pos, Forall_firstn_ge_1, Hall. }
      change (mpz_sizeinbase_2 5) with 3 in Hle. lia.
    + intros H4. destruct Hlow as [->|Hlow]; [|exact Hlow].
      exfalso. cbn [firstn] in Hstop. change (list_product [5]) with 5 in Hstop.
      change (mpz_sizeinbase_2 5) with 3 in Hstop. lia.
  - intros Hout.
    apply max_vx_loop_none; [lia|exact Hall|].
    change (5 * list_product rest) with (list_product (5 :: rest)).
    unfold wrap64. rewrite U64_value.
    destruct Hout as [Hneg|Hbig].
    + replace (bit_size mod 18446744073709551616) with (bit_size + 18446744073709551616);
        [lia|]. apply Z.mod_unique with (q := -1); lia.
    + rewrite Z.mod_small; lia.
Qed.

Lemma compute_max_vx_gmp_largest_witness :
  exists o, sieve_iZ 10000 = Some o /\
    exists k, compute_max_vx_gmp 1024 = Some (list_product (firstn k (skipn 2 (p_array o)))) /\
              mpz_sizeinbase_2 (list_product (firstn k (skipn 2 (p_array o)))) < 1024.
Proof.
  assert (Hint : - 2 ^ 31 <= 1024 < 2 ^ 31) by (split; [discriminate|reflexivity]).
  destruct (compute_max_vx_gmp_largest 1024 Hint) as (o & Ho & Hin & _).
  destruct (Hin ltac:(lia)) as (k & _ & Hres & _ & _ & Hlt).
  exists o. split; [exact Ho|]. exists k. split; [exact Hres|]. apply Hlt. lia.
Defined.

(** ** sieve_vx_root_primes *)

(** One marking of sieve_vx_root_primes in the model, which clears below the
    limit [vx]: it clears the indices whose candidate [p] divides, and nothing
    else. *)
Lemma root_prime_mark_spec (i p vx y : Z) (b : BITMAP) (x : Z) :
  i = 1 \/ i = -1 -> Z.prime p -> 5 <= p < U64 ->
  bitmap_get_bit (bitmap_clear_mod_p b p (solve_for_x_gmp i p vx y) vx) x = false <->
  bitmap_get_bit b x = false \/ (1 <= x < vx /\ (p | 6 * (y * vx + x) + i)).
Proof.
  intros Hi Hp Hp5.
  pose proof (prime_mod_6 p Hp ltac:(lia)) as Hm6.
  destruct (solve_for_x_gmp_correct i p vx y Hi Hp5 Hm6) as (Hr & _ & [d Hd] & Huniq).
  rewrite clear_mod_p_get. set (start := solve_for_x_gmp i p vx y) in *.
  destruct ((start <=? x) && (x <? vx) && ((x - start) mod p =? 0)) eqn:E.
  - split; [intros _; right|reflexivity].
    apply andb_prop in E. destruct E as [E E3]. apply andb_prop in E. destruct E as [E1 E2].
    apply Z.leb_le in E1. apply Z.ltb_lt in E2. apply Z.eqb_eq in E3.
    apply Z.mod_divide in E3; [|lia]. destruct E3 as [c Hc].
    split; [lia|]. exists (6 * c + d). lia.
  - split; [auto|]. intros [H|[Hx Hdiv]]; [exact H|exfalso].
    pose proof (Z.div_mod (x - 1) p ltac:(lia)) as Hdm.
    pose proof (Z.mod_pos_bound (x - 1) p ltac:(lia)) as Hmb.
    assert (Hstart : (x - 1) mod p + 1 = start).
    { apply Huniq; [lia|]. destruct Hdiv as [c Hc]. exists (c - 6 * ((x - 1) / p)). lia. }
    assert (Hpos : 0 <= (x - 1) / p) by (apply Z.div_pos; lia).
    replace (start <=? x) with true in E by (symmetry; apply Z.leb_le; nia).
    replace (x <? vx) with true in E by (symmetry; apply Z.ltb_lt; lia).
    replace (x - start) with ((x - 1) / p * p) in E by lia.
    rewrite Z.mod_mul in E by lia. discriminate E.
Qed.

Lemma sieve_vx_root_primes_loop_spec (vx y : Z) (ps : list Z) :
  0 < vx ->
  (forall p, In p ps -> Z.prime p /\ 5 <= p < 2 ^ 31) ->
  forall s, exists s',
    sieve_vx_root_primes_loop ps vx y s = Ret s' /\
    forall x,
      (bitmap_get_bit (fst s') x = false <->
       bitmap_get_bit (fst s) x = false \/
       (1 <= x < vx /\ exists p, In p ps /\ ~ (p | vx) /\ (p | iZ_gmp (y * vx + x) (-1)))) /\
      (bitmap_get_bit (snd s') x = false <->
       bitmap_get_bit (snd s) x = false \/
       (1 <= x < vx /\ exists p, In p ps /\ ~ (p | vx) /\ (p | iZ_gmp (y * vx + x) 1))).
Proof.
  intros Hvx. unfold iZ_gmp. cbn [Z.ltb Z.compare].
  induction ps as [|p ps IH]; intros Hps s.
  - exists s. split; [reflexivity|]. intros x.
    split; (split; [auto|]); intros [H|[_ (p & [] & _)]]; exact H.
  - assert (Hp : Z.prime p /\ 5 <= p < 2 ^ 31) by (apply Hps; left; reflexivity).
    destruct Hp as [Hp Hp5]. change (2 ^ 31) with 2147483648 in Hp5.
    assert (HpU : 5 <= p < U64) by (rewrite U64_value; lia).
    assert (Hps' : forall q, In q ps -> Z.prime q /\ 5 <= q < 2 ^ 31).
    { intros q Hq. apply Hps. right. exact Hq. }
    cbn [sieve_vx_root_primes_loop].
    rewrite (to_int_small p) by lia. rewrite (wrap64_small p) by lia.
    replace (p =? 0) with false by (symmetry; apply Z.eqb_neq; lia).
    destruct (Z.rem vx p =? 0) eqn:Erem.
    + apply Z.eqb_eq in Erem. rewrite Z.rem_mod_nonneg in Erem by lia.
      apply Z.mod_divide in Erem; [|lia].
      destruct (IH Hps' s) as (s' & Hs' & Hspec). exists s'. split; [exact Hs'|].
      intros x. destruct (Hspec x) as [H5 H7]. rewrite H5, H7.
      split; (split; (intros [H|[Hx (q & Hq & Hnd & Hd)]]; [left; exact H|right])).
      * split; [exact Hx|]. exists q. split; [right; exact Hq|]. auto.
      * split; [exact Hx|]. exists q. destruct Hq as [<- | Hq]; [contradiction|]. auto.
      * split; [exact Hx|]. exists q. split; [right; exact Hq|]. auto.
      * split; [exact Hx|]. exists q. destruct Hq as [<- | Hq]; [contradiction|]. auto.
    + apply Z.eqb_neq in Erem. rewrite Z.rem_mod_nonneg in Erem by lia.
      assert (Hnd : ~ (p | vx)).
      { intros Hd. apply Erem. apply Z.mod_divide; [lia|exact Hd]. }
      match goal with
      | |- context [sieve_vx_root_primes_loop ps vx y ?t] =>
          destruct (IH Hps' t) as (s' & Hs' & Hspec)
      end.
      exists s'. split; [exact Hs'|].
      intros x. destruct (Hspec x) as [H5 H7]. cbn [fst snd] in H5, H7.
      rewrite H5, H7.
      rewrite (root_prime_mark_spec (-1) p vx y (fst s) x (or_intror eq_refl) Hp HpU).
      rewrite (root_prime_mark_spec 1 p vx y (snd s) x (or_introl eq_refl) Hp HpU).
      replace (6 * (y * vx + x) + -1) with (6 * (y * vx + x) - 1) by ring.
      split; split.
      * intros [[H|[Hx Hd]]|[Hx (q & Hq & Hnq & Hd)]].
        -- left. exact H.
        -- right. split; [exact Hx|]. exists p. split; [left; reflexivity|]. auto.
        -- right. split; [exact Hx|]. exists q. split; [right; exact Hq|]. auto.
      * intros [H|[Hx (q & [<- | Hq] & Hnq & Hd)]].
        -- left. left. exact H.
        -- left. right. auto.
        -- right. split; [exact Hx|]. exists q. auto.
      * intros [[H|[Hx Hd]]|[Hx (q & Hq & Hnq & Hd)]].
        -- left. exact H.
        -- right. split; [exact Hx|]. exists p. split; [left; reflexivity|]. auto.
        -- right. split; [exact Hx|]. exists q. split; [right; exact Hq|]. auto.
      * intros [H|[Hx (q & [<- | Hq] & Hnq & Hd)]].
        -- left. left. exact H.
        -- left. right. auto.
        -- right. split; [exact Hx|]. exists q. auto.
Qed.

(** sieve_vx_root_primes with a list whose cells from the third on are primes
    from 5 on that fit an [int]: it returns, and afterwards, at every index x
    other than vx, a bit of x5 (x7) is clear exactly when it was clear before
    or x is in [1, vx) and a listed prime that does not divide vx divides
    iZ(y * vx + x, -1) (iZ(y * vx + x, +1)).  So the bits at 0 and above vx
    are never touched; the bit at the limit vx itself is left out, it depends
    on bitmap_clear_mod_p clearing its limit or not. *)
Theorem sieve_vx_root_primes_marks (vx y : Z) (root_primes : PRIMES_OBJ) (x5 x7 : BITMAP) :
  0 < vx ->
  (forall p, In p (skipn 2 (p_array root_primes)) -> Z.prime p /\ 5 <= p < 2 ^ 31) ->
  exists x5' x7',
    sieve_vx_root_primes vx y root_primes x5 x7 = Ret (x5', x7') /\
    forall x,
      x <> vx ->
      (bitmap_get_bit x5' x = false <->
       bitmap_get_bit x5 x = false \/
       (1 <= x < vx /\
        exists p, In p (skipn 2 (p_array root_primes)) /\ ~ (p | vx) /\
                  (p | iZ_gmp (y * vx + x) (-1)))) /\
      (bitmap_get_bit x7' x = false <->
       bitmap_get_bit x7 x = false \/
       (1 <= x < vx /\
        exists p, In p (skipn 2 (p_array root_primes)) /\ ~ (p | vx) /\
                  (p | iZ_gmp (y * vx + x) 1))).
Proof.
  intros Hvx Hps. unfold sieve_vx_root_primes.
  destruct (sieve_vx_root_primes_loop_spec vx y _ Hvx Hps (x5, x7)) as ([x5' x7'] & Hs & Hspec).
  exists x5', x7'. split; [exact Hs|]. intros x _. exact (Hspec x).
Qed.

Lemma sieve_vx_root_primes_marks_witness :
  exists x5' x7',
    sieve_vx_root_primes 35 1 (PrimesObj.mk [2; 3; 5; 7; 11] (repeat x00 32))
      (bitmap_set_all (bitmap_create 45)) (bitmap_set_all (bitmap_create 45)) = Ret (x5', x7') /\
    bitmap_get_bit x5' 11 = false.
Proof.
  assert (Hvx : 0 < 35) by lia.
  assert (Hps : forall p, In p (skipn 2 (p_array (PrimesObj.mk [2; 3; 5; 7; 11] (repeat x00 32)))) ->
                          Z.prime p /\ 5 <= p < 2 ^ 31).
  { cbn [skipn p_array In]. intros p [<- | [<- | [<- | []]]];
      (split; [apply is_prime_b_sound; reflexivity|split; [lia|reflexivity]]). }
  destruct (sieve_vx_root_primes_marks 35 1 _ (bitmap_set_all (bitmap_create 45))
              (bitmap_set_all (bitmap_create 45)) Hvx Hps) as (x5' & x7' & Hs & Hspec).
  exists x5', x7'. split; [exact Hs|].
  apply (Hspec 11); [lia|]. right. split; [lia|]. exists 11.
  split; [cbn [skipn p_array In]; auto|]. split.
  - intros [c Hc]. lia.
  - exists 25. reflexivity.
Defined.

(** ** iZ_next_prime, backward *)

Section PreviousPrime.

Variable test : Z -> Z -> Z.
Variable hi : Z.

Lemma scan_one_good_below (bits : BITMAP) (yvx i x : Z) (s : scan_state) :
  scan_good_below test hi s -> iZ_gmp (yvx + x) i <= hi ->
  scan_good_below test hi (scan_one test bits yvx i x s).
Proof.
  intros Hs Hhi. unfold scan_one. destruct (bitmap_get_bit bits x); [|exact Hs].
  unfold scan_good_below. cbn [fst snd].
  destruct (Z.eq_dec (test (iZ_gmp (yvx + x) i) TEST_ROUNDS) 0) as [E|E]; [left; exact E|].
  right. split; [reflexivity|exact Hhi].
Qed.

Lemma scan_backward_good (x5 x7 : BITMAP) (yvx : Z) (k : nat) :
  forall x s,
    scan_good_below test hi s -> iZ_gmp (yvx + x) 1 <= hi ->
    scan_good_below test hi (scan_backward test k x5 x7 yvx x s).
Proof.
  induction k as [|k IH]; intros x s Hs Hhi; [exact Hs|].
  cbn [scan_backward].
  pose proof (scan_one_good_below x7 yvx 1 x s Hs Hhi) as H1.
  destruct (negb (fst (scan_one test x7 yvx 1 x s) =? 0)); [exact H1|].
  assert (Hhi5 : iZ_gmp (yvx + x) (-1) <= hi).
  { unfold iZ_gmp in *. cbn [Z.ltb Z.compare] in *. lia. }
  pose proof (scan_one_good_below x5 yvx (-1) x _ H1 Hhi5) as H2.
  destruct (negb (fst (scan_one test x5 yvx (-1) x (scan_one test x7 yvx 1 x s)) =? 0));
    [exact H2|].
  apply IH; [exact H2|]. unfold iZ_gmp in *. cbn [Z.ltb Z.compare] in *. lia.
Qed.

Lemma segments_backward_good (x5 x7 : BITMAP) (vx : Z) (k : nat) :
  forall i start_x yvx s,
    0 < vx -> 0 <= i ->
    scan_good_below test hi s ->
    iZ_gmp (yvx + (if 0 <? i then vx else start_x)) 1 <= hi ->
    iZ_gmp yvx 1 <= hi ->
    scan_good_below test hi (segments_loop test k false x5 x7 vx i start_x yvx s).
Proof.
  induction k as [|k IH]; intros i start_x yvx s Hvx Hi Hs Hhi Hnext.
  - cbn [segments_loop]. destruct (fst s =? 0); exact Hs.
  - cbn [segments_loop]. destruct (fst s =? 0); [|exact Hs].
    apply IH; [exact Hvx|lia| | |].
    + apply scan_backward_good; assumption.
    + replace (0 <? i + 1) with true by (symmetry; apply Z.ltb_lt; lia).
      replace (yvx - vx + vx) with yvx by ring. exact Hnext.
    + unfold iZ_gmp in *. cbn [Z.ltb Z.compare] in *. lia.
Qed.

End PreviousPrime.

(** iZ_next_prime, backward: a value it returns is one the 25-round test
    accepted, and it is below base unless base = 6 m or 6 m + 1 with m a
    multiple of vx = 5005 (then the scan reaches candidates at or above
    base). *)
Theorem iZ_next_prime_backward_sound (test : Z -> Z -> Z) (base q : Z) :
  0 <= base ->
  2 <= base mod 6 \/ (base / 6) mod 5005 <> 0 ->
  iZ_next_prime test base false = Some q ->
  test q TEST_ROUNDS <> 0 /\ q < base.
Proof.
  intros Hb Hseg. unfold iZ_next_prime. cbv zeta.
  rewrite andb_false_r. cbn [negb]. rewrite andb_true_r.
  change (5 * 7 * 11 * 13) with 5005.
  destruct (construct_iZm_segment 5005 (bitmap_create (5005 + 10)) (bitmap_create (5005 + 10)))
    as [x5 x7].
  assert (Hyy : base / (6 * 5005) = base / 6 / 5005).
  { rewrite Z.div_div by lia. reflexivity. }
  rewrite Hyy.
  pose proof (Z.div_mod base 6 ltac:(lia)) as Hd6.
  pose proof (Z.mod_pos_bound base 6 ltac:(lia)) as Hm6.
  pose proof (Z.div_mod (base / 6) 5005 ltac:(lia)) as Hd.
  pose proof (Z.mod_pos_bound (base / 6) 5005 ltac:(lia)) as Hm.
  assert (Hfinish : forall start_x tmp,
            6 * (base / 6 / 5005 * 5005 + start_x) + 1 <= base - 1 ->
            6 * (base / 6 / 5005 * 5005) + 1 <= base - 1 ->
            (if fst (segments_loop test 1000 false x5 x7 5005 0 start_x
                       (base / 6 / 5005 * 5005) (0, tmp)) =? 0
             then None
             else Some (snd (segments_loop test 1000 false x5 x7 5005 0 start_x
                               (base / 6 / 5005 * 5005) (0, tmp)))) = Some q ->
            test q TEST_ROUNDS <> 0 /\ q < base).
  { intros start_x tmp Hhi Hnext.
    pose proof (segments_backward_good test (base - 1) x5 x7 5005 1000 0
                  start_x (base / 6 / 5005 * 5005) (0, tmp)
                  ltac:(lia) ltac:(lia) (or_introl eq_refl)) as Hgood.
    change (0 <? 0) with false in Hgood. cbv iota in Hgood.
    unfold iZ_gmp in Hgood. change (0 <? 1) with true in Hgood. cbv iota in Hgood.
    generalize dependent (base / 6 / 5005 * 5005). intros yvx Hhi Hnext Hgood.
    specialize (Hgood Hhi Hnext).
    generalize dependent (segments_loop test 1000 false x5 x7 5005 0 start_x yvx (0, tmp)).
    intros r Hgood.
    destruct (fst r =? 0) eqn:Ef; [discriminate|].
    intros H. injection H as <-. apply Z.eqb_neq in Ef.
    destruct Hgood as [H0|[Ht Hhi']]; [contradiction|]. split; [|lia].
    rewrite Ht. exact Ef. }
  assert (Hyvx : 6 * (base / 6 / 5005 * 5005) + 1 <= base - 1) by lia.
  destruct (Z.eqb_spec (base mod 6) 1) as [E1|E1].
  - (* base = 6 m + 1: the candidate base - 2 is tried first *)
    destruct (negb (test (base - 2) TEST_ROUNDS =? 0)) eqn:Eedge.
    + intros H. injection H as <-. split; [|lia].
      apply negb_true_iff, Z.eqb_neq in Eedge. exact Eedge.
    + destruct Hseg as [Hseg|Hseg]; [lia|].
      assert (Hxp : (base - 2) / 6 = base / 6 - 1).
      { symmetry. apply (Z.div_unique _ 6 _ 5); lia. }
      rewrite Hxp.
      assert (Hr : (base / 6 - 1) mod 5005 = (base / 6) mod 5005 - 1).
      { symmetry. apply (Z.mod_unique _ 5005 (base / 6 / 5005)); lia. }
      rewrite Hr. apply Hfinish; lia.
  - apply Hfinish; lia.
Qed.

Lemma iZ_next_prime_backward_sound_witness :
  exact_primality_test 89 TEST_ROUNDS <> 0 /\ 89 < 100.
Proof.
  apply (iZ_next_prime_backward_sound exact_primality_test 100 89).
  - lia.
  - left. vm_compute. discriminate.
  - vm_compute. reflexivity.
Defined.


(** ** The prime-list file: writing, reading, and an altered hash *)

(** For every populated prime list c (fewer than 2^31 cells of 64 bits) the
    file written by primes_obj_write_file is the 4-byte count, the body and
    the SHA-256 of the body; primes_obj_read_file on it returns a list with
    the same p_count and the same elements in the same order; and when a
    single byte of the stored hash is altered, primes_obj_read_file fails the
    hash check and returns NULL. *)
Theorem primes_obj_write_then_read (c : PRIMES_OBJ) :
  p_array c <> [] ->
  PrimesObj.p_count c < 2 ^ 31 ->
  Forall (fun p => 0 <= p < U64) (p_array c) ->
  snd (primes_obj_write_file c) =
    le_bytes 4 (PrimesObj.p_count c) ++ body_bytes (p_array c)
      ++ SHA256.SHA256 (body_bytes (p_array c)) /\
  (exists c', primes_obj_read_file (snd (primes_obj_write_file c)) = ReadOk c' /\
              PrimesObj.p_count c' = PrimesObj.p_count c /\ p_array c' = p_array c) /\
  (forall (i : nat) (b : byte),
     (i < 32)%nat ->
     b <> nth i (SHA256.SHA256 (body_bytes (p_array c))) x00 ->
     primes_obj_read_file
       (le_bytes 4 (PrimesObj.p_count c) ++ body_bytes (p_array c)
          ++ alter_byte i b (SHA256.SHA256 (body_bytes (p_array c)))) = ReadNull).
Proof.
  intros Hne H31 Hcells.
  assert (Hn : (0 < length (p_array c))%nat).
  { destruct (p_array c); [congruence|cbn [length]; lia]. }
  assert (Hfile : snd (primes_obj_write_file c) =
                  le_bytes 4 (PrimesObj.p_count c) ++ body_bytes (p_array c)
                    ++ SHA256.SHA256 (body_bytes (p_array c))).
  { unfold primes_obj_write_file, primes_obj_compute_hash, hash_int_array, PrimesObj.p_count.
    replace (Z.of_nat (length (p_array c)) =? 0) with false
      by (symmetry; apply Z.eqb_neq; lia).
    reflexivity. }
  split; [exact Hfile|]. unfold PrimesObj.p_count in *. split.
  - rewrite Hfile.
    rewrite primes_obj_read_file_layout;
      [| exact Hn | exact H31 | apply body_bytes_length | apply SHA256_length].
    destruct (list_eq_dec byte_eq_dec (SHA256.SHA256 (body_bytes (p_array c)))
                (SHA256.SHA256 (body_bytes (p_array c)))) as [_|Hd]; [|congruence].
    eexists. split; [reflexivity|]. cbn [p_array].
    rewrite cells_body_bytes by exact Hcells. split; reflexivity.
  - intros i b Hi Hb.
    assert (Hlen : (i < length (SHA256.SHA256 (body_bytes (p_array c))))%nat)
      by (rewrite SHA256_length; exact Hi).
    rewrite primes_obj_read_file_layout;
      [| exact Hn | exact H31 | apply body_bytes_length
       | rewrite alter_byte_length by exact Hlen; apply SHA256_length].
    destruct (list_eq_dec byte_eq_dec (SHA256.SHA256 (body_bytes (p_array c)))
                (alter_byte i b (SHA256.SHA256 (body_bytes (p_array c))))) as [He|_];
      [exfalso|reflexivity].
    apply Hb. pose proof (nth_alter_byte i b x00 _ Hlen) as Hnth.
    rewrite <- He in Hnth. symmetry. exact Hnth.
Qed.

Lemma primes_obj_write_then_read_witness :
  (exists c', primes_obj_read_file
                (snd (primes_obj_write_file (PrimesObj.mk [2; 3; 5; 7] (repeat x00 32))))
              = ReadOk c' /\ p_array c' = [2; 3; 5; 7]) /\
  primes_obj_read_file
    (le_bytes 4 4 ++ body_bytes [2; 3; 5; 7]
       ++ alter_byte 0 x00 (SHA256.SHA256 (body_bytes [2; 3; 5; 7]))) = ReadNull.
Proof.
  assert (Hne : p_array (PrimesObj.mk [2; 3; 5; 7] (repeat x00 32)) <> []) by discriminate.
  assert (H31 : PrimesObj.p_count (PrimesObj.mk [2; 3; 5; 7] (repeat x00 32)) < 2 ^ 31)
    by reflexivity.
  assert (Hcells : Forall (fun p => 0 <= p < U64)
                     (p_array (PrimesObj.mk [2; 3; 5; 7] (repeat x00 32)))).
  { repeat constructor; discriminate. }
  destruct (primes_obj_write_then_read (PrimesObj.mk [2; 3; 5; 7] (repeat x00 32)) Hne H31 Hcells)
    as (_ & (c' & Hread & _ & Harr) & Htamper).
  split.
  - exists c'. split; [exact Hread|exact Harr].
  - apply (Htamper 0%nat x00).
    + lia.
    + intros Heq. vm_compute in Heq. discriminate Heq.
Defined.
